(** * romlib: patches, tables and string fields

    A shallow embedding of the patch component ([romlib/patch.py]), of
    the table and index sequences ([romlib/structures.py]) and of the
    string accessors of field descriptors ([romlib/types.py],
    [romlib/field.py]), with the properties their specification states.

    Python integers are [Z]; a [bytes] or [bytearray] object is a
    [list Z] whose elements the constructors keep in [0, 256); a [dict]
    from offsets to byte values is a [gmap Z Z]; a [dict] whose iteration
    order is observed (the block mapping) is an association list in
    insertion order.  Exceptions are values of [exn], and a function that
    can raise returns a [result]. *)

From Stdlib Require Import ZArith Lia Ascii String.
From stdpp Require Import base option list sorting gmap strings.
From Equations Require Import Equations.

Open Scope Z_scope.

(** ** Exceptions and results *)

(** The exception classes the modelled code raises.  The two patch
    exceptions carry the line number their message reports, when the
    message has one. *)
Inductive exn : Type :=
  | PatchFormatError (line : option Z)
  | PatchValueError (line : option Z)
  | IndexError
  | KeyError
  | ValueError
  | TypeError
  | OverflowError
  | AttributeError
  | NameError
  | UnicodeError
  | StopIteration.

Inductive result (A : Type) : Type :=
  | Ok (a : A)
  | Raise (e : exn).
Arguments Ok {A} a.
Arguments Raise {A} e.

Global Instance result_bind : MBind result := λ A B k r,
  match r with
  | Ok a => k a
  | Raise e => Raise e
  end.

Global Instance result_ret : MRet result := λ A a, Ok a.

(** [for x in l: st = f st x], where the body can raise. *)
Fixpoint foldM {A S} (f : S → A → result S) (st : S) (l : list A) : result S :=
  match l with
  | [] => Ok st
  | x :: l' => st' ← f st x ; foldM f st' l'
  end.

(** ** Dictionaries iterated in insertion order *)

Section odict.
Context {V : Type}.

(** [d[k] = v]: an existing key keeps its position, a new key goes last. *)
Fixpoint dict_set (k : Z) (v : V) (d : list (Z * V)) : list (Z * V) :=
  match d with
  | [] => [(k, v)]
  | (k', v') :: d' =>
      if decide (k' = k) then (k, v) :: d' else (k', v') :: dict_set k v d'
  end.

Fixpoint dict_get (k : Z) (d : list (Z * V)) : option V :=
  match d with
  | [] => None
  | (k', v') :: d' => if decide (k' = k) then Some v' else dict_get k d'
  end.

(** [d.pop(k)]: the value and the dictionary without the key, or
    [KeyError]. *)
Fixpoint dict_pop (k : Z) (d : list (Z * V)) : result (V * list (Z * V)) :=
  match d with
  | [] => Raise KeyError
  | (k', v') :: d' =>
      if decide (k' = k) then Ok (v', d')
      else '(v, d'') ← dict_pop k d' ; Ok (v, (k', v') :: d'')
  end.
End odict.

(** ** Sorting items by key

    [sorted(d.items())] compares tuples; the keys of a dictionary are
    distinct, so the first component decides. *)

Definition key_le {V} : relation (Z * V) := λ a b, a.1 ≤ b.1.

Global Instance key_le_dec {V} (a b : Z * V) : Decision (key_le a b).
Proof. unfold key_le. apply _. Defined.

Definition sorted {V} (items : list (Z * V)) : list (Z * V) :=
  merge_sort key_le items.

(** ** Patch *)

Definition _ips_header : list Z := [80; 65; 84; 67; 72].
Definition _ips_footer : list Z := [69; 79; 70].
Definition _ips_bogo_address : Z := 0x454f46.

Record Patch := mkPatch { changes : gmap Z Z }.

(** [bytearray.append(v)] accepts an integer in [range(256)] only. *)
Definition bytearray_append (block : list Z) (v : Z) : result (list Z) :=
  if decide (0 ≤ v < 256) then Ok (block ++ [v]) else Raise ValueError.

Record blockify_state := mkBlockify {
  merged : list (Z * list Z);
  block : list Z;
  start : option Z;
  offset : option Z
}.

(** One iteration of the loop of [Patch._blockify]. *)
Definition blockify_step (st : blockify_state) (item : Z * Z)
  : result blockify_state :=
  let '(o, v) := item in
  match start st with
  | None =>
      b ← bytearray_append (block st) v ;
      Ok (mkBlockify (merged st) b (Some o) (Some o))
  | Some s =>
      match offset st with
      | None => Raise TypeError
      | Some off =>
          if decide (o = off + 1) then
            b ← bytearray_append (block st) v ;
            Ok (mkBlockify (merged st) b (Some s) (Some o))
          else
            let merged' := dict_set s (block st) (merged st) in
            b ← bytearray_append [] v ;
            Ok (mkBlockify merged' b (Some o) (Some o))
      end
  end.

Definition blockify_finish (st : blockify_state) : list (Z * list Z) :=
  match start st with
  | Some s => dict_set s (block st) (merged st)
  | None => merged st
  end.

Definition _blockify (changes : gmap Z Z) : result (list (Z * list Z)) :=
  st ← foldM blockify_step (mkBlockify [] [] None None)
             (sorted (map_to_list changes)) ;
  Ok (blockify_finish st).

(** [for i, d in enumerate(data): changes[start+i] = d] *)
Definition set_block (changes : gmap Z Z) (start : Z) (data : list Z)
  : gmap Z Z :=
  foldl (λ ch '(i, d), <[start + Z.of_nat i := d]> ch) changes
        (imap (λ i d, (i, d)) data).

Definition from_blocks (blocks : list (Z * list Z)) : Patch :=
  mkPatch (foldl (λ ch '(s, data), set_block ch s data) ∅ blocks).

(** [Patch.filter]: the comprehension keeps the entries that differ from
    the byte of the reference image.  [getbyte] seeks and reads one byte:
    a negative offset is refused by [seek], and past the end [read(1)] is
    empty, so indexing it raises.  The comprehension visits the entries in
    the mapping's iteration order; which exception comes first when several
    offsets are outside the image depends on it. *)
Definition getbyte (rom : list Z) (offset : Z) : result Z :=
  if decide (offset < 0) then Raise ValueError
  else match rom !! Z.to_nat offset with
       | Some b => Ok b
       | None => Raise IndexError
       end.

Definition filter_step (rom : list Z) (kept : gmap Z Z) (item : Z * Z)
  : result (gmap Z Z) :=
  let '(offset, value) := item in
  b ← getbyte rom offset ;
  Ok (if decide (value ≠ b) then <[offset := value]> kept else kept).

Definition Patch_filter (self : Patch) (rom : list Z) : result Patch :=
  kept ← foldM (filter_step rom) ∅ (map_to_list (changes self)) ;
  Ok (mkPatch kept).

(** [Patch.__init__]: on values, copying the dictionary is the identity;
    the copy is visible in the store model below. *)
Definition Patch_init (data : gmap Z Z) (rom : option (list Z))
  : result Patch :=
  match rom with
  | Some r => Patch_filter (mkPatch data) r
  | None => Ok (mkPatch data)
  end.

(** *** Objects in a store

    Dictionaries are mutable objects: a store maps locations to their
    contents, and a patch object holds the location of its [changes]. *)

Abbreviation store := (gmap positive (gmap Z Z)).

Record PatchObj := mkPatchObj { changes_loc : positive }.

(** A location no object of the store occupies. *)
Definition new_loc (σ : store) : positive := fresh (dom σ).

(** [d.copy()]: a new dictionary with the same items.  A location
    without an object is not a dictionary to copy. *)
Definition dict_copy (σ : store) (d : positive) : result (positive * store) :=
  match σ !! d with
  | Some items => Ok (new_loc σ, <[new_loc σ := items]> σ)
  | None => Raise AttributeError
  end.

(** [d[k] = v] on the object at [d]. *)
Definition dict_setitem (σ : store) (d : positive) (k v : Z) : store :=
  alter (insert k v) d σ.

(** [del d[k]] on the object at [d]. *)
Definition dict_delitem (σ : store) (d : positive) (k : Z) : store :=
  alter (delete k) d σ.

(** [self.filter(rom)]: the comprehension builds a new dictionary and
    [self.changes] is rebound to it.  The store is returned in both
    outcomes. *)
Definition PatchObj_filter (σ : store) (self : PatchObj) (rom : list Z)
  : store * result PatchObj :=
  match σ !! changes_loc self with
  | None => (σ, Raise AttributeError)
  | Some items =>
      match Patch_filter (mkPatch items) rom with
      | Ok p => (<[new_loc σ := changes p]> σ, Ok (mkPatchObj (new_loc σ)))
      | Raise e => (σ, Raise e)
      end
  end.

(** [Patch(data, rom)] on objects. *)
Definition PatchObj_init (σ : store) (data : positive)
    (rom : option (list Z)) : store * result PatchObj :=
  match dict_copy σ data with
  | Raise e => (σ, Raise e)
  | Ok (l, σ1) =>
      match rom with
      | Some r => PatchObj_filter σ1 (mkPatchObj l) r
      | None => (σ1, Ok (mkPatchObj l))
      end
  end.

(** *** Integers as bytes *)

(** The [len] low base-256 digits, most significant first. *)
Fixpoint be_bytes (len : nat) (n : Z) : list Z :=
  match len with
  | O => []
  | S len' => be_bytes len' (n / 256) ++ [n mod 256]
  end.

(** [n.to_bytes(len, 'big')] *)
Definition to_bytes (n : Z) (len : nat) : result (list Z) :=
  if decide (0 ≤ n < 256 ^ Z.of_nat len) then Ok (be_bytes len n)
  else Raise OverflowError.

(** [int.from_bytes(b, 'big')] *)
Definition from_bytes (b : list Z) : Z :=
  foldl (λ acc x, acc * 256 + x) 0 b.

(** *** Writing

    A writer appends to a file and can raise; what it wrote before raising
    stays written. *)

Definition io (T A : Type) : Type := list T → list T * result A.

Global Instance io_bind {T} : MBind (io T) := λ A B k m f,
  match m f with
  | (f', Ok a) => k a f'
  | (f', Raise e) => (f', Raise e)
  end.

Global Instance io_ret {T} : MRet (io T) := λ A a f, (f, Ok a).

Definition write {T} (data : list T) : io T () := λ f, (f ++ data, Ok ()).

Definition lift {T A} (r : result A) : io T A := λ f, (f, r).

Fixpoint io_for {T A} (l : list A) (body : A → io T ()) : io T () :=
  match l with
  | [] => mret ()
  | x :: l' => body x ≫= λ _, io_for l' body
  end.

(** [Patch._ips_sanitize_changes] *)
Definition _ips_sanitize_changes (self : Patch) (bogobyte : option Z)
  : result (list (Z * list Z)) :=
  blocks ← _blockify (changes self) ;
  match dict_pop _ips_bogo_address blocks with
  | Raise KeyError => Ok blocks
  | Raise e => Raise e
  | Ok (data, blocks') =>
      match bogobyte with
      | None => Raise (PatchValueError None)
      | Some b =>
          bb ← to_bytes b 1 ;
          Ok (dict_set (_ips_bogo_address - 1) (bb ++ data) blocks')
      end
  end.

(** [len(data) > 3 and len(set(data)) == 1] *)
Definition use_rle (data : list Z) : bool :=
  bool_decide (3 < Z.of_nat (length data))
  && bool_decide (size (list_to_set data : gset Z) = 1%nat).

(** The body of the loop of [Patch.to_ips]. *)
Definition to_ips_record (b : Z * list Z) : io Z () :=
  let '(offset, data) := b in
  if use_rle data then
    o ← lift (to_bytes offset 3) ; _ ← write o ;
    _ ← write [0; 0] ;
    n ← lift (to_bytes (Z.of_nat (length data)) 2) ; _ ← write n ;
    write (take 1 data)
  else
    o ← lift (to_bytes offset 3) ; _ ← write o ;
    n ← lift (to_bytes (Z.of_nat (length data)) 2) ; _ ← write n ;
    write data.

Definition to_ips (self : Patch) (bogobyte : option Z) : io Z () :=
  blocks ← lift (_ips_sanitize_changes self bogobyte) ;
  _ ← write _ips_header ;
  _ ← io_for (sorted blocks) to_ips_record ;
  write _ips_footer.

(** *** Reading the binary format *)

(** [f.read(n)]: at most [n] bytes and the rest of the file. *)
Definition read (n : Z) (f : list Z) : list Z * list Z :=
  (take (Z.to_nat n) f, drop (Z.to_nat n) f).

(** [for i in range(n): changes[offset+i] = value] *)
Definition set_run (changes : gmap Z Z) (offset n value : Z) : gmap Z Z :=
  foldl (λ ch i, <[offset + i := value]> ch) changes (seqZ 0 n).

(** What one iteration of the loop of [Patch.from_ips] does. *)
Inductive ips_step : Type :=
  | IpsBreak
  | IpsRaise (e : exn)
  | IpsNext (changes : gmap Z Z) (f : list Z).

Definition from_ips_step (f : list Z) (changes : gmap Z Z) : ips_step :=
  let '(data, f) := read 3 f in
  if decide (data = _ips_footer) then IpsBreak
  else
    let offset := from_bytes data in
    let '(sz, f) := read 2 f in
    let size := from_bytes sz in
    if decide (size > 0) then
      let '(bytes, f) := read size f in
      IpsNext (set_block changes offset bytes) f
    else
      let '(rsz, f) := read 2 f in
      let rle_size := from_bytes rsz in
      let '(v, f) := read 1 f in
      match v with
      | [] => IpsRaise IndexError
      | value :: _ => IpsNext (set_run changes offset rle_size value) f
      end.

(** Matching on a value while keeping the equation that names it. *)
Definition inspect {A : Type} (x : A) : { y : A | x = y } := exist _ x eq_refl.

Equations from_ips_loop (f : list Z) (changes : gmap Z Z)
  : result (gmap Z Z) by wf (length f) lt :=
from_ips_loop f changes with inspect (from_ips_step f changes) := {
  | exist _ IpsBreak _ => Ok changes
  | exist _ (IpsRaise e) _ => Raise e
  | exist _ (IpsNext changes' f') Hstep => from_ips_loop f' changes' }.
Next Obligation.
  match goal with H : from_ips_step _ _ = _ |- _ => revert H end.
  unfold from_ips_step, read.
  destruct (decide (take _ f = _ips_footer)); [discriminate|].
  destruct (decide (from_bytes _ > 0)) as [Hsz|Hsz].
  - intros [= _ <-]. rewrite !length_drop.
    destruct (drop (Z.to_nat 3) f) as [|x l] eqn:Hd; [done|].
    assert (length (drop (Z.to_nat 3) f) = S (length l)) as Hl by by rewrite Hd.
    rewrite length_drop in Hl. lia.
  - destruct (take (Z.to_nat 1) _) as [|value v] eqn:Hv; [discriminate|].
    intros [= _ <-].
    assert (length (take (Z.to_nat 1)
              (drop (Z.to_nat 2) (drop (Z.to_nat 2) (drop (Z.to_nat 3) f))))
            = S (length v)) as Hl by by rewrite Hv.
    rewrite length_take, !length_drop in Hl. rewrite !length_drop. lia.
Qed.

(** Whether bytes decode as UTF-8, the default encoding of
    [codecs.decode]: [need] continuation bytes are still expected, the
    next of them within [lo, hi]. *)
Fixpoint utf8_valid (need : nat) (lo hi : Z) (b : list Z) : bool :=
  match b with
  | [] => bool_decide (need = 0%nat)
  | x :: b' =>
      match need with
      | S need' => bool_decide (lo ≤ x ≤ hi) && utf8_valid need' 0x80 0xBF b'
      | O =>
          if bool_decide (0 ≤ x < 0x80) then utf8_valid 0 0x80 0xBF b'
          else if bool_decide (0xC2 ≤ x ≤ 0xDF) then utf8_valid 1 0x80 0xBF b'
          else if bool_decide (x = 0xE0) then utf8_valid 2 0xA0 0xBF b'
          else if bool_decide (x = 0xED) then utf8_valid 2 0x80 0x9F b'
          else if bool_decide (0xE1 ≤ x ≤ 0xEF) then utf8_valid 2 0x80 0xBF b'
          else if bool_decide (x = 0xF0) then utf8_valid 3 0x90 0xBF b'
          else if bool_decide (0xF1 ≤ x ≤ 0xF3) then utf8_valid 3 0x80 0xBF b'
          else if bool_decide (x = 0xF4) then utf8_valid 3 0x80 0x8F b'
          else false
      end
  end.

(** [Patch.from_ips] *)
Definition from_ips (f : list Z) : result Patch :=
  let '(header, f) := read 5 f in
  if negb (utf8_valid 0 0x80 0xBF header) then Raise UnicodeError
  else if decide (header = _ips_header) then
    changes ← from_ips_loop f ∅ ; Ok (mkPatch changes)
  else Raise (PatchFormatError None).

(** *** Text: the string operations the text format uses

    A string is a [string] of characters with code points below 256. *)

Definition ord (c : ascii) : Z := Z.of_N (Ascii.N_of_ascii c).

Definition chr (n : Z) : ascii := Ascii.ascii_of_N (Z.to_N n).

(** [c.isspace()] *)
Definition isspace (c : ascii) : bool :=
  let n := ord c in
  bool_decide (9 ≤ n ≤ 13) || bool_decide (28 ≤ n ≤ 32)
  || bool_decide (n = 133) || bool_decide (n = 160).

(** The whitespace [bytes.fromhex] skips. *)
Definition is_ascii_space (c : ascii) : bool :=
  let n := ord c in bool_decide (9 ≤ n ≤ 13) || bool_decide (n = 32).

(** [s.rstrip()] *)
Fixpoint rstrip (s : string) : string :=
  match s with
  | String c s' =>
      match rstrip s' with
      | EmptyString => if isspace c then EmptyString else String c EmptyString
      | r => String c r
      end
  | EmptyString => EmptyString
  end.

(** [s.startswith("#")] *)
Definition startswith_hash (s : string) : bool :=
  match s with
  | String c _ => bool_decide (c = "#"%char)
  | EmptyString => false
  end.

(** [s.split(":")]: the current part and the parts after it. *)
Fixpoint split_colon (s : string) : string * list string :=
  match s with
  | EmptyString => (EmptyString, [])
  | String c s' =>
      let '(part, parts) := split_colon s' in
      if bool_decide (c = ":"%char) then (EmptyString, part :: parts)
      else (String c part, parts)
  end.

Definition split (s : string) : list string :=
  let '(part, parts) := split_colon s in part :: parts.

(** The value of a digit in a base up to 16. *)
Definition digit_value (base : Z) (c : ascii) : option Z :=
  let n := ord c in
  let v := if bool_decide (48 ≤ n ≤ 57) then Some (n - 48)
           else if bool_decide (65 ≤ n ≤ 70) then Some (n - 55)
           else if bool_decide (97 ≤ n ≤ 102) then Some (n - 87)
           else None in
  match v with
  | Some d => if bool_decide (d < base) then Some d else None
  | None => None
  end.

(** Digits with single underscores between them; [after_digit] tells
    whether the previous character was a digit. *)
Fixpoint parse_digits (base : Z) (after_digit : bool) (acc : Z) (s : string)
  : option Z :=
  match s with
  | EmptyString => if after_digit then Some acc else None
  | String c s' =>
      if bool_decide (c = "_"%char) then
        if after_digit then parse_digits base false acc s' else None
      else
        match digit_value base c with
        | Some d => parse_digits base true (acc * base + d) s'
        | None => None
        end
  end.

(** The prefix [0x] or [0X] of base 16 and the one underscore allowed
    after it. *)
Definition skip_prefix (base : Z) (s : string) : string :=
  match s with
  | String "0" (String x s') =>
      if bool_decide (base = 16)
         && (bool_decide (x = "x"%char) || bool_decide (x = "X"%char))
      then match s' with
           | String "_" s'' => s''
           | _ => s'
           end
      else s
  | _ => s
  end.

(** The whitespace [int] passes over at both ends of a string: the
    whitespace of ASCII, and the whitespace beyond ASCII, which the
    conversion turns into spaces first.  The separators U+001C to U+001F,
    whitespace for [str.isspace] and [str.rstrip], are not among them:
    [int] refuses a string that has one. *)
Definition int_space (c : ascii) : bool :=
  let n := ord c in
  bool_decide (9 ≤ n ≤ 13) || bool_decide (n = 32)
  || bool_decide (n = 133) || bool_decide (n = 160).

Fixpoint int_lstrip (s : string) : string :=
  match s with
  | String c s' => if int_space c then int_lstrip s' else s
  | EmptyString => EmptyString
  end.

Fixpoint int_rstrip (s : string) : string :=
  match s with
  | String c s' =>
      match int_rstrip s' with
      | EmptyString => if int_space c then EmptyString else String c EmptyString
      | r => String c r
      end
  | EmptyString => EmptyString
  end.

(** [int(s, base)] for base 10 or 16.  The limit an interpreter may set
    on the number of decimal digits is left out. *)
Definition int (s : string) (base : Z) : result Z :=
  let s := int_rstrip (int_lstrip s) in
  let '(sign, s) :=
    match s with
    | String "-" s' => (-1, s')
    | String "+" s' => (1, s')
    | _ => (1, s)
    end in
  match parse_digits base false 0 (skip_prefix base s) with
  | Some n => Ok (sign * n)
  | None => Raise ValueError
  end.

(** [bytes.fromhex(s)] *)
Fixpoint fromhex (s : string) : result (list Z) :=
  match s with
  | EmptyString => Ok []
  | String c s' =>
      if is_ascii_space c then fromhex s'
      else
        match digit_value 16 c, s' with
        | Some hi, String c' s'' =>
            match digit_value 16 c' with
            | Some lo => bs ← fromhex s'' ; Ok ((hi * 16 + lo) :: bs)
            | None => Raise ValueError
            end
        | _, _ => Raise ValueError
        end
  end.

Definition hex_digit (d : Z) : ascii :=
  if bool_decide (d < 10) then chr (48 + d) else chr (55 + d).

Fixpoint hex_digits (fuel : nat) (n : Z) (acc : string) : string :=
  match fuel with
  | O => acc
  | S fuel' =>
      let acc' := String (hex_digit (n mod 16)) acc in
      if bool_decide (n / 16 = 0) then acc' else hex_digits fuel' (n / 16) acc'
  end.

Fixpoint zeros (n : nat) : string :=
  match n with
  | O => EmptyString
  | S n' => String "0" (zeros n')
  end.

(** ["{:0wX}".format(n)]: upper-case hexadecimal, zero-padded behind the
    sign to [w] characters. *)
Definition format_X (w : nat) (n : Z) : string :=
  let digits := hex_digits (S (Z.to_nat (Z.log2 (Z.abs n)))) (Z.abs n)
                  EmptyString in
  if bool_decide (n < 0) then
    String "-" (zeros (w - 1 - String.length digits) +:+ digits)
  else zeros (w - String.length digits) +:+ digits.

Definition newline : string := String (chr 10) EmptyString.

(** [print(s, file=f)] on a file held as its lines. *)
Definition print (s : string) : io string () := write [s +:+ newline].

(** The body of the loop of [Patch.to_ipst]. *)
Definition to_ipst_record (b : Z * list Z) : io string () :=
  let '(offset, data) := b in
  if use_rle data then
    match data with
    | d0 :: _ =>
        print (format_X 6 offset +:+ ":" +:+ format_X 4 0 +:+ ":"
               +:+ format_X 4 (Z.of_nat (length data)) +:+ ":"
               +:+ format_X 1 d0)
    | [] => lift (Raise IndexError)
    end
  else
    let datastr := foldr (λ d s, format_X 2 d +:+ s) EmptyString data in
    print (format_X 6 offset +:+ ":"
           +:+ format_X 4 (Z.of_nat (length data)) +:+ ":" +:+ datastr).

Definition to_ipst (self : Patch) (bogobyte : option Z) : io string () :=
  blocks ← lift (_ips_sanitize_changes self bogobyte) ;
  _ ← print "PATCH" ;
  _ ← io_for (sorted blocks) to_ipst_record ;
  print "EOF".

(** The lines [from_ipst] keeps: [not line or not line.startswith("#")]. *)
Definition ipst_keep (line : string) : bool :=
  bool_decide (line = EmptyString) || negb (startswith_hash line).

(** One line of the loop of [Patch.from_ipst]: [None] is [break]. *)
Definition from_ipst_line (line_number : Z) (line : string)
    (changes : gmap Z Z) : result (option (gmap Z Z)) :=
  let line := rstrip line in
  if bool_decide (line = "EOF"%string) then Ok None
  else
    match split line with
    | [offset; size; data] =>
        bs ← fromhex data ;
        ch ← foldM (λ ch '(n, b),
                      o ← int offset 10 ; Ok (<[o + Z.of_nat n := b]> ch))
                   changes (imap (λ n b, (n, b)) bs) ;
        Ok (Some ch)
    | [p1; p2; p3; p4] =>
        offset ← int p1 16 ;
        size ← int p2 16 ;
        rle_size ← int p3 16 ;
        value ← int p4 16 ;
        ch ← foldM (λ ch i,
                      if bool_decide (value > 0xFF)
                      then Raise (PatchValueError (Some line_number))
                      else Ok (<[offset + i := value]> ch))
                   changes (seqZ 0 rle_size) ;
        Ok (Some ch)
    | _ => Raise (PatchFormatError (Some line_number))
    end.

(** [for line_number, line in enumerate(f, 2): ...] *)
Fixpoint from_ipst_loop (line_number : Z) (f : list string)
    (changes : gmap Z Z) : result (gmap Z Z) :=
  match f with
  | [] => Ok changes
  | line :: f' =>
      r ← from_ipst_line line_number line changes ;
      match r with
      | None => Ok changes
      | Some changes' => from_ipst_loop (line_number + 1) f' changes'
      end
  end.

(** [Patch.from_ipst], on the lines the file yields. *)
Definition from_ipst (f : list string) : result Patch :=
  let f := List.filter ipst_keep f in
  match f with
  | [] => Raise StopIteration
  | header :: f' =>
      if bool_decide (rstrip header = "PATCH"%string) then
        changes ← from_ipst_loop 2 f' ∅ ; Ok (mkPatch changes)
      else Raise (PatchFormatError None)
  end.

(** ** Tables and indexes ([romlib/structures.py]) *)

Module Index.

Record t := mk { offset : Z; count : Z; stride : Z }.

(** [len(index)]: [len] refuses a negative [__len__]. *)
Definition len (self : t) : result Z :=
  if decide (count self < 0) then Raise ValueError else Ok (count self).

(** [Index.__getitem__] at an integer. *)
Definition getitem (self : t) (i : Z) : result Z :=
  if decide (i >= count self) then Raise IndexError
  else Ok (offset self + i * stride self).

End Index.

(** [l[i]] on a list: a negative index counts from the end. *)
Definition list_getitem (l : list Z) (i : Z) : result Z :=
  let n := Z.of_nat (length l) in
  let j := if decide (i < 0) then i + n else i in
  if decide (0 ≤ j < n) then
    match l !! Z.to_nat j with
    | Some x => Ok x
    | None => Raise IndexError
    end
  else Raise IndexError.

(** The index of a table: an [Index] or a list of offsets. *)
Inductive index : Type :=
  | IndexObj (ix : Index.t)
  | OffsetList (l : list Z).

(** [len(index)] and [index[i]] *)
Definition index_len (ix : index) : result Z :=
  match ix with
  | IndexObj ix => Index.len ix
  | OffsetList l => Ok (Z.of_nat (length l))
  end.

Definition index_getitem (ix : index) (i : Z) : result Z :=
  match ix with
  | IndexObj ix => Index.getitem ix i
  | OffsetList l => list_getitem l i
  end.

(** What [Structure.size] reads of a field. *)
Record FieldSpec := mkFieldSpec { fsize : option Z; funit : Z }.

(** [Structure.size]: [sum(field.size * field.unit for field in fields)];
    a field without a size cannot be multiplied. *)
Definition Structure_size (fields : list FieldSpec) : result Z :=
  foldM (λ acc f, match fsize f with
                  | Some s => Ok (acc + s * funit f)
                  | None => Raise TypeError
                  end) 0 fields.

Module Table.
Section table.

(** The bit views of [romlib.io] are not part of the sources: slicing a
    view and reading a typed attribute of a view are parameters. *)
Context {View Value : Type}.
Variable view_slice : View → Z → Z → result View.
Variable view_getattr : View → string → result Value.

(** [Structure.registry] *)
Variable registry : gmap string (list FieldSpec).

Record t := mk {
  view : View;
  typename : string;
  index_ : index;
  size : option Z;
  units : Z
}.

Inductive element : Type :=
  | StructElem (name : string) (v : View)
  | PrimElem (x : Value).

Definition _struct (self : t) : option (list FieldSpec) :=
  registry !! typename self.

(** [Table.__len__] *)
Definition len (self : t) : result Z := index_len (index_ self).

(** [Table._isz_bits]: [if self.size] holds for a size that is neither
    [None] nor zero. *)
Definition _isz_bits (self : t) : result Z :=
  match size self with
  | Some s =>
      if decide (s ≠ 0) then Ok (s * units self)
      else match _struct self with
           | Some fields => Structure_size fields
           | None =>
               match index_ self with
               | IndexObj ix => Ok (Index.stride ix * units self)
               | OffsetList _ => Raise ValueError
               end
           end
  | None =>
      match _struct self with
      | Some fields => Structure_size fields
      | None =>
          match index_ self with
          | IndexObj ix => Ok (Index.stride ix * units self)
          | OffsetList _ => Raise ValueError
          end
      end
  end.

(** [Table._subview] *)
Definition _subview (self : t) (i : Z) : result View :=
  o ← index_getitem (index_ self) i ;
  let start := o * units self in
  isz ← _isz_bits self ;
  view_slice (view self) start (start + isz).

(** [Table.__getitem__] at an integer. *)
Definition getitem (self : t) (i : Z) : result element :=
  n ← len self ;
  if decide (i >= n) then Raise IndexError
  else match _struct self with
       | Some _ => v ← _subview self i ; Ok (StructElem (typename self) v)
       | None =>
           v ← _subview self i ;
           x ← view_getattr v (typename self) ;
           Ok (PrimElem x)
       end.

End table.
End Table.

(** ** String fields ([romlib/types.py], [romlib/field.py]) *)

(** A text encoding: the codec registry is outside the sources. *)
Record codec := mkCodec {
  encode : string → result (list Z);
  decode : list Z → result string
}.

Fixpoint ascii_encode (s : string) : result (list Z) :=
  match s with
  | EmptyString => Ok []
  | String c s' =>
      if bool_decide (ord c < 128) then bs ← ascii_encode s' ; Ok (ord c :: bs)
      else Raise UnicodeError
  end.

Fixpoint ascii_decode (bs : list Z) : result string :=
  match bs with
  | [] => Ok EmptyString
  | b :: bs' =>
      if bool_decide (0 ≤ b < 128) then s ← ascii_decode bs' ; Ok (String (chr b) s)
      else Raise UnicodeError
  end.

Definition ascii_codec : codec := mkCodec ascii_encode ascii_decode.

(** Modelled from the spec: the byte setter of a bit view
    ([romlib.io.BitArrayView.bytes], not in the sources).  A write stays
    inside the view: bytes of the view's own length are stored, any other
    length is refused with a size error. *)
Definition view_set_bytes (view new : list Z) : result (list Z) :=
  if decide (length new = length view) then Ok new else Raise ValueError.

Module Field.

(** [Field._get_str]; [display] is the codec [self.display or 'ascii']
    names. *)
Definition _get_str (display : option codec) (bitview : list Z)
  : result string :=
  decode (default ascii_codec display) bitview.

(** [Field._set_str]: a [BytesIO] over the current bytes is overwritten
    from position 0 with the encoded value, and what it then holds is
    assigned to the view.  The result is the content of the view. *)
Definition _set_str (display : option codec) (bitview : list Z)
    (value : string) : result (list Z) :=
  current ← _get_str display bitview ;
  if decide (value = current) then Ok bitview
  else
    data ← encode (default ascii_codec display) value ;
    let content := data ++ drop (length data) bitview in
    view_set_bytes bitview content.

End Field.

Module StringField.

(** A value Python holds in a list. *)
Inductive pyval : Type :=
  | PyInt (n : Z)
  | PyBytes (b : list Z).

(** [bytes(l)] on a list: every element has to be an integer in
    [range(256)]. *)
Fixpoint bytes_of_list (l : list pyval) : result (list Z) :=
  match l with
  | [] => Ok []
  | PyInt n :: l' =>
      if decide (0 ≤ n < 256) then bs ← bytes_of_list l' ; Ok (n :: bs)
      else Raise ValueError
  | PyBytes _ :: _ => Raise TypeError
  end.

(** The setter of [String.string] in [romlib/field.py]; [size] is the
    field size in bits, [name] the attribute [self.name] when the field
    has one, and the result is the new value of [self.data].  The module
    imports [bitstring] only, so the name [BitArray] is unbound. *)
Definition set_string (display : codec) (size : option Z)
    (name : option string) (value : string) : result (list Z) :=
  data ← encode display value ;
  data ← match size with
         | Some sz =>
             let bytesize := sz `div` 8 in
             if decide (Z.of_nat (length data) > bytesize) then
               match name with
               | Some _ => Raise ValueError
               | None => Raise AttributeError
               end
             else if decide (Z.of_nat (length data) < bytesize) then
               padbyte ← encode display " " ;
               let padding :=
                 replicate (Z.to_nat (bytesize - Z.of_nat (length data)))
                           (PyBytes padbyte) in
               pad ← bytes_of_list padding ;
               Ok (data ++ pad)
             else Ok data
         | None => Ok data
         end ;
  Raise NameError.

End StringField.

(** ** Iterating and comparing indexes ([romlib/structures.py]) *)

(** Iterating an [Index], a [Sequence] without an [__iter__] of its own:
    the items [self[0]], [self[1]], ... up to the first [IndexError];
    any other exception of [__getitem__] goes through. *)
Equations Index_iter (self : Index.t) (i : Z) : result (list Z)
  by wf (Z.to_nat (Index.count self - i)) lt :=
Index_iter self i with inspect (Index.getitem self i) := {
  | exist _ (Ok v) _ => rest ← Index_iter self (i + 1) ; Ok (v :: rest)
  | exist _ (Raise IndexError) _ => Ok []
  | exist _ (Raise e) _ => Raise e }.
Next Obligation.
  match goal with H : Index.getitem _ _ = _ |- _ => revert H end.
  unfold Index.getitem. case_decide; [discriminate|]. intros _. lia.
Qed.

(** Iterating what a table has as its index. *)
Definition index_iter (ix : index) : result (list Z) :=
  match ix with
  | IndexObj ix => Index_iter ix 0
  | OffsetList l => Ok l
  end.

(** [Index.__eq__] *)
Definition Index_eq (self : Index.t) (other : index) : result bool :=
  n ← Index.len self ;
  m ← index_len other ;
  if decide (n ≠ m) then Ok false
  else
    xs ← Index_iter self 0 ;
    ys ← index_iter other ;
    Ok (forallb (λ '(a, b), bool_decide (a = b)) (zip xs ys)).

(** ** Defining structures ([romlib/structures.py], [romlib/types.py]) *)

(** A field as [Structure.define] and the lookups see it: its [id], its
    [name], and what [Structure.size] reads of it. *)
Record FieldDef := mkFieldDef {
  fid : string;
  fname : string;
  fspec : FieldSpec
}.

(** [Field.__post_init__]: [self.name = self.name or self.id]. *)
Definition Field_post_init (id : string) (name : option string)
    (spec : FieldSpec) : FieldDef :=
  mkFieldDef id
    (match name with
     | Some n => if decide (n = EmptyString) then id else n
     | None => id
     end) spec.

(** [Field.identifiers] *)
Definition identifiers (f : FieldDef) : list string := [fid f; fname f].

(** [itertools.combinations(l, 2)] *)
Fixpoint combinations2 {A} (l : list A) : list (A * A) :=
  match l with
  | [] => []
  | a :: l' => ((λ b, (a, b)) <$> l') ++ combinations2 l'
  end.

(** [Structure._fbid] and [Structure._fbnm]: the first field with the id,
    or with the name; [StopIteration] is turned into the error of the
    lookup. *)
Definition Structure_fbid (fields : list FieldDef) (key : string)
  : result FieldDef :=
  match List.find (λ f, bool_decide (fid f = key)) fields with
  | Some f => Ok f
  | None => Raise AttributeError
  end.

Definition Structure_fbnm (fields : list FieldDef) (key : string)
  : result FieldDef :=
  match List.find (λ f, bool_decide (fname f = key)) fields with
  | Some f => Ok f
  | None => Raise KeyError
  end.

(** [Structure.__init_subclass__]: the registry takes the new class, once
    per name. *)
Definition Structure_init_subclass (registry : gmap string (list FieldDef))
    (name : string) (fields : list FieldDef)
  : result (gmap string (list FieldDef)) :=
  if decide (is_Some (registry !! name)) then Raise ValueError
  else Ok (<[name := fields]> registry).

(** [Structure.define]; [hasattr] is [hasattr(cls, identifier)], and the
    result is the registry with the class [type(name, bases, attrs)]
    makes. *)
Definition Structure_define (hasattr : string → bool)
    (registry : gmap string (list FieldDef)) (name : string)
    (fields : list FieldDef) : result (gmap string (list FieldDef)) :=
  let fids := fid <$> fields in
  let names := fname <$> fields in
  _ ← foldM (λ (_ : ()) identifier,
               if hasattr identifier then Raise ValueError else Ok ())
            () (fids ++ names) ;
  _ ← foldM (λ (_ : ()) '(a, b),
               let dupes : gset string :=
                 list_to_set (identifiers a) ∩ list_to_set (identifiers b) in
               if decide (dupes ≠ ∅) then Raise ValueError else Ok ())
            () (combinations2 fields) ;
  Structure_init_subclass registry name fields.

Arguments from_blocks : simpl never.
Arguments set_block : simpl never.

(** ** Vocabulary of the statements *)

Definition is_byte (v : Z) : Prop := 0 ≤ v < 256.

Global Instance is_byte_dec (v : Z) : Decision (is_byte v).
Proof. unfold is_byte. apply _. Defined.

Definition key_lt {V} : relation (Z * V) := λ a b, a.1 < b.1.

(** One past the last offset a block covers. *)
Definition block_end (b : Z * list Z) : Z := b.1 + Z.of_nat (length b.2).

(** The second block starts after a gap behind the first. *)
Definition separated : relation (Z * list Z) := λ a b, block_end a < b.1.

(** The offset lies in the block. *)
Definition covers (b : Z * list Z) (k : Z) : Prop := b.1 ≤ k < block_end b.

(** Blocks in ascending order, none empty, pairwise apart: the maximal
    runs of consecutive offsets. *)
Definition maximal_runs (bs : list (Z * list Z)) : Prop :=
  Forall (λ b, b.2 ≠ [] ∧ Forall is_byte b.2) bs ∧ Sorted separated bs.

(** The loop invariant of [_blockify]: [m] is the part of the mapping
    consumed so far. *)
Definition blockify_inv (st : blockify_state) (m : gmap Z Z) : Prop :=
  match start st, offset st with
  | None, None => merged st = [] ∧ block st = [] ∧ m = ∅
  | Some s, Some o =>
      block st ≠ [] ∧ Forall is_byte (block st) ∧
      o + 1 = s + Z.of_nat (length (block st)) ∧
      Forall (λ b, block_end b < s) (merged st) ∧
      maximal_runs (merged st) ∧
      changes (from_blocks (merged st ++ [(s, block st)])) = m
  | _, _ => False
  end.

(** The offset is a position of the reference image. *)
Definition in_rom (rom : list Z) (o : Z) : Prop :=
  0 ≤ o < Z.of_nat (length rom).

Global Instance in_rom_dec (rom : list Z) (o : Z) : Decision (in_rom rom o).
Proof. unfold in_rom. apply _. Defined.

(** The byte of the reference image at an offset, when it has one. *)
Definition rom_byte (rom : list Z) (o : Z) : option Z :=
  if decide (0 ≤ o) then rom !! Z.to_nat o else None.

(** What the specification says of [filter]: it has a result, the result
    keeps exactly the entries that differ from the image, and filtering
    the result again gives the result. *)
Definition filter_spec (P : Patch) (rom : list Z) : Prop :=
  ∃ P', Patch_filter P rom = Ok P'
        ∧ (∀ o v, changes P' !! o = Some v
                  ↔ changes P !! o = Some v ∧ rom_byte rom o ≠ Some v)
        ∧ Patch_filter P' rom = Ok P'.

(** The block can be written as a binary record: the offset takes three
    bytes and the length two. *)
Definition ips_fits (b : Z * list Z) : Prop :=
  0 ≤ b.1 < 2 ^ 24 ∧ Z.of_nat (length b.2) ≤ 0xFFFF.

Global Instance ips_fits_dec (b : Z * list Z) : Decision (ips_fits b).
Proof. unfold ips_fits. apply _. Defined.

(** All bytes of the block are the same. *)
Definition uniform (d : list Z) : Prop := ∀ x y, x ∈ d → y ∈ d → x = y.

(** The two record forms of the binary format (section 6 of the
    specification): offset, two zero bytes, run length and value; or
    offset, length and the bytes. *)
Definition rle_record (o n v : Z) : list Z :=
  be_bytes 3 o ++ [0; 0] ++ be_bytes 2 n ++ [v].

Definition literal_record (o : Z) (d : list Z) : list Z :=
  be_bytes 3 o ++ be_bytes 2 (Z.of_nat (length d)) ++ d.

(** The two record lines of the text format: [OFFSET:0000:RUNLENGTH:VALUE]
    and [OFFSET:LENGTH:HEXBYTES]. *)
Definition rle_line (o n v : Z) : string :=
  format_X 6 o +:+ ":" +:+ "0000" +:+ ":" +:+ format_X 4 n +:+ ":"
  +:+ format_X 1 v.

Definition hex_pairs (d : list Z) : string :=
  foldr (λ b s, format_X 2 b +:+ s) EmptyString d.

Definition literal_line (o : Z) (d : list Z) : string :=
  format_X 6 o +:+ ":" +:+ format_X 4 (Z.of_nat (length d)) +:+ ":"
  +:+ hex_pairs d.

(** The record of a block, in the form the writers choose. *)
Definition ips_record (b : Z * list Z) : list Z :=
  if use_rle b.2 then rle_record b.1 (Z.of_nat (length b.2)) (default 0 (head b.2))
  else literal_record b.1 b.2.

Definition ipst_line (b : Z * list Z) : string :=
  if use_rle b.2 then rle_line b.1 (Z.of_nat (length b.2)) (default 0 (head b.2))
  else literal_line b.1 b.2.

(** The files the writers produce from the blocks they are given. *)
Definition ips_file (blocks : list (Z * list Z)) : list Z :=
  _ips_header ++ concat (ips_record <$> sorted blocks) ++ _ips_footer.

Definition ipst_file (blocks : list (Z * list Z)) : list string :=
  ["PATCH" +:+ newline]
  ++ ((λ b, ipst_line b +:+ newline) <$> sorted blocks)
  ++ ["EOF" +:+ newline].

(** The round trips of the specification, at one mapping: writing the
    patch to an empty file succeeds and reading the file gives the
    mapping back. *)
Definition ips_roundtrip (M : gmap Z Z) : Prop :=
  ∃ out, to_ips (mkPatch M) None [] = (out, Ok ())
         ∧ from_ips out = Ok (mkPatch M).

Definition ipst_roundtrip (M : gmap Z Z) : Prop :=
  ∃ out, to_ipst (mkPatch M) None [] = (out, Ok ())
         ∧ from_ipst out = Ok (mkPatch M).

(** The element size as the specification words it: the explicit size
    when one is supplied, else the size of the registered structure, else
    the stride of an arithmetic index. *)
Definition isz_spec {View : Type} (registry : gmap string (list FieldSpec))
    (self : @Table.t View) : result Z :=
  match Table.size self with
  | Some s => Ok (s * Table.units self)
  | None =>
      match registry !! Table.typename self with
      | Some fields => Structure_size fields
      | None =>
          match Table.index_ self with
          | IndexObj ix => Ok (Index.stride ix * Table.units self)
          | OffsetList _ => Raise ValueError
          end
      end
  end.

(** No usable explicit size: none given, or zero. *)
Definition no_size {View : Type} (self : @Table.t View) : Prop :=
  Table.size self = None ∨ Table.size self = Some 0.

(** Views without content, for tables whose views play no part. *)
Definition unit_slice (v : ()) (start stop : Z) : result () := Ok ().
Definition unit_getattr (v : ()) (name : string) : result () := Ok ().

(** The characters of the record lines of the text format: hexadecimal
    digits in upper case, the sign of a number, the colon between the
    fields. *)
Definition is_hex_char (c : ascii) : bool :=
  bool_decide (48 ≤ ord c ≤ 57) || bool_decide (65 ≤ ord c ≤ 70).

Definition is_field_char (c : ascii) : bool :=
  is_hex_char c || bool_decide (c = "-"%char).

Definition is_line_char (c : ascii) : bool :=
  is_field_char c || bool_decide (c = ":"%char).

Fixpoint string_forall (P : ascii → bool) (s : string) : bool :=
  match s with
  | EmptyString => true
  | String c s' => P c && string_forall P s'
  end.

(** The number of bytes of the record of a block in the binary format. *)
Definition ips_record_length (b : Z * list Z) : nat :=
  if use_rle b.2 then 8%nat else (5 + length b.2)%nat.

(** The items of an index: [count] offsets, [stride] apart. *)
Definition Index_items (ix : Index.t) : list Z :=
  (λ i, Index.offset ix + i * Index.stride ix) <$> seqZ 0 (Index.count ix).

(** Two fields share no identifier. *)
Definition distinct_fields : relation FieldDef := λ a b,
  ∀ x, x ∈ identifiers a → x ∉ identifiers b.

(** The bits a field takes when it has a size. *)
Definition field_bits (f : FieldSpec) : Z := default 0 (fsize f) * funit f.

(** [s[n:]] *)
Fixpoint string_drop (n : nat) (s : string) : string :=
  match n, s with
  | S n', String _ s' => string_drop n' s'
  | _, _ => s
  end.

(** What the binary writer has written of the record of a block that does
    not fit, when it raises: the offset when that fits, and behind it the
    two zero bytes of a run. *)
Definition ips_record_partial (b : Z * list Z) : list Z :=
  if decide (0 ≤ b.1 < 2 ^ 24)
  then be_bytes 3 b.1 ++ (if use_rle b.2 then [0; 0] else [])
  else [].

(** * Properties *)

(** ** Results *)

Lemma bind_Ok {A B} (r : result A) (k : A → result B) (b : B) :
  r ≫= k = Ok b ↔ ∃ a, r = Ok a ∧ k a = Ok b.
Proof.
  destruct r as [a|e]; simpl.
  - split; [eauto | intros (a' & [= ->] & H); exact H].
  - split; [discriminate | intros (a' & [=] & _)].
Qed.

Lemma foldM_cons {A S} (f : S → A → result S) (st : S) (x : A) (l : list A) :
  foldM f st (x :: l) = f st x ≫= λ st', foldM f st' l.
Proof. reflexivity. Qed.

(** ** Insertion-ordered dictionaries *)

Lemma dict_set_fresh {V} (k : Z) (v : V) (d : list (Z * V)) :
  k ∉ d.*1 → dict_set k v d = d ++ [(k, v)].
Proof.
  induction d as [|[k' v'] d IH]; simpl; [done|].
  intros Hk. apply not_elem_of_cons in Hk as [Hne Hk].
  destruct (decide (k' = k)); [congruence|]. by rewrite IH.
Qed.

(** ** Sorting *)

Global Instance key_le_trans {V} : Transitive (@key_le V).
Proof. intros a b c. unfold key_le. lia. Qed.

Global Instance key_le_total {V} : Total (@key_le V).
Proof. intros a b. unfold key_le. lia. Qed.

Lemma sorted_Permutation {V} (l : list (Z * V)) : sorted l ≡ₚ l.
Proof. apply merge_sort_Permutation. Qed.

Lemma StronglySorted_key_lt {V} (l : list (Z * V)) :
  StronglySorted key_le l → NoDup l.*1 → StronglySorted key_lt l.
Proof.
  induction 1 as [|a l Hl IH Ha]; intros Hnd; [constructor|].
  rewrite fmap_cons in Hnd. apply NoDup_cons in Hnd as [Hni Hnd].
  constructor; [by apply IH|].
  rewrite Forall_forall in Ha |- *. intros b Hb.
  specialize (Ha b Hb). unfold key_le in Ha. unfold key_lt.
  destruct (decide (a.1 = b.1)) as [Heq|]; [|lia].
  exfalso. apply Hni. rewrite Heq. apply list_elem_of_fmap. eauto.
Qed.

Lemma sorted_strict {V} (l : list (Z * V)) :
  NoDup l.*1 → StronglySorted key_lt (sorted l).
Proof.
  intros Hnd. apply StronglySorted_key_lt.
  - apply StronglySorted_merge_sort; apply _.
  - by rewrite (sorted_Permutation l).
Qed.

(** A list already in strictly ascending key order is its own sorting. *)
Lemma key_sorted_unique {V} (l1 l2 : list (Z * V)) :
  StronglySorted key_lt l1 → StronglySorted key_lt l2 → l1 ≡ₚ l2 → l1 = l2.
Proof.
  intros H1. revert l2.
  induction H1 as [|a l1 Hl1 IH Ha]; intros l2 H2 Hp.
  - by apply Permutation_nil_l in Hp.
  - destruct H2 as [|b l2 Hl2 Hb].
    + by apply Permutation_nil_r in Hp.
    + assert (a = b) as <-.
      { assert (a ∈ b :: l2) as Hab by (rewrite <- Hp; left).
        assert (b ∈ a :: l1) as Hba by (rewrite Hp; left).
        apply elem_of_cons in Hab as [?|Hab]; [done|].
        apply elem_of_cons in Hba as [?|Hba]; [done|].
        rewrite Forall_forall in Ha, Hb.
        specialize (Ha _ Hba). specialize (Hb _ Hab).
        unfold key_lt in *. lia. }
      f_equal. apply IH; [done|]. by apply (inj (cons a)).
Qed.

Lemma sorted_id {V} (l : list (Z * V)) :
  StronglySorted key_lt l → sorted l = l.
Proof.
  intros Hl. apply key_sorted_unique; [|done|apply sorted_Permutation].
  apply sorted_strict.
  clear -Hl. induction Hl as [|a l Hl IH Ha]; [constructor|].
  rewrite fmap_cons. apply NoDup_cons. split; [|done].
  intros Hin. apply list_elem_of_fmap in Hin as (b & Heq & Hb).
  rewrite Forall_forall in Ha. specialize (Ha b Hb). unfold key_lt in Ha. lia.
Qed.


(** ** Blocks *)

Lemma set_block_nil (ch : gmap Z Z) (s : Z) : set_block ch s [] = ch.
Proof. reflexivity. Qed.

Lemma set_block_snoc (ch : gmap Z Z) (s : Z) (b : list Z) (v : Z) :
  set_block ch s (b ++ [v])
  = <[s + Z.of_nat (length b) := v]> (set_block ch s b).
Proof.
  unfold set_block. rewrite imap_app, foldl_app. simpl.
  by rewrite Nat.add_0_r.
Qed.

Lemma from_blocks_snoc (bs : list (Z * list Z)) (s : Z) (b : list Z) :
  changes (from_blocks (bs ++ [(s, b)]))
  = set_block (changes (from_blocks bs)) s b.
Proof. unfold from_blocks. simpl. by rewrite foldl_app. Qed.

Lemma set_block_lookup (ch : gmap Z Z) (s : Z) (b : list Z) (k : Z) :
  set_block ch s b !! k
  = if decide (s ≤ k < s + Z.of_nat (length b))
    then b !! Z.to_nat (k - s) else ch !! k.
Proof.
  induction b as [|v b IH] using rev_ind.
  - rewrite set_block_nil. simpl. case_decide; [lia|done].
  - rewrite set_block_snoc, length_app. simpl.
    destruct (decide (k = s + Z.of_nat (length b))) as [->|Hne].
    + clear IH. rewrite lookup_insert_eq. rewrite decide_True by lia.
      replace (Z.to_nat _) with (length b) by lia.
      by rewrite lookup_app_r, Nat.sub_diag.
    + rewrite lookup_insert_ne by done. rewrite IH. clear IH.
      repeat case_decide; try lia; [|done].
      rewrite lookup_app_l by lia. done.
Qed.

Lemma separated_keys_fresh (bs : list (Z * list Z)) (s : Z) :
  Forall (λ b, block_end b < s) bs → s ∉ bs.*1.
Proof.
  intros Hall Hin. apply list_elem_of_fmap in Hin as (b & -> & Hb).
  rewrite Forall_forall in Hall. specialize (Hall b Hb).
  unfold block_end in Hall. lia.
Qed.

Lemma maximal_runs_snoc (bs : list (Z * list Z)) (s : Z) (b : list Z) :
  maximal_runs bs → Forall (λ b', block_end b' < s) bs →
  b ≠ [] → Forall is_byte b → maximal_runs (bs ++ [(s, b)]).
Proof.
  intros [Hne Hs] Hall Hb Hbytes. split.
  - apply Forall_app. split; [done|]. by repeat constructor.
  - apply Sorted_snoc; [done|].
    destruct bs as [|x bs _] using rev_ind; [constructor|].
    rewrite Forall_app, Forall_singleton in Hall. destruct Hall as [_ Hx].
    constructor. exact Hx.
Qed.

Lemma blockify_step_inv (st : blockify_state) (m : gmap Z Z) (k v : Z) :
  blockify_inv st m →
  (∀ o, offset st = Some o → o < k) →
  is_byte v →
  ∃ st', blockify_step st (k, v) = Ok st'
         ∧ blockify_inv st' (<[k := v]> m) ∧ offset st' = Some k.
Proof.
  unfold blockify_inv, blockify_step, bytearray_append.
  destruct st as [mg bl [s|] [o|]]; simpl; try done.
  - intros (Hne & Hby & Ho & Hall & Hruns & Hm) Hlt Hv.
    specialize (Hlt o eq_refl).
    destruct (decide (k = o + 1)) as [->|Hgap].
    + rewrite decide_True by done. simpl. eexists. split; [done|]. simpl.
      split; [|done]. split_and!; try done.
      * by destruct bl.
      * apply Forall_app. split; [done|]. by constructor.
      * rewrite length_app. simpl. lia.
      * change (changes (from_blocks (mg ++ [(s, bl ++ [v])])) = <[o + 1 := v]> m).
        change (changes (from_blocks (mg ++ [(s, bl)])) = m) in Hm.
        rewrite from_blocks_snoc, set_block_snoc.
        rewrite from_blocks_snoc in Hm. rewrite Hm. f_equal. lia.
    + rewrite decide_True by done. simpl. eexists. split; [done|]. simpl.
      split; [|done].
      rewrite dict_set_fresh by by apply separated_keys_fresh.
      assert (Forall (λ b, block_end b < k) (mg ++ [(s, bl)])) as Hall'.
      { apply Forall_app. split.
        - eapply Forall_impl; [exact Hall|]. simpl. intros b Hb. lia.
        - constructor; [|constructor]. unfold block_end. simpl. lia. }
      split_and!; try done.
      * by apply Forall_singleton.
      * by apply maximal_runs_snoc.
      * change (changes (from_blocks ((mg ++ [(s, bl)]) ++ [(k, [] ++ [v])]))
                = <[k := v]> m).
        change (changes (from_blocks (mg ++ [(s, bl)])) = m) in Hm.
        rewrite from_blocks_snoc, Hm.
        rewrite set_block_snoc, set_block_nil. simpl. f_equal. lia.
  - intros (-> & -> & ->) _ Hv. rewrite decide_True by done.
    simpl. eexists. split; [done|]. simpl. split; [|done].
    split_and!; try done.
    + by apply Forall_singleton.
    + change [v] with ([] ++ [v]).
      rewrite set_block_snoc, set_block_nil. simpl. f_equal. lia.
Qed.

Lemma blockify_fold_inv (l : list (Z * Z)) (st : blockify_state)
    (m : gmap Z Z) :
  StronglySorted key_lt l →
  Forall (λ kv, is_byte kv.2) l →
  blockify_inv st m →
  (∀ o, offset st = Some o → Forall (λ kv, o < kv.1) l) →
  ∃ st', foldM blockify_step st l = Ok st'
         ∧ blockify_inv st' (foldl (λ m kv, <[kv.1 := kv.2]> m) m l).
Proof.
  intros Hs. revert st m.
  induction Hs as [|[k v] l Hs IH Hk]; intros st m Hb Hinv Hoff.
  - exists st. by split.
  - apply Forall_cons in Hb as [Hv Hb].
    destruct (blockify_step_inv st m k v) as (st1 & Hstep & Hinv1 & Hoff1);
      [done| |done|].
    { intros o Ho. specialize (Hoff o Ho).
      by apply Forall_cons in Hoff as [? _]. }
    destruct (IH st1 (<[k := v]> m)) as (st' & Hfold & Hinv'); [done..| |].
    { intros o Ho. rewrite Hoff1 in Ho. injection Ho as <-. exact Hk. }
    exists st'. split; [|done].
    rewrite foldM_cons, Hstep. exact Hfold.
Qed.

(** Inserting the items of a dictionary one by one rebuilds it. *)
Lemma foldl_insert_items (l : list (Z * Z)) (M : gmap Z Z) :
  l ≡ₚ map_to_list M →
  foldl (λ m kv, <[kv.1 := kv.2]> m) ∅ l = M.
Proof.
  intros Hp.
  assert (NoDup l.*1) as Hnd.
  { rewrite Hp. apply NoDup_fst_map_to_list. }
  rewrite <- (list_to_map_to_list M).
  rewrite <- (list_to_map_proper l (map_to_list M) Hnd Hp).
  clear Hp. induction l as [|[k v] l IH] using rev_ind; [done|].
  rewrite foldl_snoc. simpl.
  rewrite fmap_app in Hnd. apply NoDup_app in Hnd as (Hnd & Hk & _).
  rewrite list_to_map_snoc.
  - by rewrite IH.
  - intros Hin. apply (Hk k Hin). simpl. left.
Qed.

Lemma blockify_finish_inv (st : blockify_state) (m : gmap Z Z) :
  blockify_inv st m →
  changes (from_blocks (blockify_finish st)) = m
  ∧ maximal_runs (blockify_finish st).
Proof.
  unfold blockify_inv, blockify_finish.
  destruct st as [mg bl [s|] [o|]]; simpl; try done.
  - intros (Hne & Hby & Ho & Hall & Hruns & Hm).
    rewrite dict_set_fresh by by apply separated_keys_fresh.
    split; [done|]. by apply maximal_runs_snoc.
  - intros (-> & -> & ->). split; [done|]. split; constructor.
Qed.

Lemma blockify_total (M : gmap Z Z) :
  map_Forall (λ _ v, is_byte v) M →
  ∃ bs, _blockify M = Ok bs
        ∧ changes (from_blocks bs) = M ∧ maximal_runs bs.
Proof.
  intros HM. unfold _blockify.
  destruct (blockify_fold_inv (sorted (map_to_list M))
              (mkBlockify [] [] None None) ∅) as (st' & Hfold & Hinv).
  - apply sorted_strict, NoDup_fst_map_to_list.
  - rewrite (sorted_Permutation (map_to_list M)).
    apply Forall_forall. intros [k v] Hkv. simpl.
    apply elem_of_map_to_list in Hkv. exact (HM k v Hkv).
  - done.
  - intros o [=].
  - rewrite (foldl_insert_items _ M) in Hinv by apply sorted_Permutation.
    apply blockify_finish_inv in Hinv as [Hch Hruns].
    exists (blockify_finish st'). rewrite Hfold. by simpl.
Qed.


Global Instance separated_trans : Transitive separated.
Proof. intros a b c. unfold separated, block_end. lia. Qed.

Lemma StronglySorted_trichotomy {A} (R : relation A) (l : list A) (a b : A) :
  StronglySorted R l → a ∈ l → b ∈ l → a = b ∨ R a b ∨ R b a.
Proof.
  induction 1 as [|x l Hl IH Hx]; intros Ha Hb.
  - by apply elem_of_nil in Ha.
  - rewrite Forall_forall in Hx.
    apply elem_of_cons in Ha as [->|Ha]; apply elem_of_cons in Hb as [->|Hb];
      auto.
Qed.

(** The offsets a list of blocks writes are the offsets its blocks cover. *)
Lemma from_blocks_is_Some (bs : list (Z * list Z)) (k : Z) :
  is_Some (changes (from_blocks bs) !! k) ↔ ∃ b, b ∈ bs ∧ covers b k.
Proof.
  induction bs as [|[s d] bs IH] using rev_ind.
  - split; [intros [x Hk]; destruct (lookup_empty_Some (M:=gmap Z) k x Hk)|].
    intros (b & Hb & _). by apply elem_of_nil in Hb.
  - rewrite from_blocks_snoc, set_block_lookup. case_decide as Hk.
    + split; [|intros _; apply lookup_lt_is_Some; lia].
      intros _. exists (s, d). split; [apply elem_of_app; right; left|done].
    + rewrite IH. split; intros (b & Hb & Hc).
      * exists b. split; [|done]. apply elem_of_app. by left.
      * apply elem_of_app in Hb as [Hb|Hb]; [by exists b|].
        apply list_elem_of_singleton in Hb as ->. by destruct Hk.
Qed.

(** Two offsets of the mapping lie in one block exactly when no offset
    between them is missing. *)
Lemma maximal_runs_same_block (bs : list (Z * list Z)) (k1 k2 : Z) :
  maximal_runs bs → k1 ≤ k2 →
  is_Some (changes (from_blocks bs) !! k1) →
  is_Some (changes (from_blocks bs) !! k2) →
  (∃ b, b ∈ bs ∧ covers b k1 ∧ covers b k2)
  ↔ (∀ k, k1 ≤ k ≤ k2 → is_Some (changes (from_blocks bs) !! k)).
Proof.
  intros [_ Hs] Hle H1 H2. apply Sorted_StronglySorted in Hs; [|apply _].
  split.
  - intros (b & Hb & Hc1 & Hc2) k Hk. apply from_blocks_is_Some.
    exists b. split; [done|]. unfold covers in *. lia.
  - intros Hall.
    apply from_blocks_is_Some in H1 as (b1 & Hb1 & Hc1).
    apply from_blocks_is_Some in H2 as (b2 & Hb2 & Hc2).
    destruct (StronglySorted_trichotomy _ _ b1 b2 Hs Hb1 Hb2)
      as [->|[Hsep|Hsep]].
    + by exists b2.
    + exfalso. unfold covers, separated in *.
      destruct (Hall (block_end b1)) as [x Hx]; [lia|].
      assert (is_Some (changes (from_blocks bs) !! block_end b1)) as Hsome
        by by exists x.
      apply from_blocks_is_Some in Hsome as (b3 & Hb3 & Hc3).
      unfold covers in Hc3.
      destruct (StronglySorted_trichotomy _ _ b1 b3 Hs Hb1 Hb3)
        as [->|[Hsep'|Hsep']]; unfold separated, block_end in *; lia.
    + exfalso. unfold covers, separated, block_end in *. lia.
Qed.

(** C8: for every offset-to-byte mapping [M], [_blockify] succeeds and
    [from_blocks] of its result has exactly the changes [M]; the blocks
    are the maximal runs of consecutive offsets: ascending, non-empty,
    apart from each other, and two offsets of [M] share a block exactly
    when every offset between them is in [M]. *)
Theorem blockify_from_blocks (M : gmap Z Z) :
  map_Forall (λ _ v, is_byte v) M →
  ∃ bs, _blockify M = Ok bs
        ∧ changes (from_blocks bs) = M
        ∧ maximal_runs bs
        ∧ ∀ k1 k2, k1 ≤ k2 → is_Some (M !! k1) → is_Some (M !! k2) →
            ((∃ b, b ∈ bs ∧ covers b k1 ∧ covers b k2)
             ↔ (∀ k, k1 ≤ k ≤ k2 → is_Some (M !! k))).
Proof.
  intros HM. destruct (blockify_total M HM) as (bs & Hbs & Hch & Hruns).
  exists bs. split_and!; try done.
  intros k1 k2 Hle H1 H2. rewrite <- Hch in *.
  by apply maximal_runs_same_block.
Qed.

Lemma blockify_from_blocks_witness :
  let M : gmap Z Z := list_to_map [(10, 0xAA); (11, 0xBB); (13, 0xCC)] in
  map_Forall (λ _ v, is_byte v) M
  ∧ _blockify M = Ok [(10, [0xAA; 0xBB]); (13, [0xCC])]
  ∧ changes (from_blocks [(10, [0xAA; 0xBB]); (13, [0xCC])]) = M.
Proof.
  intros M.
  assert (map_Forall (λ _ v, is_byte v) M) as HM.
  { apply (bool_decide_unpack _). vm_compute. exact I. }
  split; [exact HM|].
  destruct (blockify_from_blocks M HM) as (bs & Hbs & Hch & _).
  assert (_blockify M = Ok [(10, [0xAA; 0xBB]); (13, [0xCC])]) as Heq
    by (vm_compute; reflexivity).
  split; [exact Heq|].
  rewrite Heq in Hbs. injection Hbs as <-. exact Hch.
Defined.

(** ** Filtering against a reference image *)

Lemma getbyte_in_rom (rom : list Z) (o : Z) :
  in_rom rom o → ∃ b, getbyte rom o = Ok b ∧ rom_byte rom o = Some b.
Proof.
  unfold in_rom, getbyte, rom_byte. intros Ho.
  rewrite decide_False by lia. rewrite decide_True by lia.
  destruct (lookup_lt_is_Some_2 rom (Z.to_nat o)) as [b Hb]; [lia|].
  rewrite Hb. by exists b.
Qed.

Lemma getbyte_outside (rom : list Z) (o : Z) :
  ¬ in_rom rom o → ∃ e, getbyte rom o = Raise e.
Proof.
  unfold in_rom, getbyte. intros Ho.
  destruct (decide (o < 0)); [by eexists|].
  rewrite lookup_ge_None_2 by lia. by eexists.
Qed.

Lemma filter_step_eq (rom : list Z) (acc : gmap Z Z) (k v : Z) :
  filter_step rom acc (k, v)
  = getbyte rom k ≫= λ b,
      Ok (if decide (v ≠ b) then <[k := v]> acc else acc).
Proof. reflexivity. Qed.

Lemma filter_fold_lookup (rom : list Z) (l : list (Z * Z)) (acc : gmap Z Z) :
  NoDup l.*1 → Forall (λ kv, in_rom rom kv.1) l →
  ∃ R, foldM (filter_step rom) acc l = Ok R
       ∧ ∀ o, R !! o
              = match (list_to_map l : gmap Z Z) !! o with
                | Some v => if decide (rom_byte rom o ≠ Some v)
                            then Some v else acc !! o
                | None => acc !! o
                end.
Proof.
  revert acc. induction l as [|[k v] l IH]; intros acc Hnd Hin.
  - exists acc. split; [done|]. intros o. simpl. by rewrite lookup_empty.
  - rewrite fmap_cons in Hnd. apply NoDup_cons in Hnd as [Hk Hnd].
    apply Forall_cons in Hin as [Hkin Hin]. simpl in Hkin.
    destruct (getbyte_in_rom rom k Hkin) as (b & Hb & Hrb).
    rewrite foldM_cons, filter_step_eq, Hb. simpl.
    destruct (IH (if decide (v ≠ b) then <[k:=v]> acc else acc) Hnd Hin)
      as (R & HR & Hlook).
    exists R. split; [exact HR|]. intros o. rewrite Hlook.
    destruct (decide (o = k)) as [->|Hne].
    + rewrite lookup_insert_eq.
      rewrite (not_elem_of_list_to_map_1 _ k Hk). rewrite Hrb.
      destruct (decide (v ≠ b)) as [Hvb|Hvb].
      * rewrite lookup_insert_eq. rewrite decide_True; [done|congruence].
      * rewrite decide_False; [done|]. intros Hn. apply Hvb. congruence.
    + rewrite lookup_insert_ne by done.
      assert ((if decide (v ≠ b) then <[k:=v]> acc else acc) !! o = acc !! o)
        as -> by (case_decide; [by rewrite lookup_insert_ne|done]).
      done.
Qed.

Lemma filter_fold_raises (rom : list Z) (l : list (Z * Z)) (acc : gmap Z Z) :
  Exists (λ kv, ¬ in_rom rom kv.1) l →
  ∃ e, foldM (filter_step rom) acc l = Raise e.
Proof.
  revert acc. induction l as [|[k v] l IH]; intros acc Hex.
  - by apply Exists_nil in Hex.
  - rewrite foldM_cons, filter_step_eq.
    destruct (decide (in_rom rom k)) as [Hk|Hk].
    + destruct (getbyte_in_rom rom k Hk) as (b & -> & _). simpl.
      apply IH. apply Exists_cons in Hex as [Hex|Hex]; [done|exact Hex].
    + destruct (getbyte_outside rom k Hk) as [e ->]. by exists e.
Qed.

Lemma Patch_filter_in_rom (P : Patch) (rom : list Z) :
  map_Forall (λ o _, in_rom rom o) (changes P) →
  ∃ P', Patch_filter P rom = Ok P'
        ∧ ∀ o, changes P' !! o
               = match changes P !! o with
                 | Some v => if decide (rom_byte rom o ≠ Some v)
                             then Some v else None
                 | None => None
                 end.
Proof.
  intros Hin. unfold Patch_filter.
  destruct (filter_fold_lookup rom (map_to_list (changes P)) ∅)
    as (R & HR & Hlook).
  - apply NoDup_fst_map_to_list.
  - apply Forall_forall. intros [o v] Hov. simpl.
    apply elem_of_map_to_list in Hov. exact (Hin o v Hov).
  - exists (mkPatch R). rewrite HR. split; [done|]. intros o. simpl.
    rewrite Hlook, list_to_map_to_list, lookup_empty. done.
Qed.

Lemma Patch_filter_outside (P : Patch) (rom : list Z) :
  ¬ map_Forall (λ o _, in_rom rom o) (changes P) →
  ∃ e, Patch_filter P rom = Raise e.
Proof.
  intros Hout. unfold Patch_filter.
  destruct (filter_fold_raises rom (map_to_list (changes P)) ∅) as [e He].
  - apply not_Forall_Exists; [intros x; apply _|].
    intros Hall. apply Hout. intros o v Hov.
    rewrite Forall_forall in Hall.
    apply elem_of_map_to_list in Hov. exact (Hall _ Hov).
  - exists e. by rewrite He.
Qed.

(** C3, as the code has it: when every offset of the patch is a position
    of the reference image, [filter] succeeds, keeps exactly the entries
    whose value differs from the byte of the image and changes none of
    them, and filtering the result again gives the same result; when some
    offset is outside the image, [filter] raises instead. *)
Theorem Patch_filter_spec (P : Patch) (rom : list Z) :
  (map_Forall (λ o _, in_rom rom o) (changes P) → filter_spec P rom)
  ∧ (¬ map_Forall (λ o _, in_rom rom o) (changes P) →
     ∃ e, Patch_filter P rom = Raise e).
Proof.
  split; [|apply Patch_filter_outside].
  intros Hin. destruct (Patch_filter_in_rom P rom Hin) as (P' & HP' & Hlook).
  assert (∀ o v, changes P' !! o = Some v
                 ↔ changes P !! o = Some v ∧ rom_byte rom o ≠ Some v) as Hiff.
  { intros o v. rewrite Hlook.
    destruct (changes P !! o) as [w|]; [|split; [done|intros [[=] _]]].
    case_decide as Hd; split.
    - by intros [= ->].
    - by intros [[= ->] _].
    - done.
    - by intros [[= ->] Hne]. }
  exists P'. split_and!; [done..|].
  destruct (Patch_filter_in_rom P' rom) as (P'' & HP'' & Hlook').
  { intros o v Hov. apply Hiff in Hov as [Hov _]. exact (Hin o v Hov). }
  rewrite HP''. f_equal. destruct P' as [m'], P'' as [m'']. f_equal.
  simpl in *. apply map_eq. intros o. rewrite Hlook'.
  destruct (m' !! o) as [v|] eqn:Hv; [|done].
  apply Hiff in Hv as [_ Hv]. by rewrite decide_True.
Qed.

Lemma Patch_filter_spec_witness :
  let P := mkPatch (list_to_map [(0, 7); (1, 8); (2, 9)]) in
  let rom := [7; 0; 9] in
  let Q := mkPatch {[5 := 0]} in
  (map_Forall (λ o _, in_rom rom o) (changes P) ∧ filter_spec P rom)
  ∧ (¬ map_Forall (λ o _, in_rom [] o) (changes Q)
     ∧ ∃ e, Patch_filter Q [] = Raise e).
Proof.
  intros P rom Q.
  assert (map_Forall (λ o _, in_rom rom o) (changes P)) as Hin.
  { apply (bool_decide_unpack _). vm_compute. exact I. }
  assert (¬ map_Forall (λ o _, in_rom [] o) (changes Q)) as Hout.
  { intros H. specialize (H 5 0 (lookup_singleton_eq 5 0)).
    unfold in_rom in H. simpl in H. lia. }
  split.
  - split; [exact Hin|]. exact (proj1 (Patch_filter_spec P rom) Hin).
  - split; [exact Hout|]. exact (proj2 (Patch_filter_spec Q []) Hout).
Defined.

(** C3 fails as stated: an entry past the end of the image is not kept,
    [filter] raises. *)
Lemma filter_outside_image :
  Patch_filter (mkPatch {[5 := 0]}) [] = Raise IndexError
  ∧ ¬ filter_spec (mkPatch {[5 := 0]}) [].
Proof.
  assert (Patch_filter (mkPatch {[5 := 0]}) [] = Raise IndexError) as H
    by (vm_compute; reflexivity).
  split; [exact H|]. intros (P' & HP' & _). rewrite H in HP'. discriminate.
Qed.

(** ** Patch objects and the dictionary they are built from *)

Lemma new_loc_fresh (σ : store) : σ !! new_loc σ = None.
Proof. apply not_elem_of_dom. unfold new_loc. apply is_fresh. Qed.

Lemma new_loc_ne (σ : store) (l : positive) (X : gmap Z Z) :
  σ !! l = Some X → new_loc σ ≠ l.
Proof. intros Hl Heq. rewrite <- Heq, new_loc_fresh in Hl. discriminate. Qed.

(** Mutating one dictionary leaves the others as they are. *)
Lemma dict_setitem_frame (σ : store) (d l : positive) (k v : Z) :
  d ≠ l → dict_setitem σ d k v !! l = σ !! l.
Proof. intros Hne. unfold dict_setitem. by rewrite lookup_alter_ne. Qed.

Lemma dict_delitem_frame (σ : store) (d l : positive) (k : Z) :
  d ≠ l → dict_delitem σ d k !! l = σ !! l.
Proof. intros Hne. unfold dict_delitem. by rewrite lookup_alter_ne. Qed.

(** [filter] rebinds [self.changes]: every dictionary of the store keeps
    its items. *)
Lemma PatchObj_filter_frame (σ : store) (p : PatchObj) (rom : list Z)
    (l : positive) (X : gmap Z Z) :
  σ !! l = Some X → (PatchObj_filter σ p rom).1 !! l = Some X.
Proof.
  intros Hl. unfold PatchObj_filter.
  destruct (σ !! changes_loc p) as [items|]; [|done].
  destruct (Patch_filter (mkPatch items) rom) as [q|e]; [|done].
  simpl. rewrite lookup_insert_ne; [done|]. by eapply new_loc_ne.
Qed.

Lemma PatchObj_filter_eq (σ : store) (p : PatchObj) (rom : list Z)
    (items : gmap Z Z) :
  σ !! changes_loc p = Some items →
  PatchObj_filter σ p rom
  = match Patch_filter (mkPatch items) rom with
    | Ok q => (<[new_loc σ := changes q]> σ, Ok (mkPatchObj (new_loc σ)))
    | Raise e => (σ, Raise e)
    end.
Proof. intros H. unfold PatchObj_filter. by rewrite H. Qed.

(** C10: [Patch(D)] copies the dictionary.  The dictionary [D] keeps its
    items, whatever the outcome; the patch holds a new dictionary, whose
    items are those of [D], filtered when a reference image is given;
    editing or filtering the patch's dictionary leaves [D] as it is, and
    editing [D] leaves the patch's dictionary as it is. *)
Theorem PatchObj_init_copies (σ : store) (data : positive) (D : gmap Z Z)
    (rom : option (list Z)) :
  σ !! data = Some D →
  ∃ σ' r, PatchObj_init σ data rom = (σ', r)
    ∧ σ' !! data = Some D
    ∧ match r with
      | Ok p =>
          changes_loc p ≠ data ∧ σ !! changes_loc p = None
          ∧ ∃ stored, σ' !! changes_loc p = Some stored
              ∧ Patch_init D rom = Ok (mkPatch stored)
              ∧ (∀ k v, dict_setitem σ' (changes_loc p) k v !! data = Some D)
              ∧ (∀ k, dict_delitem σ' (changes_loc p) k !! data = Some D)
              ∧ (∀ rom', (PatchObj_filter σ' p rom').1 !! data = Some D)
              ∧ (∀ k v, dict_setitem σ' data k v !! changes_loc p
                        = Some stored)
              ∧ (∀ k, dict_delitem σ' data k !! changes_loc p = Some stored)
      | Raise e => Patch_init D rom = Raise e
      end.
Proof.
  intros HD. unfold PatchObj_init, dict_copy. rewrite HD.
  pose proof (new_loc_ne σ data D HD) as Hl.
  pose proof (new_loc_fresh σ) as Hfresh.
  set (l := new_loc σ) in *. set (σ1 := <[l := D]> σ).
  assert (σ1 !! data = Some D) as HD1
    by (unfold σ1; by rewrite lookup_insert_ne).
  assert (σ1 !! l = Some D) as Hl1 by (unfold σ1; by rewrite lookup_insert_eq).
  destruct rom as [r|].
  - rewrite (PatchObj_filter_eq σ1 (mkPatchObj l) r D Hl1). simpl Patch_init.
    destruct (Patch_filter (mkPatch D) r) as [[stored]|e] eqn:Hf.
    + simpl changes.
      pose proof (new_loc_ne σ1 data D HD1) as Hl2.
      pose proof (new_loc_ne σ1 l D Hl1) as Hl2'.
      pose proof (new_loc_fresh σ1) as Hfresh2.
      set (l2 := new_loc σ1) in *.
      assert (<[l2 := stored]> σ1 !! data = Some D) as HD2
        by by rewrite lookup_insert_ne.
      assert (<[l2 := stored]> σ1 !! l2 = Some stored) as Hs2
        by by rewrite lookup_insert_eq.
      eexists _, _. split; [reflexivity|]. split; [exact HD2|].
      simpl changes_loc. split_and!; [done| |].
      { unfold σ1 in Hfresh2. by rewrite lookup_insert_ne in Hfresh2. }
      exists stored. split_and!; try done.
      * intros k v. by rewrite dict_setitem_frame.
      * intros k. by rewrite dict_delitem_frame.
      * intros rom'. by apply PatchObj_filter_frame.
      * intros k v. by rewrite dict_setitem_frame.
      * intros k. by rewrite dict_delitem_frame.
    + eexists _, _. split; [reflexivity|]. by split.
  - eexists _, _. split; [reflexivity|]. split; [exact HD1|].
    simpl. split_and!; [done..|].
    exists D. split_and!; try done.
    + intros k v. by rewrite dict_setitem_frame.
    + intros k. by rewrite dict_delitem_frame.
    + intros rom'. by apply PatchObj_filter_frame.
    + intros k v. by rewrite dict_setitem_frame.
    + intros k. by rewrite dict_delitem_frame.
Qed.

Lemma PatchObj_init_copies_witness :
  let D : gmap Z Z := list_to_map [(0, 7); (1, 8)] in
  let σ : store := {[ 1%positive := D ]} in
  σ !! 1%positive = Some D
  ∧ ∃ σ' r, PatchObj_init σ 1%positive (Some [7; 0]) = (σ', r)
            ∧ σ' !! 1%positive = Some D.
Proof.
  intros D σ.
  assert (σ !! 1%positive = Some D) as HD by apply lookup_singleton_eq.
  split; [exact HD|].
  destruct (PatchObj_init_copies σ 1%positive D (Some [7; 0]) HD)
    as (σ' & r & Hinit & HD' & _).
  by exists σ', r.
Defined.

(** ** Integers as bytes *)

Lemma length_be_bytes (len : nat) (n : Z) : length (be_bytes len n) = len.
Proof.
  revert n. induction len as [|len IH]; intros n; simpl; [done|].
  rewrite length_app, IH. simpl. lia.
Qed.

Lemma from_bytes_snoc (b : list Z) (x : Z) :
  from_bytes (b ++ [x]) = from_bytes b * 256 + x.
Proof. unfold from_bytes. by rewrite foldl_snoc. Qed.

Lemma from_bytes_be_bytes (len : nat) (n : Z) :
  0 ≤ n < 256 ^ Z.of_nat len → from_bytes (be_bytes len n) = n.
Proof.
  revert n. induction len as [|len IH]; intros n Hn.
  - simpl in *. unfold from_bytes. simpl. lia.
  - simpl. rewrite from_bytes_snoc, IH.
    + pose proof (Z.div_mod n 256). lia.
    + rewrite Nat2Z.inj_succ, Z.pow_succ_r in Hn by lia.
      split; [apply Z.div_pos; lia|].
      apply Z.div_lt_upper_bound; lia.
Qed.

Lemma to_bytes_fits (n : Z) (len : nat) :
  0 ≤ n < 256 ^ Z.of_nat len → to_bytes n len = Ok (be_bytes len n).
Proof. intros Hn. unfold to_bytes. by rewrite decide_True. Qed.

Lemma to_bytes_byte (b : Z) : is_byte b → to_bytes b 1 = Ok [b].
Proof.
  intros Hb. unfold is_byte in Hb. rewrite to_bytes_fits by (simpl; lia).
  simpl. f_equal. f_equal. apply Z.mod_small. lia.
Qed.

(** ** The choice between the record forms *)

Lemma use_rle_spec (d : list Z) :
  use_rle d = true ↔ 3 < Z.of_nat (length d) ∧ uniform d.
Proof.
  unfold use_rle, uniform.
  rewrite andb_true_iff, !bool_decide_eq_true. split.
  - intros [Hlen Hsz]. split; [done|].
    apply size_1_elem_of in Hsz as [v Hv]. intros x y Hx Hy.
    assert (x ∈ ({[v]} : gset Z)) as Hx'
      by (rewrite <- Hv; by apply elem_of_list_to_set).
    assert (y ∈ ({[v]} : gset Z)) as Hy'
      by (rewrite <- Hv; by apply elem_of_list_to_set).
    apply elem_of_singleton in Hx', Hy'. congruence.
  - intros [Hlen Hall]. split; [done|].
    destruct d as [|v d]; [simpl in Hlen; lia|].
    assert ((list_to_set (v :: d) : gset Z) = {[v]}) as ->.
    { apply set_eq. intros x. rewrite elem_of_list_to_set, elem_of_singleton.
      split; [|intros ->; left].
      intros Hx. apply (Hall x v Hx). left. }
    apply size_singleton.
Qed.

Lemma uniform_replicate (d : list Z) (v : Z) :
  uniform d → head d = Some v → d = replicate (length d) v.
Proof.
  intros Hall Hv. destruct d as [|w d]; [done|]. simpl in Hv.
  injection Hv as ->. symmetry. apply replicate_as_elem_of.
  split; [done|]. intros x Hx. apply (Hall x v Hx). left.
Qed.

Lemma io_bind_write {T A} (data : list T) (k : () → io T A) (f : list T) :
  (write data ≫= k) f = k () (f ++ data).
Proof. reflexivity. Qed.

Lemma io_bind_lift_Ok {T A B} (a : A) (k : A → io T B) (f : list T) :
  (lift (Ok a) ≫= k) f = k a f.
Proof. reflexivity. Qed.

Lemma to_ips_record_fits (b : Z * list Z) (f : list Z) :
  ips_fits b → to_ips_record b f = (f ++ ips_record b, Ok ()).
Proof.
  destruct b as [o d]. unfold ips_fits, to_ips_record, ips_record. simpl.
  intros [Ho Hd].
  destruct (use_rle d) eqn:Hrle.
  - rewrite (to_bytes_fits o 3) by (simpl; lia).
    rewrite io_bind_lift_Ok, !io_bind_write.
    rewrite (to_bytes_fits _ 2) by (simpl; lia).
    rewrite io_bind_lift_Ok, io_bind_write. unfold write, rle_record.
    rewrite <- !(assoc_L (++)). do 5 f_equal.
    apply use_rle_spec in Hrle as [Hlen _].
    destruct d; [simpl in Hlen; lia|]. simpl. by rewrite take_0.
  - rewrite (to_bytes_fits o 3) by (simpl; lia).
    rewrite io_bind_lift_Ok, !io_bind_write.
    rewrite (to_bytes_fits _ 2) by (simpl; lia).
    rewrite io_bind_lift_Ok, io_bind_write. unfold write, literal_record.
    by rewrite <- !(assoc_L (++)).
Qed.

Lemma to_ipst_record_line (b : Z * list Z) (f : list string) :
  to_ipst_record b f = (f ++ [ipst_line b +:+ newline], Ok ()).
Proof.
  destruct b as [o d]. unfold to_ipst_record, ipst_line. simpl.
  destruct (use_rle d) eqn:Hrle.
  - apply use_rle_spec in Hrle as [Hlen _].
    destruct d as [|v d]; [simpl in Hlen; lia|]. reflexivity.
  - reflexivity.
Qed.

(** C4: a block longer than 3 bytes whose bytes are all the same is
    written as an RLE record, by the text writer and, when the format can
    hold the block, by the binary writer; every other block, a block of 3
    equal bytes among them, is written as a literal record. *)
Theorem rle_threshold (o : Z) (d : list Z) (f : list Z) (ft : list string) :
  (3 < Z.of_nat (length d) ∧ uniform d →
   ∃ v, head d = Some v
        ∧ to_ipst_record (o, d) ft
          = (ft ++ [rle_line o (Z.of_nat (length d)) v +:+ newline], Ok ())
        ∧ (ips_fits (o, d) →
           to_ips_record (o, d) f
           = (f ++ rle_record o (Z.of_nat (length d)) v, Ok ())))
  ∧ (¬ (3 < Z.of_nat (length d) ∧ uniform d) →
     to_ipst_record (o, d) ft = (ft ++ [literal_line o d +:+ newline], Ok ())
     ∧ (ips_fits (o, d) →
        to_ips_record (o, d) f = (f ++ literal_record o d, Ok ()))).
Proof.
  split; intros Hrle.
  - assert (use_rle d = true) as Hu by by apply use_rle_spec.
    destruct d as [|v d]; [simpl in Hrle; lia|].
    exists v. split; [done|]. split.
    + rewrite to_ipst_record_line. unfold ipst_line. simpl snd.
      by rewrite Hu.
    + intros Hfit. rewrite to_ips_record_fits by done.
      unfold ips_record. simpl snd. by rewrite Hu.
  - assert (use_rle d = false) as Hu.
    { destruct (use_rle d) eqn:Hu; [|done].
      by apply use_rle_spec in Hu. }
    split.
    + rewrite to_ipst_record_line. unfold ipst_line. simpl snd.
      by rewrite Hu.
    + intros Hfit. rewrite to_ips_record_fits by done.
      unfold ips_record. simpl snd. by rewrite Hu.
Qed.

Lemma uniform_fives (n : nat) : uniform (replicate n 5).
Proof.
  intros x y Hx Hy.
  apply elem_of_replicate in Hx as [-> _].
  by apply elem_of_replicate in Hy as [-> _].
Qed.

Lemma rle_threshold_witness :
  (* four equal bytes: RLE *)
  ((3 < Z.of_nat (length [5; 5; 5; 5]) ∧ uniform [5; 5; 5; 5])
   ∧ to_ipst_record (16, [5; 5; 5; 5]) []
     = (["000010:0000:0004:5" +:+ newline], Ok ())
   ∧ to_ips_record (16, [5; 5; 5; 5]) [] = ([0; 0; 16; 0; 0; 0; 4; 5], Ok ()))
  (* three equal bytes: literal *)
  ∧ (¬ (3 < Z.of_nat (length [5; 5; 5]) ∧ uniform [5; 5; 5])
     ∧ to_ipst_record (16, [5; 5; 5]) []
       = (["000010:0003:050505" +:+ newline], Ok ())
     ∧ to_ips_record (16, [5; 5; 5]) [] = ([0; 0; 16; 0; 3; 5; 5; 5], Ok ())).
Proof.
  assert (3 < Z.of_nat (length [5; 5; 5; 5]) ∧ uniform [5; 5; 5; 5]) as H4.
  { split; [simpl; lia|apply (uniform_fives 4)]. }
  assert (¬ (3 < Z.of_nat (length [5; 5; 5]) ∧ uniform [5; 5; 5])) as H3.
  { intros [Hlen _]. simpl in Hlen. lia. }
  split.
  - split; [exact H4|].
    destruct (proj1 (rle_threshold 16 [5; 5; 5; 5] [] []) H4)
      as (v & [= <-] & Ht & Hb).
    split; [exact Ht|]. apply Hb. split; simpl; lia.
  - split; [exact H3|].
    destruct (proj2 (rle_threshold 16 [5; 5; 5] [] []) H3) as [Ht Hb].
    split; [exact Ht|]. apply Hb. split; simpl; lia.
Defined.

(** ** Looking up, setting and popping blocks *)

Lemma dict_get_elem_of {V} (k : Z) (v : V) (d : list (Z * V)) :
  dict_get k d = Some v → (k, v) ∈ d.
Proof.
  induction d as [|[k' v'] d IH]; simpl; [done|].
  destruct (decide (k' = k)) as [->|Hne].
  - intros [= ->]. left.
  - intros H. right. by apply IH.
Qed.

Lemma dict_get_None {V} (k : Z) (d : list (Z * V)) :
  dict_get k d = None ↔ k ∉ d.*1.
Proof.
  induction d as [|[k' v'] d IH]; simpl.
  - split; [intros _; apply not_elem_of_nil|done].
  - rewrite not_elem_of_cons. destruct (decide (k' = k)) as [->|Hne].
    + split; [done|]. by intros [? _].
    + rewrite IH. split; [|by intros [_ ?]]. intros H. split; [congruence|done].
Qed.

Lemma dict_get_set {V} (k k' : Z) (v : V) (d : list (Z * V)) :
  dict_get k' (dict_set k v d)
  = if decide (k' = k) then Some v else dict_get k' d.
Proof.
  induction d as [|[k0 v0] d IH]; simpl.
  - destruct (decide (k = k')), (decide (k' = k)); congruence.
  - destruct (decide (k0 = k)) as [->|Hne]; simpl.
    + destruct (decide (k = k')), (decide (k' = k)); congruence.
    + destruct (decide (k0 = k')) as [->|Hne'].
      * by rewrite decide_False.
      * exact IH.
Qed.

Lemma dict_pop_None {V} (k : Z) (d : list (Z * V)) :
  dict_get k d = None → dict_pop k d = Raise KeyError.
Proof.
  induction d as [|[k' v'] d IH]; simpl; [done|].
  destruct (decide (k' = k)); [done|]. intros H. by rewrite IH.
Qed.

Lemma dict_pop_Some {V} (k : Z) (v : V) (d : list (Z * V)) :
  dict_get k d = Some v → NoDup d.*1 →
  ∃ d', dict_pop k d = Ok (v, d')
        ∧ dict_get k d' = None
        ∧ ∀ k', k' ≠ k → dict_get k' d' = dict_get k' d.
Proof.
  induction d as [|[k0 v0] d IH]; simpl; [done|].
  intros Hget Hnd. apply NoDup_cons in Hnd as [Hk0 Hnd].
  destruct (decide (k0 = k)) as [->|Hne].
  - injection Hget as ->. exists d. split; [done|].
    split; [by apply dict_get_None|].
    intros k' Hk'. by rewrite decide_False.
  - destruct (IH Hget Hnd) as (d' & -> & Hnone & Hother).
    exists ((k0, v0) :: d'). simpl. split; [done|]. split.
    + by rewrite decide_False.
    + intros k' Hk'. destruct (decide (k0 = k')); [done|]. by apply Hother.
Qed.

(** ** The blocks [_blockify] returns *)

Lemma blockify_Ok_bytes (l : list (Z * Z)) (st st' : blockify_state) :
  foldM blockify_step st l = Ok st' → Forall (λ kv, is_byte kv.2) l.
Proof.
  revert st. induction l as [|[k v] l IH]; intros st; [constructor|].
  rewrite foldM_cons. intros H. apply bind_Ok in H as (st1 & Hstep & Hfold).
  constructor; [|by eapply IH]. simpl.
  destruct (decide (is_byte v)) as [|Hv]; [done|]. exfalso.
  unfold blockify_step, bytearray_append in Hstep. unfold is_byte in Hv.
  destruct (start st); [destruct (offset st); [|done]|];
    repeat case_decide; try done; simpl in Hstep; discriminate.
Qed.

Lemma blockify_Ok (M : gmap Z Z) (bs : list (Z * list Z)) :
  _blockify M = Ok bs →
  map_Forall (λ _ v, is_byte v) M
  ∧ changes (from_blocks bs) = M ∧ maximal_runs bs.
Proof.
  intros Hbs.
  assert (map_Forall (λ _ v, is_byte v) M) as HM.
  { unfold _blockify in Hbs. apply bind_Ok in Hbs as (st & Hfold & _).
    apply blockify_Ok_bytes in Hfold.
    rewrite (sorted_Permutation (map_to_list M)) in Hfold.
    intros k v Hkv. rewrite Forall_forall in Hfold.
    apply elem_of_map_to_list in Hkv. exact (Hfold _ Hkv). }
  split; [exact HM|].
  destruct (blockify_total M HM) as (bs' & Hbs' & Hch & Hruns).
  rewrite Hbs in Hbs'. by injection Hbs' as <-.
Qed.

Lemma maximal_runs_strict (bs : list (Z * list Z)) :
  maximal_runs bs → StronglySorted key_lt bs.
Proof.
  intros [Hne Hs]. apply Sorted_StronglySorted in Hs; [|apply _].
  induction Hs as [|a bs Hs IH Ha]; [constructor|].
  apply Forall_cons in Hne as [_ Hne].
  constructor; [by apply IH|].
  eapply Forall_impl; [exact Ha|]. intros b. unfold separated, key_lt, block_end.
  lia.
Qed.

Lemma key_lt_NoDup {V} (l : list (Z * V)) :
  StronglySorted key_lt l → NoDup l.*1.
Proof.
  induction 1 as [|a l Hl IH Ha]; [constructor|].
  rewrite fmap_cons. apply NoDup_cons. split; [|done].
  intros Hin. apply list_elem_of_fmap in Hin as (b & Heq & Hb).
  rewrite Forall_forall in Ha. specialize (Ha b Hb). unfold key_lt in Ha. lia.
Qed.

Lemma maximal_runs_sorted (bs : list (Z * list Z)) :
  maximal_runs bs → sorted bs = bs.
Proof. intros H. by apply sorted_id, maximal_runs_strict. Qed.

(** No block starts where another one ends: a block that starts right
    behind another would have been merged with it. *)
Lemma maximal_runs_no_adjacent (bs : list (Z * list Z)) (k : Z)
    (d : list Z) :
  maximal_runs bs → dict_get k bs = Some d → dict_get (k - 1) bs = None.
Proof.
  intros Hruns Hk. destruct (dict_get (k - 1) bs) as [d'|] eqn:Hk'; [|done].
  exfalso. apply dict_get_elem_of in Hk, Hk'.
  destruct Hruns as [Hne Hs]. apply Sorted_StronglySorted in Hs; [|apply _].
  rewrite Forall_forall in Hne. destruct (Hne _ Hk') as [Hd' _]. simpl in Hd'.
  assert (0 < Z.of_nat (length d')) by (destruct d'; [done|simpl; lia]).
  destruct (StronglySorted_trichotomy _ _ _ _ Hs Hk Hk') as [Heq|[Hsep|Hsep]];
    [injection Heq; lia|..]; unfold separated, block_end in Hsep;
    simpl in Hsep; lia.
Qed.

(** ** Writing the blocks *)

Lemma io_for_app {T A} (l : list A) (body : A → io T ()) (g : A → list T)
    (f : list T) :
  (∀ x f', x ∈ l → body x f' = (f' ++ g x, Ok ())) →
  io_for l body f = (f ++ concat (g <$> l), Ok ()).
Proof.
  revert f. induction l as [|x l IH]; intros f Hbody.
  - simpl. by rewrite app_nil_r.
  - simpl. unfold mbind, io_bind. rewrite Hbody by left.
    rewrite IH by (intros; apply Hbody; by right).
    by rewrite <- (assoc_L (++)).
Qed.

Lemma io_bind_print {A} (s : string) (k : () → io string A)
    (f : list string) :
  (print s ≫= k) f = k () (f ++ [s +:+ newline]).
Proof. reflexivity. Qed.

Lemma to_ipst_sanitized (M : gmap Z Z) (bogobyte : option Z)
    (bs : list (Z * list Z)) (f : list string) :
  _ips_sanitize_changes (mkPatch M) bogobyte = Ok bs →
  to_ipst (mkPatch M) bogobyte f = (f ++ ipst_file bs, Ok ()).
Proof.
  intros Hs. unfold to_ipst, ipst_file. rewrite Hs.
  rewrite io_bind_lift_Ok, io_bind_print.
  unfold mbind, io_bind.
  rewrite (io_for_app _ _ (λ b, [ipst_line b +:+ newline]))
    by (intros; apply to_ipst_record_line).
  assert (∀ l : list (Z * list Z),
            concat ((λ b, [ipst_line b +:+ newline]) <$> l)
            = (λ b, ipst_line b +:+ newline) <$> l) as ->.
  { intros l. induction l as [|b l IH]; [done|].
    rewrite !fmap_cons. simpl. by rewrite IH. }
  unfold print, write. by rewrite <- !(assoc_L (++)).
Qed.

Lemma to_ips_sanitized (M : gmap Z Z) (bogobyte : option Z)
    (bs : list (Z * list Z)) (f : list Z) :
  _ips_sanitize_changes (mkPatch M) bogobyte = Ok bs →
  Forall ips_fits bs →
  to_ips (mkPatch M) bogobyte f = (f ++ ips_file bs, Ok ()).
Proof.
  intros Hs Hfit. unfold to_ips, ips_file. rewrite Hs.
  rewrite io_bind_lift_Ok, io_bind_write.
  unfold mbind, io_bind.
  rewrite (io_for_app _ _ ips_record).
  - unfold write. by rewrite <- !(assoc_L (++)).
  - intros b f' Hb. apply to_ips_record_fits.
    rewrite Forall_forall in Hfit. apply Hfit.
    by rewrite <- (sorted_Permutation bs).
Qed.

Lemma to_ips_sanitize_raises (M : gmap Z Z) (bogobyte : option Z) (e : exn)
    (f : list Z) :
  _ips_sanitize_changes (mkPatch M) bogobyte = Raise e →
  to_ips (mkPatch M) bogobyte f = (f, Raise e).
Proof. intros Hs. unfold to_ips. by rewrite Hs. Qed.

Lemma to_ipst_sanitize_raises (M : gmap Z Z) (bogobyte : option Z) (e : exn)
    (f : list string) :
  _ips_sanitize_changes (mkPatch M) bogobyte = Raise e →
  to_ipst (mkPatch M) bogobyte f = (f, Raise e).
Proof. intros Hs. unfold to_ipst. by rewrite Hs. Qed.

Lemma sanitize_no_sentinel (M : gmap Z Z) (bs : list (Z * list Z))
    (bogobyte : option Z) :
  _blockify M = Ok bs → dict_get _ips_bogo_address bs = None →
  _ips_sanitize_changes (mkPatch M) bogobyte = Ok bs.
Proof.
  intros Hbs Hget. unfold _ips_sanitize_changes. simpl changes.
  rewrite Hbs. simpl. by rewrite dict_pop_None.
Qed.

(** C2: when a block starts at the sentinel address [0x454F46]: with a
    bogo byte [b], the blocks handed to both writers have, in place of
    that block, a block at [0x454F45] holding [b] and then the bytes of
    the block, every other block being as it was, and the writers write
    these blocks; with no bogo byte, sanitizing and both writers fail
    with the patch value error before anything is written.  When no block
    starts there, the blocks are written as they are. *)
Theorem sanitize_sentinel (M : gmap Z Z) (bs : list (Z * list Z)) :
  _blockify M = Ok bs →
  match dict_get _ips_bogo_address bs with
  | Some d =>
      (∀ b, is_byte b →
         ∃ bs', _ips_sanitize_changes (mkPatch M) (Some b) = Ok bs'
           ∧ dict_get (_ips_bogo_address - 1) bs = None
           ∧ dict_get (_ips_bogo_address - 1) bs' = Some (b :: d)
           ∧ dict_get _ips_bogo_address bs' = None
           ∧ (∀ k, k ≠ _ips_bogo_address → k ≠ _ips_bogo_address - 1 →
                   dict_get k bs' = dict_get k bs)
           ∧ (_ips_bogo_address - 1, b :: d) ∈ sorted bs'
           ∧ (∀ f, to_ipst (mkPatch M) (Some b) f
                   = (f ++ ipst_file bs', Ok ()))
           ∧ (∀ f, Forall ips_fits bs' →
                   to_ips (mkPatch M) (Some b) f = (f ++ ips_file bs', Ok ())))
      ∧ _ips_sanitize_changes (mkPatch M) None = Raise (PatchValueError None)
      ∧ (∀ f, to_ips (mkPatch M) None f = (f, Raise (PatchValueError None)))
      ∧ (∀ f, to_ipst (mkPatch M) None f = (f, Raise (PatchValueError None)))
  | None =>
      ∀ bogobyte, _ips_sanitize_changes (mkPatch M) bogobyte = Ok bs
  end.
Proof.
  intros Hbs. destruct (blockify_Ok M bs Hbs) as (HM & Hch & Hruns).
  destruct (dict_get _ips_bogo_address bs) as [d|] eqn:Hget;
    [|intros bogobyte; by apply sanitize_no_sentinel].
  destruct (dict_pop_Some _ips_bogo_address d bs Hget)
    as (bs0 & Hpop & Hnone & Hother).
  { by apply key_lt_NoDup, maximal_runs_strict. }
  assert (_ips_sanitize_changes (mkPatch M) None
          = Raise (PatchValueError None)) as Hraise.
  { unfold _ips_sanitize_changes. simpl changes. rewrite Hbs. simpl.
    by rewrite Hpop. }
  split_and!.
  - intros b Hb.
    assert (_ips_sanitize_changes (mkPatch M) (Some b)
            = Ok (dict_set (_ips_bogo_address - 1) (b :: d) bs0)) as Hs.
    { unfold _ips_sanitize_changes. simpl changes. rewrite Hbs. simpl.
      rewrite Hpop. by rewrite to_bytes_byte. }
    eexists. split; [exact Hs|].
    assert (dict_get (_ips_bogo_address - 1)
              (dict_set (_ips_bogo_address - 1) (b :: d) bs0)
            = Some (b :: d)) as Hnew
      by (rewrite dict_get_set; by rewrite decide_True).
    split_and!.
    + by eapply maximal_runs_no_adjacent.
    + exact Hnew.
    + rewrite dict_get_set. by rewrite decide_False.
    + intros k Hk Hk'. rewrite dict_get_set. rewrite decide_False by done.
      by apply Hother.
    + rewrite (sorted_Permutation _). by apply dict_get_elem_of.
    + intros f. by apply to_ipst_sanitized.
    + intros f Hfit. by apply to_ips_sanitized.
  - exact Hraise.
  - intros f. by apply to_ips_sanitize_raises.
  - intros f. by apply to_ipst_sanitize_raises.
Qed.

Lemma sanitize_sentinel_witness :
  let M : gmap Z Z := {[ 0x454f46 := 7 ]} in
  _blockify M = Ok [(0x454f46, [7])]
  ∧ _ips_sanitize_changes (mkPatch M) (Some 0) = Ok [(0x454f45, [0; 7])]
  ∧ to_ips (mkPatch M) None [] = ([], Raise (PatchValueError None)).
Proof.
  intros M.
  assert (_blockify M = Ok [(0x454f46, [7])]) as Hbs
    by (vm_compute; reflexivity).
  split; [exact Hbs|].
  pose proof (sanitize_sentinel M _ Hbs) as H.
  change (dict_get _ips_bogo_address [(0x454f46, [7])]) with (Some [7]) in H.
  destruct H as (Hsome & _ & Hips & _). split; [|apply Hips].
  destruct (Hsome 0) as (bs' & Hs & _); [unfold is_byte; lia|].
  rewrite Hs. f_equal.
  assert (_ips_sanitize_changes (mkPatch M) (Some 0) = Ok [(0x454f45, [0; 7])])
    as Heq by (vm_compute; reflexivity).
  rewrite Heq in Hs. by injection Hs.
Defined.

(** ** Reading back what the binary writer wrote *)

Lemma from_ips_loop_step (f : list Z) (ch : gmap Z Z) :
  from_ips_loop f ch
  = match from_ips_step f ch with
    | IpsBreak => Ok ch
    | IpsRaise e => Raise e
    | IpsNext ch' f' => from_ips_loop f' ch'
    end.
Proof.
  rewrite from_ips_loop_equation_1.
  destruct (inspect (from_ips_step f ch)) as [r Hr].
  etrans; [|by rewrite Hr]. by destruct r.
Qed.

Lemma read_app (n : Z) (a r : list Z) :
  length a = Z.to_nat n → read n (a ++ r) = (a, r).
Proof.
  intros Hn. unfold read. rewrite <- Hn.
  by rewrite take_app_length, drop_app_length.
Qed.

Lemma set_run_replicate (ch : gmap Z Z) (o v : Z) (n : nat) :
  set_run ch o (Z.of_nat n) v = set_block ch o (replicate n v).
Proof.
  induction n as [|n IH].
  - reflexivity.
  - rewrite replicate_S_end, set_block_snoc, length_replicate, <- IH.
    unfold set_run. rewrite seqZ_S, foldl_snoc.
    by rewrite Z.add_0_l.
Qed.

(** One iteration of the reader consumes the record of one block. *)
Lemma from_ips_step_record (b : Z * list Z) (rest : list Z)
    (ch : gmap Z Z) :
  ips_fits b → b.2 ≠ [] → b.1 ≠ _ips_bogo_address →
  from_ips_step (ips_record b ++ rest) ch
  = IpsNext (set_block ch b.1 b.2) rest.
Proof.
  destruct b as [o d]. unfold ips_fits. simpl. intros [Ho Hlen] Hd Hbogo.
  assert (0 < Z.of_nat (length d)) as Hpos by (destruct d; [done|simpl; lia]).
  assert (be_bytes 3 o ≠ _ips_footer) as Hfoot.
  { intros Heq. apply Hbogo. rewrite <- (from_bytes_be_bytes 3 o) by (simpl; lia).
    by rewrite Heq. }
  unfold from_ips_step, ips_record. simpl fst. simpl snd.
  destruct (use_rle d) eqn:Hrle.
  - apply use_rle_spec in Hrle as [_ Huni].
    destruct (head d) as [v|] eqn:Hv; [|by destruct d]. simpl default.
    unfold rle_record. rewrite <- !(assoc_L (++)).
    rewrite (read_app 3) by by rewrite length_be_bytes.
    rewrite decide_False by done.
    rewrite (read_app 2 [0; 0]) by done.
    rewrite decide_False by (unfold from_bytes; simpl; lia).
    rewrite (read_app 2) by by rewrite length_be_bytes.
    rewrite (read_app 1 [v]) by done.
    rewrite !from_bytes_be_bytes by (simpl; lia).
    f_equal. rewrite set_run_replicate.
    f_equal. symmetry. by apply uniform_replicate.
  - unfold literal_record. rewrite <- !(assoc_L (++)).
    rewrite (read_app 3) by by rewrite length_be_bytes.
    rewrite decide_False by done.
    rewrite (read_app 2) by by rewrite length_be_bytes.
    rewrite !from_bytes_be_bytes by (simpl; lia).
    rewrite decide_True by lia.
    rewrite read_app by lia. done.
Qed.

Lemma from_ips_loop_records (bs : list (Z * list Z)) (ch : gmap Z Z) :
  Forall ips_fits bs →
  Forall (λ b, b.2 ≠ []) bs →
  Forall (λ b, b.1 ≠ _ips_bogo_address) bs →
  from_ips_loop (concat (ips_record <$> bs) ++ _ips_footer) ch
  = Ok (foldl (λ ch '(s, data), set_block ch s data) ch bs).
Proof.
  revert ch. induction bs as [|b bs IH]; intros ch Hfit Hne Hbogo.
  - by rewrite from_ips_loop_step.
  - apply Forall_cons in Hfit as [Hb Hfit]. apply Forall_cons in Hne as [Hb' Hne].
    apply Forall_cons in Hbogo as [Hb'' Hbogo].
    rewrite fmap_cons. simpl concat. rewrite <- (assoc_L (++)).
    rewrite from_ips_loop_step, from_ips_step_record by done.
    rewrite IH by done. by destruct b.
Qed.

Lemma from_ips_file (bs : list (Z * list Z)) :
  Forall ips_fits bs → maximal_runs bs →
  Forall (λ b, b.1 ≠ _ips_bogo_address) bs →
  from_ips (ips_file bs) = Ok (from_blocks bs).
Proof.
  intros Hfit Hruns Hbogo. unfold from_ips, ips_file.
  rewrite (read_app 5) by done.
  change (utf8_valid 0 0x80 0xBF _ips_header) with true. simpl negb.
  rewrite decide_True by done.
  rewrite maximal_runs_sorted by done.
  rewrite from_ips_loop_records; [done..| |done].
  eapply Forall_impl; [exact (proj1 Hruns)|]. by intros b [? _].
Qed.

(** An address that is not a key of the mapping starts no block. *)
Lemma blockify_keys (M : gmap Z Z) (bs : list (Z * list Z)) (k : Z) :
  _blockify M = Ok bs → M !! k = None → dict_get k bs = None.
Proof.
  intros Hbs HM. destruct (blockify_Ok M bs Hbs) as (_ & Hch & Hruns).
  destruct (dict_get k bs) as [d|] eqn:Hget; [|done]. exfalso.
  apply dict_get_elem_of in Hget.
  assert (is_Some (changes (from_blocks bs) !! k)) as [x Hx].
  { apply from_blocks_is_Some. exists (k, d). split; [done|].
    destruct Hruns as [Hne _]. rewrite Forall_forall in Hne.
    destruct (Hne _ Hget) as [Hd _]. unfold covers, block_end. simpl in *.
    destruct d; [done|]. simpl. lia. }
  rewrite Hch in Hx. congruence.
Qed.

(** C1, the part that holds: a mapping of offsets to bytes in which the
    sentinel address is no key, whose blocks fit the fields of a binary
    record (offset below [2^24], at most [0xFFFF] bytes), is written to the
    binary format and read back unchanged. *)
Theorem ips_roundtrip_fits (M : gmap Z Z) (bs : list (Z * list Z)) :
  map_Forall (λ _ v, is_byte v) M →
  M !! _ips_bogo_address = None →
  _blockify M = Ok bs →
  Forall ips_fits bs →
  ips_roundtrip M.
Proof.
  intros HM Hbogo Hbs Hfit.
  destruct (blockify_Ok M bs Hbs) as (_ & Hch & Hruns).
  pose proof (blockify_keys M bs _ Hbs Hbogo) as Hget.
  exists (ips_file bs). split.
  - rewrite (to_ips_sanitized M None bs []); [done| |done].
    by apply sanitize_no_sentinel.
  - rewrite from_ips_file; [|done..|].
    + f_equal. rewrite <- Hch. by destruct (from_blocks bs).
    + apply Forall_forall. intros [k d] Hkd Heq. simpl in Heq. subst k.
      apply dict_get_None in Hget. apply Hget.
      apply list_elem_of_fmap. by exists (_ips_bogo_address, d).
Qed.

Lemma ips_roundtrip_fits_witness :
  let M : gmap Z Z :=
    list_to_map [(10, 0xAA); (11, 0xBB); (16, 7); (17, 7); (18, 7); (19, 7)] in
  map_Forall (λ _ v, is_byte v) M
  ∧ M !! _ips_bogo_address = None
  ∧ _blockify M = Ok [(10, [0xAA; 0xBB]); (16, [7; 7; 7; 7])]
  ∧ Forall ips_fits [(10, [0xAA; 0xBB]); (16, [7; 7; 7; 7])]
  ∧ ips_roundtrip M.
Proof.
  intros M.
  assert (map_Forall (λ _ v, is_byte v) M) as HM
    by (apply (bool_decide_unpack _); vm_compute; exact I).
  assert (M !! _ips_bogo_address = None) as Hbogo by (vm_compute; reflexivity).
  assert (_blockify M = Ok [(10, [0xAA; 0xBB]); (16, [7; 7; 7; 7])]) as Hbs
    by (vm_compute; reflexivity).
  assert (Forall ips_fits [(10, [0xAA; 0xBB]); (16, [7; 7; 7; 7])]) as Hfit
    by (apply (bool_decide_unpack _); vm_compute; exact I).
  split_and!; [done..|].
  exact (ips_roundtrip_fits M _ HM Hbogo Hbs Hfit).
Defined.

(** C1 fails as stated: an offset that does not fit three bytes cannot be
    written to the binary format. *)
Lemma roundtrip_fails :
  let M : gmap Z Z := {[ 0x1000000 := 0 ]} in
  map_Forall (λ _ v, is_byte v) M
  ∧ M !! _ips_bogo_address = None
  ∧ to_ips (mkPatch M) None [] = (_ips_header, Raise OverflowError)
  ∧ ¬ (ips_roundtrip M ∧ ipst_roundtrip M).
Proof.
  intros M.
  assert (to_ips (mkPatch M) None [] = (_ips_header, Raise OverflowError))
    as Hw by (vm_compute; reflexivity).
  split_and!.
  - apply (bool_decide_unpack _). vm_compute. exact I.
  - vm_compute. reflexivity.
  - exact Hw.
  - intros [(out & Hout & _) _]. rewrite Hw in Hout. discriminate.
Qed.

(** The text reader takes the offset of a literal record for a decimal
    number, while the writer prints it in hexadecimal: offset 16 comes
    back as offset 10, and an offset with a letter among its digits is
    refused. *)
Lemma ipst_offset_base :
  to_ipst (mkPatch {[ 16 := 1 ]}) None []
  = (["PATCH" +:+ newline; "000010:0001:01" +:+ newline; "EOF" +:+ newline],
     Ok ())
  ∧ from_ipst ["PATCH" +:+ newline; "000010:0001:01" +:+ newline;
               "EOF" +:+ newline]
    = Ok (mkPatch {[ 10 := 1 ]})
  ∧ from_ipst ["PATCH" +:+ newline; "00000A:0001:01" +:+ newline;
               "EOF" +:+ newline]
    = Raise ValueError
  ∧ ¬ ipst_roundtrip {[ 16 := 1 ]}.
Proof.
  assert (to_ipst (mkPatch {[ 16 := 1 ]}) None []
          = (["PATCH" +:+ newline; "000010:0001:01" +:+ newline;
              "EOF" +:+ newline], Ok ())) as Hw by (vm_compute; reflexivity).
  assert (from_ipst ["PATCH" +:+ newline; "000010:0001:01" +:+ newline;
                     "EOF" +:+ newline]
          = Ok (mkPatch {[ 10 := 1 ]})) as Hr by (vm_compute; reflexivity).
  split_and!; [exact Hw|exact Hr|vm_compute; reflexivity|].
  intros (out & Hout & Hback). rewrite Hw in Hout. injection Hout as <-.
  rewrite Hr in Hback.
  apply (f_equal (λ r, match r with
                       | Ok p => changes p !! 16
                       | Raise _ => None
                       end)) in Hback.
  simpl in Hback. rewrite lookup_singleton_eq in Hback.
  by rewrite lookup_singleton_ne in Hback.
Qed.

(** ** Tables and indexes *)

Section table_facts.
Context {View Value : Type}.
Variable view_slice : View → Z → Z → result View.
Variable view_getattr : View → string → result Value.
Variable registry : gmap string (list FieldSpec).

Abbreviation getitem := (Table.getitem view_slice view_getattr registry).
Abbreviation _subview := (Table._subview view_slice registry).
Abbreviation _isz_bits := (Table._isz_bits registry).

Lemma isz_bits_no_size (t : @Table.t View) :
  no_size t →
  _isz_bits t
  = match registry !! Table.typename t with
    | Some fields => Structure_size fields
    | None =>
        match Table.index_ t with
        | IndexObj ix => Ok (Index.stride ix * Table.units t)
        | OffsetList _ => Raise ValueError
        end
    end.
Proof.
  intros [Hs|Hs]; unfold Table._isz_bits, Table._struct; rewrite Hs; [done|].
  by rewrite decide_False by (intros H; by apply H).
Qed.

(** With an index that is a plain list and neither a size nor a
    registered structure, no element can be read. *)
Lemma getitem_no_item_size (t : @Table.t View) (l : list Z) (i : Z) :
  no_size t → registry !! Table.typename t = None →
  Table.index_ t = OffsetList l →
  ∃ e, getitem t i = Raise e.
Proof.
  intros Hs Hreg Hix. unfold Table.getitem, Table.len, Table._struct.
  rewrite Hix, Hreg. simpl.
  destruct (decide (i >= Z.of_nat (length l))); [by eexists|].
  unfold Table._subview. rewrite Hix. simpl.
  destruct (list_getitem l i) as [o|e]; simpl; [|by eexists].
  rewrite (isz_bits_no_size t Hs), Hreg, Hix. simpl. by eexists.
Qed.

(** C7, as the code has it: the length of a table is the length of its
    index; the element size is the explicit size (unit-scaled) when one is
    given and is not zero, else the size of the registered structure when
    the element type names one, else the stride of an arithmetic index
    (unit-scaled); when none of the three applies, computing the size
    raises and every element access fails. *)
Theorem isz_bits_priority (t : @Table.t View) :
  Table.len t = index_len (Table.index_ t)
  ∧ (∀ s, Table.size t = Some s → s ≠ 0 →
          _isz_bits t = Ok (s * Table.units t))
  ∧ (no_size t →
     (∀ fields, registry !! Table.typename t = Some fields →
                _isz_bits t = Structure_size fields)
     ∧ (registry !! Table.typename t = None →
        (∀ ix, Table.index_ t = IndexObj ix →
               _isz_bits t = Ok (Index.stride ix * Table.units t))
        ∧ (∀ l, Table.index_ t = OffsetList l →
                _isz_bits t = Raise ValueError
                ∧ ∀ i, ∃ e, getitem t i = Raise e))).
Proof.
  split; [done|]. split.
  - intros s Hs Hne. unfold Table._isz_bits. rewrite Hs.
    by rewrite decide_True.
  - intros Hno. pose proof (isz_bits_no_size t Hno) as Hisz. split.
    + intros fields Hreg. by rewrite Hisz, Hreg.
    + intros Hreg. split.
      * intros ix Hix. by rewrite Hisz, Hreg, Hix.
      * intros l Hix. split; [by rewrite Hisz, Hreg, Hix|].
        intros i. by eapply getitem_no_item_size.
Qed.

(** C9, as the code has it: an index at or above the length is refused
    with the index error; below the length nothing is checked, and the
    access goes on to the sub-view and to the element made of it, for a
    negative [i] as for any other.  With an arithmetic index the element
    of a negative [i] is looked for at [offset + i * stride], before the
    first element when the stride is positive, the sub-view asked of the
    view starts there, and what the view gives for it is the element
    returned; with a list of offsets a negative [i] counts from the end of
    the list, and below [-n] the list itself raises the index error. *)
Theorem getitem_bounds (t : @Table.t View) (n i : Z) :
  Table.len t = Ok n →
  (i >= n → getitem t i = Raise IndexError)
  ∧ (i < n →
     getitem t i
     = match registry !! Table.typename t with
       | Some _ =>
           v ← _subview t i ; Ok (Table.StructElem (Table.typename t) v)
       | None =>
           v ← _subview t i ;
           x ← view_getattr v (Table.typename t) ;
           Ok (Table.PrimElem x)
       end)
  ∧ (∀ ix, Table.index_ t = IndexObj ix → i < n →
       Index.getitem ix i = Ok (Index.offset ix + i * Index.stride ix)
       ∧ _subview t i
         = (isz ← _isz_bits t ;
            let start := (Index.offset ix + i * Index.stride ix)
                         * Table.units t in
            view_slice (Table.view t) start (start + isz))
       ∧ (i < 0 → 0 < Index.stride ix →
          Index.offset ix + i * Index.stride ix < Index.offset ix)
       ∧ (∀ isz v,
            _isz_bits t = Ok isz →
            view_slice (Table.view t)
              ((Index.offset ix + i * Index.stride ix) * Table.units t)
              ((Index.offset ix + i * Index.stride ix) * Table.units t + isz)
            = Ok v →
            (is_Some (registry !! Table.typename t) →
             getitem t i = Ok (Table.StructElem (Table.typename t) v))
            ∧ (registry !! Table.typename t = None →
               getitem t i
               = (x ← view_getattr v (Table.typename t) ;
                  Ok (Table.PrimElem x)))))
  ∧ (∀ l, Table.index_ t = OffsetList l →
       (- n ≤ i < 0 →
        ∃ o, l !! Z.to_nat (n + i) = Some o
             ∧ index_getitem (Table.index_ t) i = Ok o
             ∧ _subview t i
               = (isz ← _isz_bits t ;
                  view_slice (Table.view t) (o * Table.units t)
                             (o * Table.units t + isz)))
       ∧ (i < - n → getitem t i = Raise IndexError)).
Proof.
  intros Hlen.
  assert (i < n →
          getitem t i
          = match registry !! Table.typename t with
            | Some _ =>
                v ← _subview t i ; Ok (Table.StructElem (Table.typename t) v)
            | None =>
                v ← _subview t i ;
                x ← view_getattr v (Table.typename t) ;
                Ok (Table.PrimElem x)
            end) as Hbelow.
  { intros Hi. unfold Table.getitem, Table._struct. rewrite Hlen. simpl.
    by rewrite decide_False by lia. }
  split_and!.
  - intros Hi. unfold Table.getitem. rewrite Hlen. simpl.
    by rewrite decide_True.
  - exact Hbelow.
  - intros ix Hix Hi. specialize (Hbelow Hi).
    unfold Table.len in Hlen. rewrite Hix in Hlen.
    simpl in Hlen. unfold Index.len in Hlen. case_decide; [done|].
    injection Hlen as <-.
    assert (Index.getitem ix i = Ok (Index.offset ix + i * Index.stride ix))
      as Hget by (unfold Index.getitem; by rewrite decide_False by lia).
    assert (_subview t i
            = (isz ← _isz_bits t ;
               let start := (Index.offset ix + i * Index.stride ix)
                            * Table.units t in
               view_slice (Table.view t) start (start + isz))) as Hsub.
    { unfold Table._subview. rewrite Hix. simpl. by rewrite Hget. }
    split_and!; [done|done|nia|].
    intros isz v Hisz Hv. rewrite Hbelow, Hsub, Hisz. simpl. rewrite Hv.
    split.
    + intros [fields ->]. done.
    + intros ->. done.
  - intros l Hix. unfold Table.len in Hlen. rewrite Hix in Hlen.
    simpl in Hlen. injection Hlen as <-. split.
    + intros Hi.
      assert (∃ o, l !! Z.to_nat (Z.of_nat (length l) + i) = Some o
                   ∧ list_getitem l i = Ok o) as (o & Ho & Hget).
      { unfold list_getitem. destruct (decide (i < 0)) as [_|]; [|lia].
        rewrite decide_True by lia.
        destruct (lookup_lt_is_Some_2 l (Z.to_nat (i + Z.of_nat (length l))))
          as [o Ho]; [lia|].
        exists o. rewrite Ho. split; [|done].
        by replace (Z.of_nat (length l) + i) with (i + Z.of_nat (length l))
          by lia. }
      exists o. split_and!; [done|by rewrite Hix|].
      unfold Table._subview. rewrite Hix. simpl. by rewrite Hget.
    + intros Hi.
      assert (list_getitem l i = Raise IndexError) as Hget.
      { unfold list_getitem. destruct (decide (i < 0)) as [_|]; [|lia].
        by rewrite decide_False by lia. }
      unfold Table.getitem, Table.len. rewrite Hix. simpl.
      rewrite decide_False by lia.
      unfold Table._subview. rewrite Hix. simpl. rewrite Hget. simpl.
      by destruct (Table._struct registry t).
Qed.

End table_facts.

(** An [Index] alone: at or above the count the index error, below it
    the arithmetic offset, for a negative index as well. *)
Lemma Index_getitem_spec (ix : Index.t) (i : Z) :
  (i >= Index.count ix → Index.getitem ix i = Raise IndexError)
  ∧ (i < Index.count ix →
     Index.getitem ix i = Ok (Index.offset ix + i * Index.stride ix)).
Proof.
  unfold Index.getitem. split; intros Hi.
  - by rewrite decide_True.
  - by rewrite decide_False by lia.
Qed.

Lemma isz_bits_priority_witness :
  let t := Table.mk () "uint" (OffsetList [0; 8]) (Some 0) 8 in
  no_size t
  ∧ Table._isz_bits ∅ t = Raise ValueError
  ∧ ∃ e, Table.getitem unit_slice unit_getattr ∅ t 0 = Raise e.
Proof.
  intros t. assert (no_size t) as Hno by by right.
  split; [exact Hno|].
  destruct (isz_bits_priority unit_slice unit_getattr ∅ t)
    as (_ & _ & Hrest).
  destruct (Hrest Hno) as [_ Hnone].
  destruct (Hnone (lookup_empty _)) as [_ Hlist].
  destruct (Hlist [0; 8] eq_refl) as [Hisz Hget].
  split; [exact Hisz|exact (Hget 0)].
Defined.

(** C7 fails as stated: an explicit size of zero is passed over, and the
    stride of the index is taken where the claim has the size. *)
Lemma isz_bits_spec_fails :
  let t := Table.mk () "uint" (IndexObj (Index.mk 0 4 2)) (Some 0) 8 in
  Table._isz_bits ∅ t = Ok 16
  ∧ isz_spec ∅ t = Ok 0
  ∧ Table._isz_bits ∅ t ≠ isz_spec ∅ t.
Proof. intros t. split_and!; [reflexivity..|discriminate]. Qed.

Lemma getitem_bounds_witness :
  let slice (v : list Z) (a b : Z) : result (list Z) := Ok [a; b] in
  let getattr (v : list Z) (name : string) : result (list Z) := Ok v in
  let t := Table.mk [] "uint" (IndexObj (Index.mk 100 4 10)) (Some 1) 8 in
  Table.len t = Ok 4
  ∧ Table.getitem slice getattr ∅ t 4 = Raise IndexError
  ∧ Index.getitem (Index.mk 100 4 10) (-1) = Ok 90
  ∧ Table.getitem slice getattr ∅ t (-1) = Ok (Table.PrimElem [720; 728]).
Proof.
  intros slice getattr t. assert (Table.len t = Ok 4) as Hlen by reflexivity.
  split; [exact Hlen|].
  destruct (getitem_bounds slice getattr ∅ t 4 4 Hlen) as (Hge & _).
  split; [apply Hge; lia|].
  destruct (getitem_bounds slice getattr ∅ t 4 (-1) Hlen)
    as (_ & _ & Harith & _).
  destruct (Harith (Index.mk 100 4 10) eq_refl) as (Hget & _ & _ & Helem);
    [lia|].
  split; [exact Hget|].
  destruct (Helem 8 [720; 728] eq_refl eq_refl) as [_ Hprim].
  exact (Hprim eq_refl).
Defined.

(** C9 fails as stated: with a list of two offsets, the index [-3] is
    negative and raises. *)
Lemma getitem_negative_raises :
  let t := Table.mk () "uint" (OffsetList [0; 8]) (Some 1) 8 in
  Table.len t = Ok 2
  ∧ Table.getitem unit_slice unit_getattr ∅ t (-3) = Raise IndexError
  ∧ ¬ ∃ x, Table.getitem unit_slice unit_getattr ∅ t (-3) = Ok x.
Proof.
  intros t. split_and!; [reflexivity..|]. intros [x Hx]. discriminate.
Qed.

(** ** String fields *)

Lemma set_str_same (display : option codec) (view : list Z) (value : string) :
  Field._get_str display view = Ok value →
  Field._set_str display view value = Ok view.
Proof.
  intros Hget. unfold Field._set_str. rewrite Hget. simpl.
  by rewrite decide_True.
Qed.

(** A different value is laid over the start of the bytes the field
    holds; the bytes behind it stay. *)
Lemma set_str_overlay (display : option codec) (view data : list Z)
    (value current : string) :
  Field._get_str display view = Ok current → value ≠ current →
  encode (default ascii_codec display) value = Ok data →
  (length data ≤ length view)%nat →
  Field._set_str display view value = Ok (data ++ drop (length data) view).
Proof.
  intros Hget Hne Henc Hlen. unfold Field._set_str. rewrite Hget. simpl.
  rewrite decide_False by done. rewrite Henc. simpl.
  unfold view_set_bytes. rewrite decide_True; [done|].
  rewrite length_app, length_drop. lia.
Qed.

Lemma set_str_too_long (display : option codec) (view data : list Z)
    (value current : string) :
  Field._get_str display view = Ok current → value ≠ current →
  encode (default ascii_codec display) value = Ok data →
  (length view < length data)%nat →
  Field._set_str display view value = Raise ValueError.
Proof.
  intros Hget Hne Henc Hlen. unfold Field._set_str. rewrite Hget. simpl.
  rewrite decide_False by done. rewrite Henc. simpl.
  unfold view_set_bytes. rewrite decide_False; [done|].
  rewrite length_app, length_drop. lia.
Qed.

(** The setter of [romlib/field.py] stores nothing: every path ends in an
    exception. *)
Lemma set_string_raises (display : codec) (size : option Z)
    (name : option string) (value : string) :
  ∃ e, StringField.set_string display size name value = Raise e.
Proof.
  unfold StringField.set_string.
  destruct (encode display value) as [data|e]; simpl; [|by eexists].
  destruct size as [sz|]; simpl; [|by eexists].
  case_decide; [destruct name; by eexists|].
  case_decide; [|by eexists].
  destruct (encode display " ") as [pad|e]; simpl; [|by eexists].
  destruct (StringField.bytes_of_list _); by eexists.
Qed.

(** C6 on the code: a 4-byte ASCII field holding "ABCD", set to "XY",
    holds "XYCD" afterwards, not "XY" padded with spaces: [_set_str] adds
    no padding.  The examples of the specification come out as it says,
    the field "AB  " ending in spaces already. *)
Theorem set_str_no_padding :
  Field._set_str None [65; 66; 67; 68] "XY" = Ok [88; 89; 67; 68]
  ∧ Field._set_str None [65; 66; 32; 32] "ABC" = Ok [65; 66; 67; 32]
  ∧ Field._set_str None [65; 66; 32; 32] "ABCDE" = Raise ValueError
  ∧ Field._set_str None [65; 66; 32; 32] "AB  " = Ok [65; 66; 32; 32]
  ∧ StringField.set_string ascii_codec (Some 32) (Some "f") "XY"
    = Raise TypeError.
Proof. split_and!; vm_compute; reflexivity. Qed.

(** ** Errors of the text reader *)

(** A line that is neither the footer nor made of three or four parts is
    a format error, with the number the loop has for the line. *)
Lemma from_ipst_line_format_error (n : Z) (line : string) (ch : gmap Z Z) :
  rstrip line ≠ "EOF"%string →
  length (split (rstrip line)) ≠ 3%nat →
  length (split (rstrip line)) ≠ 4%nat →
  from_ipst_line n line ch = Raise (PatchFormatError (Some n)).
Proof.
  intros Hfoot H3 H4. unfold from_ipst_line.
  rewrite bool_decide_eq_false_2 by done.
  destruct (split (rstrip line)) as [|p1 [|p2 [|p3 [|p4 [|p5 ps]]]]];
    simpl in *; done.
Qed.

(** An RLE line with a positive run length and a value above [0xFF] is a
    value error, with the number the loop has for the line; with a run
    length of zero or less the value is never looked at. *)
Lemma from_ipst_line_rle (n : Z) (line p1 p2 p3 p4 : string)
    (o sz r v : Z) (ch : gmap Z Z) :
  rstrip line ≠ "EOF"%string →
  split (rstrip line) = [p1; p2; p3; p4] →
  int p1 16 = Ok o → int p2 16 = Ok sz → int p3 16 = Ok r →
  int p4 16 = Ok v → v > 0xFF →
  from_ipst_line n line ch
  = if decide (0 < r) then Raise (PatchValueError (Some n)) else Ok (Some ch).
Proof.
  intros Hfoot Hsplit H1 H2 H3 H4 Hv. unfold from_ipst_line.
  rewrite bool_decide_eq_false_2 by done.
  rewrite Hsplit, H1, H2, H3, H4. simpl.
  case_decide as Hr.
  - rewrite seqZ_cons by lia. rewrite foldM_cons.
    by rewrite bool_decide_eq_true_2.
  - by rewrite seqZ_nil by lia.
Qed.

(** Comment lines are dropped before the lines are counted: a file and
    the file without its comment lines read the same, error and line
    number included. *)
Lemma from_ipst_comment_blind (pre post : list string) (c : string) :
  startswith_hash c = true →
  from_ipst (pre ++ c :: post) = from_ipst (pre ++ post).
Proof.
  intros Hc. unfold from_ipst. do 2 f_equal.
  rewrite !List.filter_app. f_equal. simpl.
  assert (ipst_keep c = false) as ->; [|done].
  unfold ipst_keep. rewrite Hc. destruct c; [done|].
  by rewrite bool_decide_eq_false_2.
Qed.

(** C5 on the code: behind a comment line the number reported is not the
    number of the offending line (line 3 of the file is reported as
    line 2), for the value error as for the format error; and an RLE line
    whose value exceeds [0xFF] is accepted when its run length is zero. *)
Theorem from_ipst_line_number :
  from_ipst ["PATCH" +:+ newline; "# comment" +:+ newline;
             "000000:0000:0001:100" +:+ newline]
  = Raise (PatchValueError (Some 2))
  ∧ from_ipst ["PATCH" +:+ newline; "# comment" +:+ newline;
               "garbage" +:+ newline]
    = Raise (PatchFormatError (Some 2))
  ∧ from_ipst ["PATCH" +:+ newline; "000000:0000:0000:100" +:+ newline;
               "EOF" +:+ newline]
    = Ok (mkPatch ∅).
Proof. split_and!; vm_compute; reflexivity. Qed.

(** * Further properties of the patch component *)

(** ** The binary reader on arbitrary files *)

(** The reader consumes the records of any blocks that fit, in the order
    of the file, and goes on with what follows them. *)
Lemma from_ips_loop_records_then (bs : list (Z * list Z)) (rest : list Z)
    (ch : gmap Z Z) :
  Forall ips_fits bs →
  Forall (λ b, b.2 ≠ []) bs →
  Forall (λ b, b.1 ≠ _ips_bogo_address) bs →
  from_ips_loop (concat (ips_record <$> bs) ++ rest) ch
  = from_ips_loop rest (foldl (λ ch '(s, data), set_block ch s data) ch bs).
Proof.
  revert ch. induction bs as [|b bs IH]; intros ch Hfit Hne Hbogo; [done|].
  apply Forall_cons in Hfit as [Hb Hfit]. apply Forall_cons in Hne as [Hb' Hne].
  apply Forall_cons in Hbogo as [Hb'' Hbogo].
  rewrite fmap_cons. simpl concat. rewrite <- (assoc_L (++)).
  rewrite from_ips_loop_step, from_ips_step_record by done.
  rewrite IH by done. by destruct b.
Qed.

Lemma from_ips_header_records (bs : list (Z * list Z)) (junk : list Z) :
  Forall ips_fits bs →
  Forall (λ b, b.2 ≠ []) bs →
  Forall (λ b, b.1 ≠ _ips_bogo_address) bs →
  from_ips (_ips_header ++ concat (ips_record <$> bs) ++ _ips_footer ++ junk)
  = Ok (from_blocks bs).
Proof.
  intros Hfit Hne Hbogo. unfold from_ips.
  rewrite (read_app 5) by done.
  change (utf8_valid 0 0x80 0xBF _ips_header) with true. simpl negb.
  rewrite decide_True by done.
  rewrite from_ips_loop_records_then by done.
  rewrite from_ips_loop_step. unfold from_ips_step.
  rewrite (read_app 3) by done. by rewrite decide_True.
Qed.

(** X1: a binary file made of the header, the records of any blocks that
    fit the record fields (in any order, overlapping or not), the footer
    and anything behind the footer is read as the blocks applied in file
    order: a later record overwrites an earlier one, and what follows the
    footer is never looked at. *)
Theorem from_ips_records (bs : list (Z * list Z)) (junk : list Z) :
  Forall ips_fits bs →
  Forall (λ b, b.2 ≠ []) bs →
  Forall (λ b, b.1 ≠ _ips_bogo_address) bs →
  from_ips (_ips_header ++ concat (ips_record <$> bs) ++ _ips_footer ++ junk)
  = Ok (from_blocks bs).
Proof. apply from_ips_header_records. Qed.

Lemma from_ips_records_witness :
  Forall ips_fits [(5, [1; 2; 3]); (6, [9; 9; 9; 9; 9])]
  ∧ from_ips (_ips_header ++ [0; 0; 5; 0; 3; 1; 2; 3]
              ++ [0; 0; 6; 0; 0; 0; 5; 9] ++ _ips_footer ++ [1; 2; 3])
    = Ok (from_blocks [(5, [1; 2; 3]); (6, [9; 9; 9; 9; 9])])
  ∧ changes (from_blocks [(5, [1; 2; 3]); (6, [9; 9; 9; 9; 9])]) !! 6
    = Some 9.
Proof.
  assert (Forall ips_fits [(5, [1; 2; 3]); (6, [9; 9; 9; 9; 9])]) as Hfit
    by (apply (bool_decide_unpack _); vm_compute; exact I).
  split; [exact Hfit|]. split; [|vm_compute; reflexivity].
  apply (from_ips_records [(5, [1; 2; 3]); (6, [9; 9; 9; 9; 9])] [1; 2; 3]
           Hfit).
  - repeat constructor; done.
  - repeat constructor; by vm_compute.
Defined.

(** A step of the reader hands on a suffix of the file. *)
Lemma from_ips_step_suffix (f f' : list Z) (ch ch' : gmap Z Z) :
  from_ips_step f ch = IpsNext ch' f' →
  ∃ k, f' = drop k f ∧ (length f' < length f)%nat.
Proof.
  unfold from_ips_step, read.
  destruct (decide (take _ f = _ips_footer)); [discriminate|].
  destruct (decide (from_bytes _ > 0)) as [Hsz|Hsz].
  - intros [= _ <-]. rewrite !drop_drop. eexists. split; [done|].
    rewrite length_drop.
    destruct (take (Z.to_nat 2) (drop (Z.to_nat 3) f)) as [|x l] eqn:Hd.
    { unfold from_bytes in Hsz. simpl in Hsz. lia. }
    assert (length (take (Z.to_nat 2) (drop (Z.to_nat 3) f)) = S (length l))
      as Hl by by rewrite Hd.
    rewrite length_take, length_drop in Hl. lia.
  - destruct (take (Z.to_nat 1) _) as [|value v] eqn:Hv; [discriminate|].
    intros [= _ <-]. rewrite !drop_drop. eexists. split; [done|].
    assert (length (take (Z.to_nat 1)
              (drop (Z.to_nat 2) (drop (Z.to_nat 2) (drop (Z.to_nat 3) f))))
            = S (length v)) as Hl by by rewrite Hv.
    rewrite length_take, !length_drop in Hl. rewrite length_drop. lia.
Qed.

Lemma from_ips_loop_footer (n : nat) (f : list Z) (ch ch' : gmap Z Z) :
  (length f < n)%nat → from_ips_loop f ch = Ok ch' →
  ∃ pre post, f = pre ++ _ips_footer ++ post.
Proof.
  revert f ch. induction n as [|n IH]; intros f ch Hn; [lia|].
  rewrite from_ips_loop_step.
  destruct (from_ips_step f ch) as [|e|ch1 f1] eqn:Hstep; [|done|].
  - intros _. unfold from_ips_step, read in Hstep.
    destruct (decide (take (Z.to_nat 3) f = _ips_footer)) as [Hfoot|];
      [|by repeat case_match].
    exists [], (drop (Z.to_nat 3) f). rewrite app_nil_l, <- Hfoot.
    by rewrite take_drop.
  - intros Hloop. apply from_ips_step_suffix in Hstep as (k & -> & Hlen).
    destruct (IH (drop k f) ch1) as (pre & post & Hf); [lia|done|].
    exists (take k f ++ pre), post.
    rewrite <- (assoc_L (++)), <- Hf. by rewrite take_drop.
Qed.

(** X2: the binary reader succeeds only on a file that has the header and,
    somewhere behind it, the footer; a file cut off before the footer
    raises. *)
Theorem from_ips_needs_footer (f : list Z) (p : Patch) :
  from_ips f = Ok p →
  take 5 f = _ips_header
  ∧ ∃ pre post, drop 5 f = pre ++ _ips_footer ++ post.
Proof.
  unfold from_ips, read. change (Z.to_nat 5) with 5%nat. cbv beta iota.
  destruct (negb (utf8_valid 0 128 191 (take 5 f))); [intros [=]|].
  destruct (decide (take 5 f = _ips_header)) as [Hh|]; [|intros [=]].
  intros Hp. apply bind_Ok in Hp as (ch & Hloop & _).
  split; [done|].
  apply (from_ips_loop_footer (S (length (drop 5 f))) _ ∅ ch); [lia|done].
Qed.

Lemma from_ips_needs_footer_witness :
  from_ips (_ips_header ++ [0; 0; 5; 0; 1; 7] ++ _ips_footer)
  = Ok (mkPatch {[ 5 := 7 ]})
  ∧ ∃ pre post, drop 5 (_ips_header ++ [0; 0; 5; 0; 1; 7] ++ _ips_footer)
                = pre ++ _ips_footer ++ post.
Proof.
  assert (from_ips (_ips_header ++ [0; 0; 5; 0; 1; 7] ++ _ips_footer)
          = Ok (mkPatch {[ 5 := 7 ]})) as H by (vm_compute; reflexivity).
  split; [exact H|]. exact (proj2 (from_ips_needs_footer _ _ H)).
Defined.

(** ** What the blocks hold *)

(** The value blocks write at an offset, when the blocks that cover an
    offset agree on the block: the byte of the covering block. *)
Lemma from_blocks_lookup (bs : list (Z * list Z)) (k v : Z) :
  (∀ b1 b2, b1 ∈ bs → b2 ∈ bs → covers b1 k → covers b2 k → b1 = b2) →
  changes (from_blocks bs) !! k = Some v
  ↔ ∃ b, b ∈ bs ∧ covers b k ∧ b.2 !! Z.to_nat (k - b.1) = Some v.
Proof.
  induction bs as [|[s d] bs IH] using rev_ind; intros Hfun.
  - split; [intros Hk; destruct (lookup_empty_Some (M:=gmap Z) k v Hk)|].
    intros (b & Hb & _). by apply elem_of_nil in Hb.
  - rewrite from_blocks_snoc, set_block_lookup. case_decide as Hk.
    + split.
      * intros Hv. exists (s, d). split; [apply elem_of_app; right; left|].
        by split.
      * intros (b & Hb & Hc & Hv).
        assert (b = (s, d)) as ->; [|done].
        apply Hfun; [done|apply elem_of_app; right; left|done|done].
    + rewrite IH.
      * split; intros (b & Hb & Hc & Hv).
        -- exists b. split; [apply elem_of_app; by left|done].
        -- apply elem_of_app in Hb as [Hb|Hb]; [by exists b|].
           apply list_elem_of_singleton in Hb as ->. by destruct Hk.
      * intros b1 b2 Hb1 Hb2. apply Hfun; apply elem_of_app; by left.
Qed.

(** Maximal runs do not overlap. *)
Lemma maximal_runs_functional (bs : list (Z * list Z)) (k : Z) :
  maximal_runs bs →
  ∀ b1 b2, b1 ∈ bs → b2 ∈ bs → covers b1 k → covers b2 k → b1 = b2.
Proof.
  intros [_ Hs] b1 b2 Hb1 Hb2 Hc1 Hc2.
  apply Sorted_StronglySorted in Hs; [|apply _].
  destruct (StronglySorted_trichotomy _ _ b1 b2 Hs Hb1 Hb2)
    as [->|[Hsep|Hsep]]; [done|exfalso..];
    unfold covers, separated, block_end in *; lia.
Qed.

(** A block of maximal runs, seen from the mapping they make. *)
Lemma maximal_runs_block (bs : list (Z * list Z)) (s : Z) (d : list Z) :
  maximal_runs bs → (s, d) ∈ bs →
  d ≠ []
  ∧ (∀ i : nat, (i < length d)%nat →
       changes (from_blocks bs) !! (s + Z.of_nat i) = d !! i)
  ∧ changes (from_blocks bs) !! (s - 1) = None
  ∧ changes (from_blocks bs) !! (s + Z.of_nat (length d)) = None.
Proof.
  intros Hruns Hin.
  assert (d ≠ []) as Hd.
  { destruct Hruns as [Hne _]. rewrite Forall_forall in Hne.
    by destruct (Hne _ Hin). }
  pose proof (λ k, maximal_runs_functional bs k Hruns) as Hfun.
  pose proof (λ k, proj1 (from_blocks_is_Some bs k)) as Hcov.
  split; [done|]. split_and!.
  - intros i Hi. destruct (lookup_lt_is_Some_2 d i Hi) as [v Hv].
    rewrite Hv. apply from_blocks_lookup; [apply Hfun|].
    exists (s, d). split; [done|]. unfold covers, block_end. simpl.
    split; [lia|]. by replace (Z.to_nat (s + Z.of_nat i - s)) with i by lia.
  - destruct (changes (from_blocks bs) !! (s - 1)) as [v|] eqn:Hv; [|done].
    exfalso.
    destruct (Hcov (s - 1)) as (b & Hb & Hc); [by rewrite Hv|].
    destruct Hruns as [_ Hs]. apply Sorted_StronglySorted in Hs; [|apply _].
    destruct (StronglySorted_trichotomy _ _ b (s, d) Hs Hb Hin)
      as [->|[Hsep|Hsep]];
      unfold covers, separated, block_end in *; simpl in *; lia.
  - destruct (changes (from_blocks bs) !! (s + Z.of_nat (length d)))
      as [v|] eqn:Hv; [|done].
    exfalso.
    destruct (Hcov (s + Z.of_nat (length d))) as (b & Hb & Hc);
      [by rewrite Hv|].
    destruct Hruns as [_ Hs]. apply Sorted_StronglySorted in Hs; [|apply _].
    destruct (StronglySorted_trichotomy _ _ b (s, d) Hs Hb Hin)
      as [->|[Hsep|Hsep]];
      unfold covers, separated, block_end in *; simpl in *; lia.
Qed.

(** X3: every block [_blockify] returns is a maximal run of the mapping:
    it is not empty, its bytes are the values of the mapping at the
    consecutive offsets from its start, and the mapping has no entry
    right before its start nor right behind its end. *)
Theorem blockify_block_contents (M : gmap Z Z) (bs : list (Z * list Z))
    (s : Z) (d : list Z) :
  _blockify M = Ok bs → (s, d) ∈ bs →
  d ≠ []
  ∧ (∀ i : nat, (i < length d)%nat → M !! (s + Z.of_nat i) = d !! i)
  ∧ M !! (s - 1) = None
  ∧ M !! (s + Z.of_nat (length d)) = None.
Proof.
  intros Hbs Hin. destruct (blockify_Ok M bs Hbs) as (_ & Hch & Hruns).
  rewrite <- Hch. by apply maximal_runs_block.
Qed.

Lemma blockify_block_contents_witness :
  let M : gmap Z Z := list_to_map [(10, 0xAA); (11, 0xBB); (13, 0xCC)] in
  _blockify M = Ok [(10, [0xAA; 0xBB]); (13, [0xCC])]
  ∧ M !! 9 = None ∧ M !! 12 = None.
Proof.
  intros M.
  assert (_blockify M = Ok [(10, [0xAA; 0xBB]); (13, [0xCC])]) as Hbs
    by (vm_compute; reflexivity).
  split; [exact Hbs|].
  destruct (blockify_block_contents M _ 10 [0xAA; 0xBB] Hbs)
    as (_ & _ & H9 & H12); [left|]. by split.
Defined.

(** ** Values that are no bytes *)

Lemma blockify_step_not_byte (st : blockify_state) (m : gmap Z Z) (k v : Z) :
  blockify_inv st m → ¬ is_byte v →
  blockify_step st (k, v) = Raise ValueError.
Proof.
  unfold blockify_inv, blockify_step, bytearray_append, is_byte.
  intros Hinv Hv.
  destruct (start st), (offset st); try done.
  - case_decide; by rewrite decide_False.
  - by rewrite decide_False.
Qed.

Lemma blockify_fold_raises (l : list (Z * Z)) (st : blockify_state)
    (m : gmap Z Z) :
  StronglySorted key_lt l →
  blockify_inv st m →
  (∀ o, offset st = Some o → Forall (λ kv, o < kv.1) l) →
  Exists (λ kv, ¬ is_byte kv.2) l →
  foldM blockify_step st l = Raise ValueError.
Proof.
  intros Hs. revert st m.
  induction Hs as [|[k v] l Hs IH Hk]; intros st m Hinv Hoff Hex.
  - by apply Exists_nil in Hex.
  - rewrite foldM_cons. destruct (decide (is_byte v)) as [Hv|Hv].
    + destruct (blockify_step_inv st m k v) as (st1 & -> & Hinv1 & Hoff1);
        [done| |done|].
      { intros o Ho. specialize (Hoff o Ho).
        by apply Forall_cons in Hoff as [? _]. }
      simpl. apply (IH st1 (<[k := v]> m)); [done| |].
      * intros o Ho. rewrite Hoff1 in Ho. injection Ho as <-. exact Hk.
      * apply Exists_cons in Hex as [Hex|Hex]; [done|exact Hex].
    + by rewrite (blockify_step_not_byte st m k v).
Qed.

(** X4: a mapping with a value outside [0, 256) cannot be merged into
    blocks: [_blockify] raises the value error of [bytearray.append], and
    both writers raise it before they write anything. *)
Theorem blockify_not_bytes (M : gmap Z Z) (bogobyte : option Z) :
  ¬ map_Forall (λ _ v, is_byte v) M →
  _blockify M = Raise ValueError
  ∧ (∀ f, to_ips (mkPatch M) bogobyte f = (f, Raise ValueError))
  ∧ (∀ f, to_ipst (mkPatch M) bogobyte f = (f, Raise ValueError)).
Proof.
  intros HM.
  assert (_blockify M = Raise ValueError) as Hb.
  { unfold _blockify.
    rewrite (blockify_fold_raises _ _ ∅); [done| |done| |].
    - apply sorted_strict, NoDup_fst_map_to_list.
    - intros o [=].
    - apply not_Forall_Exists; [intros x; apply _|]. intros Hall.
      apply HM. intros k v Hkv. rewrite Forall_forall in Hall.
      apply elem_of_map_to_list in Hkv.
      apply (Hall (k, v)). by rewrite (sorted_Permutation (map_to_list M)). }
  assert (_ips_sanitize_changes (mkPatch M) bogobyte = Raise ValueError)
    as Hs by (unfold _ips_sanitize_changes; simpl changes; by rewrite Hb).
  split_and!; [done| |].
  - intros f. by apply to_ips_sanitize_raises.
  - intros f. by apply to_ipst_sanitize_raises.
Qed.

Lemma blockify_not_bytes_witness :
  ¬ map_Forall (λ _ v, is_byte v) ({[ 3 := 256 ]} : gmap Z Z)
  ∧ _blockify {[ 3 := 256 ]} = Raise ValueError.
Proof.
  assert (¬ map_Forall (λ _ v, is_byte v) ({[ 3 := 256 ]} : gmap Z Z)) as H.
  { intros H. specialize (H 3 256 (lookup_singleton_eq 3 256)).
    unfold is_byte in H. lia. }
  split; [exact H|]. exact (proj1 (blockify_not_bytes _ None H)).
Defined.

(** ** Writing a block at the sentinel address and reading it back *)

Lemma elem_of_dict_get {V} (k : Z) (v : V) (d : list (Z * V)) :
  NoDup d.*1 → (k, v) ∈ d → dict_get k d = Some v.
Proof.
  induction d as [|[k' v'] d IH]; intros Hnd Hin; [by apply elem_of_nil in Hin|].
  rewrite fmap_cons in Hnd. apply NoDup_cons in Hnd as [Hk' Hnd]. simpl.
  apply elem_of_cons in Hin as [[= -> ->]|Hin]; [by rewrite decide_True|].
  rewrite decide_False; [by apply IH|].
  intros ->. apply Hk'. apply list_elem_of_fmap. by exists (k, v).
Qed.

Lemma dict_pop_elems {V} (k : Z) (v : V) (d d' : list (Z * V)) :
  dict_pop k d = Ok (v, d') → NoDup d.*1 →
  NoDup d'.*1 ∧ ∀ x, x ∈ d' ↔ x ∈ d ∧ x.1 ≠ k.
Proof.
  revert d'. induction d as [|[k0 v0] d IH]; intros d'; simpl; [done|].
  intros Hpop Hnd. apply NoDup_cons in Hnd as [Hk0 Hnd].
  destruct (decide (k0 = k)) as [->|Hne].
  - injection Hpop as -> ->. split; [done|]. intros x. split.
    + intros Hx. split; [by right|]. intros Hk. apply Hk0. rewrite <- Hk.
      apply list_elem_of_fmap. by exists x.
    + intros [Hx Hk]. apply elem_of_cons in Hx as [->|Hx]; [done|done].
  - apply bind_Ok in Hpop as ([v1 d1] & Hpop & [= -> <-]).
    destruct (IH d1 Hpop Hnd) as [Hnd1 Hel]. split.
    + rewrite fmap_cons. apply NoDup_cons. split; [|done].
      intros Hin. apply Hk0. apply list_elem_of_fmap in Hin as (x & Hx1 & Hx).
      apply Hel in Hx as [Hx _]. apply list_elem_of_fmap. by exists x.
    + intros x. rewrite !elem_of_cons, Hel. split.
      * intros [->|[Hx Hk]]; [by split; [left|]|]. split; [by right|done].
      * intros [[->|Hx] Hk]; [by left|]. right. by split.
Qed.

(** The blocks handed to the writers when a block starts at the sentinel
    address: still apart from each other, the bogo byte and the block at
    the address before the sentinel, the other blocks as they were. *)
Lemma sanitized_blocks (bs : list (Z * list Z)) (d : list Z) (b : Z) :
  maximal_runs bs → dict_get _ips_bogo_address bs = Some d →
  ∃ bs0, dict_pop _ips_bogo_address bs = Ok (d, bs0)
    ∧ dict_set (_ips_bogo_address - 1) (b :: d) bs0
      = bs0 ++ [(_ips_bogo_address - 1, b :: d)]
    ∧ (∀ x, x ∈ bs0 ↔ x ∈ bs ∧ x.1 ≠ _ips_bogo_address)
    ∧ (∀ x k, x ∈ bs0 → covers x k →
              ¬ covers (_ips_bogo_address - 1, b :: d) k).
Proof.
  intros Hruns Hget.
  pose proof (key_lt_NoDup bs (maximal_runs_strict bs Hruns)) as Hnd.
  destruct (dict_pop_Some _ips_bogo_address d bs Hget Hnd)
    as (bs0 & Hpop & _ & Hother).
  destruct (dict_pop_elems _ d bs bs0 Hpop Hnd) as [Hnd0 Hel].
  exists bs0. split_and!; [done| |done|].
  - apply dict_set_fresh. apply dict_get_None.
    rewrite Hother by lia. by eapply maximal_runs_no_adjacent.
  - intros x k Hx Hc Hc'. apply Hel in Hx as [Hx Hx1].
    pose proof (dict_get_elem_of _ _ _ Hget) as Hin.
    destruct Hruns as [_ Hs]. apply Sorted_StronglySorted in Hs; [|apply _].
    destruct (StronglySorted_trichotomy _ _ x (_ips_bogo_address, d) Hs Hx Hin)
      as [->|[Hsep|Hsep]]; [done|..];
      unfold covers, separated, block_end in *; simpl in *; lia.
Qed.

Lemma sanitized_lookup (M : gmap Z Z) (bs bs0 bs' : list (Z * list Z))
    (d : list Z) (b k : Z) :
  maximal_runs bs → changes (from_blocks bs) = M →
  dict_get _ips_bogo_address bs = Some d →
  (∀ x, x ∈ bs0 ↔ x ∈ bs ∧ x.1 ≠ _ips_bogo_address) →
  (∀ x k, x ∈ bs0 → covers x k →
          ¬ covers (_ips_bogo_address - 1, b :: d) k) →
  bs' ≡ₚ bs0 ++ [(_ips_bogo_address - 1, b :: d)] →
  changes (from_blocks bs') !! k = (<[_ips_bogo_address - 1 := b]> M) !! k.
Proof.
  intros Hruns HM Hget Hel Hapart Hperm.
  set (new := (_ips_bogo_address - 1, b :: d)).
  pose proof (dict_get_elem_of _ _ _ Hget) as Hin.
  pose proof (maximal_runs_functional bs k Hruns) as Hfun.
  assert (∀ x, x ∈ bs' ↔ x ∈ bs0 ∨ x = new) as Hel'.
  { intros x. rewrite Hperm, elem_of_app, list_elem_of_singleton. done. }
  assert (∀ b1 b2, b1 ∈ bs' → b2 ∈ bs' → covers b1 k → covers b2 k → b1 = b2)
    as Hfun'.
  { intros b1 b2 H1 H2 Hc1 Hc2. apply Hel' in H1, H2.
    destruct H1 as [H1| ->], H2 as [H2| ->]; [|exfalso..|done].
    - apply Hfun; [by apply Hel in H1 as [? _]|by apply Hel in H2 as [? _]|
                   done..].
    - by apply (Hapart b1 k).
    - by apply (Hapart b2 k). }
  apply option_eq. intros v.
  rewrite (from_blocks_lookup bs' k v Hfun').
  destruct (decide (k = _ips_bogo_address - 1)) as [->|Hk].
  - rewrite lookup_insert_eq. split.
    + intros (x & Hx & Hc & Hv). apply Hel' in Hx as [Hx| ->].
      * exfalso. apply (Hapart x _ Hx Hc).
        unfold covers, block_end. simpl. lia.
      * unfold new in Hv. cbn [fst snd] in Hv. rewrite Z.sub_diag in Hv.
        simpl in Hv. done.
    + intros [= <-]. exists new. split; [apply Hel'; by right|].
      split; [unfold covers, block_end; simpl; lia|].
      unfold new. cbn [fst snd]. by rewrite Z.sub_diag.
  - rewrite lookup_insert_ne by done. rewrite <- HM.
    rewrite (from_blocks_lookup bs k v Hfun). split.
    + intros (x & Hx & Hc & Hv). apply Hel' in Hx as [Hx| ->].
      * exists x. split; [by apply Hel in Hx as [? _]|done].
      * exists (_ips_bogo_address, d). split; [done|].
        unfold covers, block_end in *. simpl in *. split; [lia|].
        replace (Z.to_nat (k - (_ips_bogo_address - 1)))
          with (S (Z.to_nat (k - _ips_bogo_address))) in Hv by lia.
        done.
    + intros (x & Hx & Hc & Hv).
      destruct (decide (x.1 = _ips_bogo_address)) as [Hx1|Hx1].
      * assert (x = (_ips_bogo_address, d)) as ->.
        { destruct x as [x1 x2]. simpl in Hx1. subst x1. f_equal.
          pose proof (key_lt_NoDup bs (maximal_runs_strict bs Hruns)) as Hnd.
          apply (elem_of_dict_get _ _ _ Hnd) in Hx. congruence. }
        exists new. split; [apply Hel'; by right|].
        unfold covers, block_end in *. simpl in *. split; [lia|].
        replace (Z.to_nat (k - (_ips_bogo_address - 1)))
          with (S (Z.to_nat (k - _ips_bogo_address))) by lia.
        done.
      * exists x. split; [|done]. apply Hel'. left. by apply Hel.
Qed.

(** X5: when a block of the mapping starts at the sentinel address and a
    bogo byte [b] is given, what the binary writer writes is read back as
    the mapping with one more entry, the bogo byte at the address before
    the sentinel: the shifted block costs one byte of the image.  The
    blocks have to fit the record fields, the shifted block with its one
    more byte as well. *)
Theorem bogo_roundtrip (M : gmap Z Z) (bs : list (Z * list Z))
    (d : list Z) (b : Z) :
  _blockify M = Ok bs →
  dict_get _ips_bogo_address bs = Some d →
  is_byte b →
  Forall ips_fits bs → Z.of_nat (length d) < 0xFFFF →
  ∃ out, to_ips (mkPatch M) (Some b) [] = (out, Ok ())
         ∧ from_ips out = Ok (mkPatch (<[_ips_bogo_address - 1 := b]> M)).
Proof.
  intros Hbs Hget Hb Hfit Hlen.
  destruct (blockify_Ok M bs Hbs) as (_ & Hch & Hruns).
  destruct (sanitized_blocks bs d b Hruns Hget)
    as (bs0 & Hpop & Hset & Hel & Hapart).
  set (new := (_ips_bogo_address - 1, b :: d)) in *.
  assert (_ips_sanitize_changes (mkPatch M) (Some b) = Ok (bs0 ++ [new]))
    as Hs.
  { unfold _ips_sanitize_changes. simpl changes. rewrite Hbs. simpl.
    rewrite Hpop. rewrite to_bytes_byte by done. simpl. by rewrite Hset. }
  assert (∀ x, x ∈ bs0 ++ [new] → ips_fits x ∧ x.2 ≠ []
                                  ∧ x.1 ≠ _ips_bogo_address) as Hall.
  { intros x Hx. apply elem_of_app in Hx as [Hx|Hx].
    - apply Hel in Hx as [Hx Hx1]. rewrite Forall_forall in Hfit.
      split; [by apply Hfit|]. split; [|done].
      destruct Hruns as [Hne _]. rewrite Forall_forall in Hne.
      by destruct (Hne _ Hx).
    - apply list_elem_of_singleton in Hx as ->. unfold new, ips_fits.
      simpl. split_and!; [done|done|lia|done|done]. }
  exists (ips_file (bs0 ++ [new])). split.
  - rewrite <- (app_nil_l (ips_file _)).
    apply to_ips_sanitized; [done|]. apply Forall_forall. intros x Hx.
    by destruct (Hall x Hx).
  - unfold ips_file.
    replace (_ips_footer) with (_ips_footer ++ []) by apply app_nil_r.
    rewrite from_ips_header_records.
    + f_equal. destruct (from_blocks (sorted (bs0 ++ [new]))) as [m] eqn:Hm.
      f_equal. apply map_eq. intros k.
      change m with (changes (mkPatch m)). rewrite <- Hm.
      apply (sanitized_lookup M bs bs0 _ d b k); try done.
      apply sorted_Permutation.
    + apply Forall_forall. intros x Hx.
      rewrite (sorted_Permutation _) in Hx. by destruct (Hall x Hx).
    + apply Forall_forall. intros x Hx.
      rewrite (sorted_Permutation _) in Hx. by destruct (Hall x Hx) as (_ & ? & _).
    + apply Forall_forall. intros x Hx.
      rewrite (sorted_Permutation _) in Hx. by destruct (Hall x Hx) as (_ & _ & ?).
Qed.

Lemma bogo_roundtrip_witness :
  let M : gmap Z Z := list_to_map [(0x454f46, 7); (0x454f47, 8)] in
  _blockify M = Ok [(0x454f46, [7; 8])]
  ∧ Forall ips_fits [(0x454f46, [7; 8])]
  ∧ ∃ out, to_ips (mkPatch M) (Some 0) [] = (out, Ok ())
           ∧ from_ips out = Ok (mkPatch (<[0x454f45 := 0]> M)).
Proof.
  intros M.
  assert (_blockify M = Ok [(0x454f46, [7; 8])]) as Hbs
    by (vm_compute; reflexivity).
  assert (Forall ips_fits [(0x454f46, [7; 8])]) as Hfit
    by (apply (bool_decide_unpack _); vm_compute; exact I).
  split; [exact Hbs|]. split; [exact Hfit|].
  apply (bogo_roundtrip M _ [7; 8] 0 Hbs); [reflexivity| |exact Hfit|].
  - unfold is_byte. lia.
  - simpl. lia.
Defined.

(** * The text format read back *)

Lemma string_forall_app (P : ascii → bool) (s1 s2 : string) :
  string_forall P (s1 +:+ s2) = string_forall P s1 && string_forall P s2.
Proof.
  induction s1 as [|c s1 IH]; [done|]. simpl. by rewrite IH, andb_assoc.
Qed.

Lemma string_forall_impl (P Q : ascii → bool) (s : string) :
  (∀ c, P c = true → Q c = true) →
  string_forall P s = true → string_forall Q s = true.
Proof.
  intros HPQ. induction s as [|c s IH]; [done|]. simpl.
  rewrite !andb_true_iff. intros [Hc Hs]. split; [by apply HPQ|by apply IH].
Qed.

Lemma hex_char_space (c : ascii) : is_line_char c = true → isspace c = false.
Proof. destruct c as [[] [] [] [] [] [] [] []]; vm_compute; done. Qed.

Lemma hex_char_hash (c : ascii) :
  is_line_char c = true → bool_decide (c = "#"%char) = false.
Proof. destruct c as [[] [] [] [] [] [] [] []]; vm_compute; done. Qed.

Lemma hex_char_colon (c : ascii) :
  is_field_char c = true → bool_decide (c = ":"%char) = false.
Proof. destruct c as [[] [] [] [] [] [] [] []]; vm_compute; done. Qed.

Lemma hex_char_digit (c : ascii) :
  is_hex_char c = true →
  bool_decide (c = "_"%char) = false ∧ is_Some (digit_value 16 c).
Proof.
  destruct c as [[] [] [] [] [] [] [] []]; vm_compute; try done;
    intros _; split; try done; eexists; reflexivity.
Qed.

Lemma hex_digit_value (d : Z) :
  0 ≤ d < 16 →
  is_hex_char (hex_digit d) = true
  ∧ bool_decide (hex_digit d = "_"%char) = false
  ∧ digit_value 16 (hex_digit d) = Some d.
Proof.
  intros Hd.
  assert (d = 0 ∨ d = 1 ∨ d = 2 ∨ d = 3 ∨ d = 4 ∨ d = 5 ∨ d = 6 ∨ d = 7
          ∨ d = 8 ∨ d = 9 ∨ d = 10 ∨ d = 11 ∨ d = 12 ∨ d = 13 ∨ d = 14
          ∨ d = 15) as Hcases by lia.
  destruct_or!; subst d; vm_compute; done.
Qed.

Lemma hex_chars_zeros (k : nat) : string_forall is_hex_char (zeros k) = true.
Proof. induction k as [|k IH]; [done|]. simpl. by rewrite IH. Qed.

Lemma hex_chars_digits (fuel : nat) (n : Z) (acc : string) :
  0 ≤ n → string_forall is_hex_char acc = true →
  string_forall is_hex_char (hex_digits fuel n acc) = true.
Proof.
  revert n acc. induction fuel as [|fuel IH]; intros n acc Hn Hacc; [done|].
  simpl.
  assert (string_forall is_hex_char (String (hex_digit (n mod 16)) acc) = true)
    as Hacc'.
  { simpl. rewrite Hacc, andb_true_r.
    apply hex_digit_value. by apply Z.mod_pos_bound. }
  case_bool_decide; [done|]. apply IH; [|done]. by apply Z.div_pos.
Qed.

(** Reading the digits [hex_digits] writes: the number, behind whatever
    was read before them. *)
Lemma parse_hex_digits (fuel : nat) (n : Z) (rest : string) :
  0 ≤ n < 16 ^ Z.of_nat (S fuel) →
  ∃ k, 0 ≤ k ∧ ∀ a b,
    parse_digits 16 b a (hex_digits (S fuel) n rest)
    = parse_digits 16 true (a * 16 ^ k + n) rest.
Proof.
  revert n rest. induction fuel as [|fuel IH]; intros n rest Hn.
  - exists 1. split; [lia|]. intros a b.
    assert (n / 16 = 0) as Hq by (apply Z.div_small; simpl in Hn; lia).
    assert (n mod 16 = n) as Hr by (apply Z.mod_small; simpl in Hn; lia).
    simpl. rewrite bool_decide_eq_true_2 by done. simpl.
    destruct (hex_digit_value (n mod 16)) as (_ & -> & ->);
      [by apply Z.mod_pos_bound|].
    by rewrite Hr, Z.pow_1_r.
  - pose proof (Z.div_mod n 16 ltac:(lia)) as Hdm.
    pose proof (Z.mod_pos_bound n 16 ltac:(lia)) as Hmod.
    change (hex_digits (S (S fuel)) n rest)
      with (let acc' := String (hex_digit (n mod 16)) rest in
            if bool_decide (n / 16 = 0) then acc'
            else hex_digits (S fuel) (n / 16) acc').
    cbv zeta. case_bool_decide as Hq.
    + exists 1. split; [lia|]. intros a b. simpl.
      destruct (hex_digit_value (n mod 16)) as (_ & -> & ->); [done|].
      rewrite Z.pow_1_r. f_equal. lia.
    + destruct (IH (n / 16) (String (hex_digit (n mod 16)) rest)) as (k & Hk & Hp).
      { split; [apply Z.div_pos; lia|].
        apply Z.div_lt_upper_bound; [lia|].
        rewrite Nat2Z.inj_succ, Z.pow_succ_r in Hn by lia. lia. }
      exists (Z.succ k). split; [lia|]. intros a b. rewrite Hp.
      simpl.
      destruct (hex_digit_value (n mod 16)) as (_ & -> & ->); [done|].
      f_equal. rewrite Z.pow_succ_r by done.
      set (P := 16 ^ k). set (q := n / 16) in *. set (r := n mod 16) in *.
      lia.
Qed.

Lemma log2_fuel (m : Z) :
  0 ≤ m → m < 16 ^ Z.of_nat (S (Z.to_nat (Z.log2 m))).
Proof.
  intros Hm. rewrite Nat2Z.inj_succ, Z2Nat.id by apply Z.log2_nonneg.
  destruct (decide (m = 0)) as [->|Hne]; [done|].
  pose proof (Z.log2_spec m ltac:(lia)) as [_ Hlt].
  eapply Z.lt_le_trans; [exact Hlt|].
  apply Z.pow_le_mono_l. lia.
Qed.

Lemma parse_zeros_digits (k fuel : nat) (m : Z) (b : bool) :
  0 ≤ m < 16 ^ Z.of_nat (S fuel) →
  parse_digits 16 b 0 (zeros k +:+ hex_digits (S fuel) m EmptyString) = Some m.
Proof.
  intros Hm. revert b. induction k as [|k IH]; intros b.
  - destruct (parse_hex_digits fuel m EmptyString Hm) as (j & _ & ->). done.
  - change (zeros (S k) +:+ ?s) with (String "0" (zeros k +:+ s)).
    change (parse_digits 16 b 0 (String "0" ?s))
      with (parse_digits 16 true 0 s). apply IH.
Qed.

Lemma hex_char_int_space (c : ascii) :
  is_line_char c = true → int_space c = false.
Proof. destruct c as [[] [] [] [] [] [] [] []]; vm_compute; done. Qed.

Lemma strip_id (s : string) :
  string_forall is_line_char s = true →
  int_lstrip s = s ∧ int_rstrip s = s.
Proof.
  intros Hs. split.
  - destruct s as [|c s]; [done|]. simpl in *.
    apply andb_true_iff in Hs as [Hc _].
    by rewrite (hex_char_int_space c Hc).
  - induction s as [|c s IH]; [done|]. simpl in *.
    apply andb_true_iff in Hs as [Hc Hs]. rewrite (IH Hs).
    rewrite (hex_char_int_space c Hc). by destruct s.
Qed.

Lemma rstrip_newline (s : string) :
  string_forall is_line_char s = true → rstrip (s +:+ newline) = s.
Proof.
  induction s as [|c s IH]; [done|]. simpl.
  intros Hs. apply andb_true_iff in Hs as [Hc Hs]. rewrite (IH Hs).
  rewrite (hex_char_space c Hc). by destruct s.
Qed.

Lemma skip_prefix_hex (s : string) :
  string_forall is_hex_char s = true → skip_prefix 16 s = s.
Proof.
  destruct s as [|c [|x s]]; [done|..]; simpl; intros Hs.
  - by destruct c as [[] [] [] [] [] [] [] []].
  - apply andb_true_iff in Hs as [_ Hs]. apply andb_true_iff in Hs as [Hx _].
    assert (bool_decide (x = "x"%char) || bool_decide (x = "X"%char) = false)
      as Hxx.
    { clear -Hx. destruct x as [[] [] [] [] [] [] [] []]; vm_compute in *; done. }
    destruct c as [[] [] [] [] [] [] [] []]; try done.
    by rewrite Hxx.
Qed.

Lemma int_hex (s : string) (m : Z) :
  string_forall is_hex_char s = true →
  parse_digits 16 false 0 s = Some m →
  int s 16 = Ok m ∧ int (String "-" s) 16 = Ok (- m).
Proof.
  intros Hs Hp.
  assert (string_forall is_line_char s = true) as Hl.
  { revert Hs. apply string_forall_impl. intros c Hc.
    unfold is_line_char, is_field_char. by rewrite Hc. }
  destruct (strip_id s Hl) as [Hls Hrs]. split.
  - unfold int. rewrite Hls, Hrs.
    destruct s as [|c s]; [done|].
    assert (c ≠ "-"%char ∧ c ≠ "+"%char) as [Hm Hpl].
    { simpl in Hs. apply andb_true_iff in Hs as [Hc _]. clear -Hc.
      split; intros ->; vm_compute in Hc; done. }
    assert (match String c s with
            | String "-" s' => (-1, s')
            | String "+" s' => (1, s')
            | _ => (1, String c s)
            end = (1, String c s)) as ->.
    { clear -Hm Hpl. by destruct c as [[] [] [] [] [] [] [] []]. }
    rewrite skip_prefix_hex by done. rewrite Hp. f_equal; lia.
  - unfold int.
    assert (int_rstrip (int_lstrip (String "-" s)) = String "-" s) as ->.
    { change (int_lstrip (String "-" s)) with (String "-" s).
      change (int_rstrip (String "-" s))
        with (match int_rstrip s with
              | EmptyString => String "-" EmptyString
              | r => String "-" r
              end).
      rewrite Hrs. by destruct s. }
    cbv beta iota. rewrite skip_prefix_hex by done. rewrite Hp.
    f_equal; lia.
Qed.

(** What [format] writes in hexadecimal, [int] reads back in base 16,
    whatever the width and the sign. *)
Lemma int_format_X (w : nat) (n : Z) : int (format_X w n) 16 = Ok n.
Proof.
  unfold format_X.
  set (m := Z.abs n).
  set (fuel := Z.to_nat (Z.log2 m)).
  set (digits := hex_digits (S fuel) m EmptyString).
  assert (0 ≤ m) as Hm by lia.
  assert (string_forall is_hex_char digits = true) as Hd
    by by apply hex_chars_digits.
  assert (∀ k, int (zeros k +:+ digits) 16 = Ok m
               ∧ int (String "-" (zeros k +:+ digits)) 16 = Ok (- m)) as Hint.
  { intros k. apply int_hex.
    - by rewrite string_forall_app, hex_chars_zeros, Hd.
    - apply parse_zeros_digits. split; [done|]. by apply log2_fuel. }
  case_bool_decide as Hn.
  - destruct (Hint (w - 1 - String.length digits)%nat) as [_ ->]. f_equal. lia.
  - destruct (Hint (w - String.length digits)%nat) as [-> _]. f_equal. lia.
Qed.

Lemma format_X_chars (w : nat) (n : Z) :
  string_forall is_field_char (format_X w n) = true.
Proof.
  unfold format_X.
  set (digits := hex_digits _ _ _).
  assert (string_forall is_field_char digits = true) as Hd.
  { apply (string_forall_impl is_hex_char).
    - intros c Hc. unfold is_field_char. by rewrite Hc.
    - apply hex_chars_digits; [lia|done]. }
  assert (∀ k, string_forall is_field_char (zeros k +:+ digits) = true) as Hz.
  { intros k. rewrite string_forall_app, Hd, andb_true_r.
    apply (string_forall_impl is_hex_char); [|apply hex_chars_zeros].
    intros c Hc. unfold is_field_char. by rewrite Hc. }
  case_bool_decide; [|apply Hz]. simpl. apply Hz.
Qed.

Lemma split_colon_field (s : string) :
  string_forall is_field_char s = true → split_colon s = (s, []).
Proof.
  induction s as [|c s IH]; [done|]. simpl. intros Hs.
  apply andb_true_iff in Hs as [Hc Hs]. rewrite (IH Hs).
  by rewrite (hex_char_colon c Hc).
Qed.

Lemma split_field_colon (s r : string) :
  string_forall is_field_char s = true →
  split (s +:+ ":" +:+ r) = s :: split r.
Proof.
  intros Hs. unfold split.
  assert (split_colon (s +:+ ":" +:+ r)
          = (s, let '(p, ps) := split_colon r in p :: ps)) as ->.
  { induction s as [|c s IH].
    - change (split_colon (EmptyString +:+ ":" +:+ r))
        with (let '(part, parts) := split_colon r in
              if bool_decide (":"%char = ":"%char)
              then (EmptyString, part :: parts)
              else (String ":" part, parts)).
      by destruct (split_colon r).
    - simpl in Hs. apply andb_true_iff in Hs as [Hc Hs].
      change (split_colon (String c s +:+ ":" +:+ r))
        with (let '(part, parts) := split_colon (s +:+ ":" +:+ r) in
              if bool_decide (c = ":"%char) then (EmptyString, part :: parts)
              else (String c part, parts)).
      rewrite (IH Hs). by rewrite (hex_char_colon c Hc). }
  done.
Qed.

Lemma split_rle_line (o n v : Z) :
  split (rle_line o n v)
  = [format_X 6 o; "0000"%string; format_X 4 n; format_X 1 v].
Proof.
  unfold rle_line.
  rewrite split_field_colon by apply format_X_chars.
  rewrite (split_field_colon "0000") by done.
  rewrite split_field_colon by apply format_X_chars.
  unfold split. by rewrite split_colon_field by apply format_X_chars.
Qed.

Lemma rle_line_chars (o n v : Z) :
  string_forall is_line_char (rle_line o n v) = true.
Proof.
  assert (∀ w x, string_forall is_line_char (format_X w x) = true) as Hf.
  { intros w x. apply (string_forall_impl is_field_char); [|apply format_X_chars].
    intros c Hc. unfold is_line_char. by rewrite Hc. }
  unfold rle_line. rewrite !string_forall_app, !Hf. done.
Qed.

Lemma foldM_set_run (ln o n v : Z) (ch : gmap Z Z) :
  v ≤ 0xFF →
  foldM (λ ch i, if bool_decide (v > 0xFF)
                 then Raise (PatchValueError (Some ln))
                 else Ok (<[o + i := v]> ch)) ch (seqZ 0 n)
  = Ok (set_run ch o n v).
Proof.
  intros Hv. unfold set_run. rewrite bool_decide_eq_false_2 by lia.
  generalize (seqZ 0 n). intros l. revert ch.
  induction l as [|i l IH]; intros ch; [done|].
  rewrite foldM_cons. simpl. apply IH.
Qed.

(** The line of a run is read as the run. *)
Lemma from_ipst_line_run (ln o : Z) (d : list Z) (ch : gmap Z Z) :
  use_rle d = true → Forall is_byte d →
  from_ipst_line ln (ipst_line (o, d) +:+ newline) ch
  = Ok (Some (set_block ch o d)).
Proof.
  intros Hrle Hbytes. unfold ipst_line. simpl fst. simpl snd. rewrite Hrle.
  apply use_rle_spec in Hrle as [Hlen Huni].
  destruct (head d) as [v|] eqn:Hv; [|destruct d; [simpl in Hlen; lia|done]].
  simpl default.
  assert (is_byte v) as Hbyte.
  { rewrite Forall_forall in Hbytes. apply Hbytes.
    destruct d; [done|]. injection Hv as ->. left. }
  unfold from_ipst_line.
  rewrite rstrip_newline by apply rle_line_chars.
  rewrite bool_decide_eq_false_2.
  2:{ intros Heq. pose proof (rle_line_chars o (Z.of_nat (length d)) v) as Hc.
      rewrite Heq in Hc. vm_compute in Hc. done. }
  rewrite split_rle_line. rewrite !int_format_X.
  assert (int "0000" 16 = Ok 0) as -> by (vm_compute; reflexivity).
  simpl. rewrite foldM_set_run by (unfold is_byte in Hbyte; lia).
  simpl. do 2 f_equal. rewrite set_run_replicate. f_equal. symmetry.
  by apply uniform_replicate.
Qed.

Lemma format_X_byte (b : Z) :
  is_byte b →
  format_X 2 b
  = String (hex_digit (b / 16)) (String (hex_digit (b mod 16)) EmptyString).
Proof.
  intros Hb.
  assert (Forall (λ b, format_X 2 b
                       = String (hex_digit (b / 16))
                           (String (hex_digit (b mod 16)) EmptyString))
                 (seqZ 0 256)) as Hall
    by (apply (bool_decide_unpack _); vm_compute; exact I).
  rewrite Forall_forall in Hall. apply Hall. apply elem_of_seqZ.
  unfold is_byte in Hb. lia.
Qed.

Lemma hex_digit_not_space (d : Z) :
  0 ≤ d < 16 → is_ascii_space (hex_digit d) = false.
Proof.
  intros Hd.
  assert (d = 0 ∨ d = 1 ∨ d = 2 ∨ d = 3 ∨ d = 4 ∨ d = 5 ∨ d = 6 ∨ d = 7
          ∨ d = 8 ∨ d = 9 ∨ d = 10 ∨ d = 11 ∨ d = 12 ∨ d = 13 ∨ d = 14
          ∨ d = 15) as Hcases by lia.
  destruct_or!; subst d; vm_compute; done.
Qed.

Lemma fromhex_pair (h l : ascii) (hi lo : Z) (rest : string) :
  is_ascii_space h = false →
  digit_value 16 h = Some hi → digit_value 16 l = Some lo →
  fromhex (String h (String l rest))
  = bs ← fromhex rest ; Ok ((hi * 16 + lo) :: bs).
Proof. intros Hs Hh Hl. simpl. by rewrite Hs, Hh, Hl. Qed.

(** The bytes of a literal line, written two digits each, are read back
    by [bytes.fromhex]. *)
Lemma fromhex_hex_pairs (d : list Z) :
  Forall is_byte d → fromhex (hex_pairs d) = Ok d.
Proof.
  induction 1 as [|b d Hb _ IH]; [done|].
  unfold hex_pairs in *. simpl foldr. rewrite (format_X_byte b Hb).
  assert (0 ≤ b / 16 < 16) as Hhi
    by (unfold is_byte in Hb; split;
        [apply Z.div_pos; lia|apply Z.div_lt_upper_bound; lia]).
  assert (0 ≤ b mod 16 < 16) as Hlo by (apply Z.mod_pos_bound; lia).
  destruct (hex_digit_value _ Hhi) as (_ & _ & Hvhi).
  destruct (hex_digit_value _ Hlo) as (_ & _ & Hvlo).
  change (String ?h (String ?l EmptyString) +:+ ?r)
    with (String h (String l r)).
  rewrite (fromhex_pair _ _ _ _ _ (hex_digit_not_space _ Hhi) Hvhi Hvlo), IH.
  simpl. do 2 f_equal. pose proof (Z.div_mod b 16 ltac:(lia)). lia.
Qed.

Lemma hex_pairs_chars (d : list Z) :
  string_forall is_field_char (hex_pairs d) = true.
Proof.
  induction d as [|b d IH]; [done|]. unfold hex_pairs in *. simpl foldr.
  by rewrite string_forall_app, format_X_chars, IH.
Qed.

Lemma literal_line_chars (o : Z) (d : list Z) :
  string_forall is_line_char (literal_line o d) = true.
Proof.
  assert (∀ s, string_forall is_field_char s = true
               → string_forall is_line_char s = true) as Hf.
  { intros s. apply string_forall_impl.
    intros c Hc. unfold is_line_char. by rewrite Hc. }
  unfold literal_line. rewrite !string_forall_app.
  rewrite !(Hf (format_X _ _)) by apply format_X_chars.
  by rewrite (Hf (hex_pairs d)) by apply hex_pairs_chars.
Qed.

Lemma split_literal_line (o : Z) (d : list Z) :
  split (literal_line o d)
  = [format_X 6 o; format_X 4 (Z.of_nat (length d)); hex_pairs d].
Proof.
  unfold literal_line.
  rewrite !split_field_colon by apply format_X_chars.
  unfold split. by rewrite split_colon_field by apply hex_pairs_chars.
Qed.

Lemma foldM_set_block (offset : string) (o : Z) (bs : list Z)
    (ch : gmap Z Z) :
  int offset 10 = Ok o →
  foldM (λ ch '(n, b), o ← int offset 10 ; Ok (<[o + Z.of_nat n := b]> ch))
        ch (imap (λ n b, (n, b)) bs)
  = Ok (set_block ch o bs).
Proof.
  intros Hint. unfold set_block. generalize (imap (λ n b, (n, b)) bs).
  intros l. revert ch. induction l as [|[n b] l IH]; intros ch; [done|].
  rewrite foldM_cons. rewrite Hint at 1. simpl. apply IH.
Qed.

Lemma foldM_offset_raises (offset : string) (e : exn) (bs : list Z)
    (ch : gmap Z Z) :
  int offset 10 = Raise e → bs ≠ [] →
  foldM (λ ch '(n, b), o ← int offset 10 ; Ok (<[o + Z.of_nat n := b]> ch))
        ch (imap (λ n b, (n, b)) bs)
  = Raise e.
Proof.
  intros Hint Hbs. destruct bs as [|b bs]; [done|].
  simpl imap. rewrite foldM_cons. by rewrite Hint at 1.
Qed.

(** The line of a literal block: its bytes are read back as written, its
    offset as the decimal reading of the digits written. *)
Lemma ipst_literal_line_read (ln o : Z) (d : list Z) (ch : gmap Z Z) :
  use_rle d = false → Forall is_byte d → d ≠ [] →
  from_ipst_line ln (ipst_line (o, d) +:+ newline) ch
  = match int (format_X 6 o) 10 with
    | Ok o' => Ok (Some (set_block ch o' d))
    | Raise e => Raise e
    end.
Proof.
  intros Hrle Hbytes Hd. unfold ipst_line. simpl fst. simpl snd. rewrite Hrle.
  unfold from_ipst_line.
  rewrite rstrip_newline by apply literal_line_chars.
  rewrite bool_decide_eq_false_2.
  2:{ intros Heq. pose proof (literal_line_chars o d) as Hc.
      rewrite Heq in Hc. vm_compute in Hc. done. }
  rewrite split_literal_line, fromhex_hex_pairs by done.
  cbn [mbind result_bind].
  generalize (foldM_set_block (format_X 6 o))
             (foldM_offset_raises (format_X 6 o)).
  destruct (int (format_X 6 o) 10) as [o'|e]; intros H1 H2.
  - by rewrite (H1 o' d ch eq_refl).
  - by rewrite (H2 e d ch eq_refl Hd).
Qed.

Lemma int_decimal_small (o : Z) :
  -9 ≤ o ≤ 9 → int (format_X 6 o) 10 = Ok o.
Proof.
  intros Ho.
  assert (o = -9 ∨ o = -8 ∨ o = -7 ∨ o = -6 ∨ o = -5 ∨ o = -4 ∨ o = -3
          ∨ o = -2 ∨ o = -1 ∨ o = 0 ∨ o = 1 ∨ o = 2 ∨ o = 3 ∨ o = 4
          ∨ o = 5 ∨ o = 6 ∨ o = 7 ∨ o = 8 ∨ o = 9) as Hcases by lia.
  destruct_or!; subst o; vm_compute; reflexivity.
Qed.

(** The blocks whose lines are read back as written: the runs, and the
    literal blocks whose offset has one digit. *)
Lemma from_ipst_line_block (ln o : Z) (d : list Z) (ch : gmap Z Z) :
  use_rle d = true ∨ -9 ≤ o ≤ 9 → Forall is_byte d → d ≠ [] →
  from_ipst_line ln (ipst_line (o, d) +:+ newline) ch
  = Ok (Some (set_block ch o d)).
Proof.
  intros Hb Hbytes Hd. destruct (use_rle d) eqn:Hrle.
  - by apply from_ipst_line_run.
  - destruct Hb as [|Ho]; [done|].
    rewrite ipst_literal_line_read by done.
    by rewrite int_decimal_small.
Qed.

Lemma ipst_line_chars (b : Z * list Z) :
  string_forall is_line_char (ipst_line b) = true.
Proof.
  unfold ipst_line. destruct (use_rle b.2);
    [apply rle_line_chars|apply literal_line_chars].
Qed.

Lemma from_ipst_loop_blocks (bs : list (Z * list Z)) (ln : Z)
    (rest : list string) (ch : gmap Z Z) :
  Forall (λ b, (use_rle b.2 = true ∨ -9 ≤ b.1 ≤ 9)
               ∧ Forall is_byte b.2 ∧ b.2 ≠ []) bs →
  from_ipst_loop ln (((λ b, ipst_line b +:+ newline) <$> bs)
                     ++ ("EOF" +:+ newline) :: rest) ch
  = Ok (foldl (λ ch '(s, data), set_block ch s data) ch bs).
Proof.
  revert ln ch. induction bs as [|[o d] bs IH]; intros ln ch Hall.
  - reflexivity.
  - apply Forall_cons in Hall as [(Hb & Hbytes & Hd) Hall].
    simpl in Hb, Hbytes, Hd.
    rewrite fmap_cons. simpl app.
    change (from_ipst_loop ln (?l :: ?f) ch)
      with (r ← from_ipst_line ln l ch ;
            match r with
            | None => Ok ch
            | Some changes' => from_ipst_loop (ln + 1) f changes'
            end).
    rewrite from_ipst_line_block by done. simpl. by apply IH.
Qed.

Lemma ipst_keep_line (s : string) :
  string_forall is_line_char s = true → ipst_keep (s +:+ newline) = true.
Proof.
  destruct s as [|c s]; [done|]. simpl. intros Hs.
  apply andb_true_iff in Hs as [Hc _]. unfold ipst_keep. simpl.
  by rewrite (hex_char_hash c Hc).
Qed.

Lemma from_ipst_file_blocks (bs : list (Z * list Z)) :
  Forall (λ b, (use_rle b.2 = true ∨ -9 ≤ b.1 ≤ 9)
               ∧ Forall is_byte b.2 ∧ b.2 ≠ []) bs →
  from_ipst (ipst_file bs) = Ok (from_blocks (sorted bs)).
Proof.
  intros Hall. unfold from_ipst, ipst_file.
  assert (Forall (λ b, (use_rle b.2 = true ∨ -9 ≤ b.1 ≤ 9)
                       ∧ Forall is_byte b.2 ∧ b.2 ≠ []) (sorted bs))
    as Hall'.
  { apply Forall_forall. intros b Hb. rewrite (sorted_Permutation _) in Hb.
    rewrite Forall_forall in Hall. by apply Hall. }
  clear Hall. generalize dependent (sorted bs). intros l Hall.
  rewrite List.filter_app. simpl List.filter at 1.
  rewrite List.filter_app.
  assert (List.filter ipst_keep ((λ b, ipst_line b +:+ newline) <$> l)
          = (λ b, ipst_line b +:+ newline) <$> l) as ->.
  { clear Hall. induction l as [|b l IH]; [done|].
    rewrite fmap_cons. simpl List.filter.
    by rewrite ipst_keep_line, IH by apply ipst_line_chars. }
  simpl. rewrite from_ipst_loop_blocks by done. done.
Qed.

(** X6: a patch none of whose blocks starts at the sentinel address, and
    whose blocks are runs (more than 3 equal bytes) or start at an offset
    of one digit, is written by the text writer and read back as the same
    mapping, whatever the offsets and the lengths of the runs: the text
    format has no field width to exceed, and the lines of runs are read in
    base 16 throughout. *)
Theorem ipst_roundtrip_runs (M : gmap Z Z) (bs : list (Z * list Z)) :
  _blockify M = Ok bs →
  dict_get _ips_bogo_address bs = None →
  Forall (λ b, use_rle b.2 = true ∨ -9 ≤ b.1 ≤ 9) bs →
  ipst_roundtrip M.
Proof.
  intros Hbs Hget Hrle.
  destruct (blockify_Ok M bs Hbs) as (_ & Hch & Hruns).
  exists (ipst_file bs). split.
  - rewrite <- (app_nil_l (ipst_file bs)). apply to_ipst_sanitized.
    by apply sanitize_no_sentinel.
  - rewrite from_ipst_file_blocks.
    + rewrite sorted_id by by apply maximal_runs_strict.
      f_equal. rewrite <- Hch. by destruct (from_blocks bs).
    + destruct Hruns as [Hne _]. rewrite Forall_forall in Hne, Hrle.
      apply Forall_forall. intros b Hb. split; [by apply Hrle|].
      destruct (Hne b Hb). by split.
Qed.

Lemma ipst_roundtrip_runs_witness :
  let M : gmap Z Z :=
    list_to_map [(2, 7); (0x1000000, 5); (0x1000001, 5); (0x1000002, 5);
                 (0x1000003, 5)] in
  _blockify M = Ok [(2, [7]); (0x1000000, [5; 5; 5; 5])] ∧ ipst_roundtrip M.
Proof.
  intros M.
  assert (_blockify M = Ok [(2, [7]); (0x1000000, [5; 5; 5; 5])]) as Hbs
    by (vm_compute; reflexivity).
  split; [exact Hbs|].
  apply (ipst_roundtrip_runs M _ Hbs); [reflexivity|].
  apply (bool_decide_unpack _); vm_compute; exact I.
Defined.

(** X7: the line the text writer writes for a literal block is read with
    its bytes as written, and with its offset as the decimal reading of
    the hexadecimal digits written: where that reading fails, the reader
    raises what [int] raises. *)
Theorem from_ipst_line_literal (ln o : Z) (d : list Z) (ch : gmap Z Z) :
  use_rle d = false → Forall is_byte d → d ≠ [] →
  from_ipst_line ln (ipst_line (o, d) +:+ newline) ch
  = match int (format_X 6 o) 10 with
    | Ok o' => Ok (Some (set_block ch o' d))
    | Raise e => Raise e
    end.
Proof. apply ipst_literal_line_read. Qed.

Lemma from_ipst_line_literal_witness :
  from_ipst_line 2 (ipst_line (0x20, [1; 2]) +:+ newline) ∅
  = Ok (Some (set_block ∅ 20 [1; 2]))
  ∧ from_ipst_line 2 (ipst_line (0x2A, [1; 2]) +:+ newline) ∅
    = Raise ValueError.
Proof.
  split.
  - rewrite (from_ipst_line_literal 2 0x20 [1; 2] ∅);
      [reflexivity|reflexivity| |done].
    apply (bool_decide_unpack _); vm_compute; exact I.
  - rewrite (from_ipst_line_literal 2 0x2A [1; 2] ∅);
      [reflexivity|reflexivity| |done].
    apply (bool_decide_unpack _); vm_compute; exact I.
Defined.

(** * Blocks are canonical *)

Lemma maximal_runs_elem (bs bs' : list (Z * list Z)) (x : Z * list Z) :
  maximal_runs bs → maximal_runs bs' →
  changes (from_blocks bs) = changes (from_blocks bs') →
  x ∈ bs → x ∈ bs'.
Proof.
  intros Hruns Hruns' HM Hx. destruct x as [s d].
  destruct (maximal_runs_block bs s d Hruns Hx) as (Hd & Hin & Hbefore & Hafter).
  assert (is_Some (changes (from_blocks bs') !! s)) as Hs.
  { rewrite <- HM. replace s with (s + Z.of_nat 0) by lia.
    rewrite Hin by (destruct d; [done|simpl; lia]).
    apply lookup_lt_is_Some. destruct d; [done|simpl; lia]. }
  apply from_blocks_is_Some in Hs as ([s' d'] & Hx' & Hc).
  destruct (maximal_runs_block bs' s' d' Hruns' Hx')
    as (Hd' & Hin' & Hbefore' & Hafter').
  rewrite <- HM in Hin', Hbefore', Hafter'.
  unfold covers, block_end in Hc. simpl in Hc.
  assert (s' = s) as ->.
  { destruct (decide (s' = s)) as [|Hne]; [done|]. exfalso.
    specialize (Hin' (Z.to_nat (s - 1 - s')) ltac:(lia)).
    replace (s' + Z.of_nat (Z.to_nat (s - 1 - s'))) with (s - 1) in Hin' by lia.
    rewrite Hbefore in Hin'. symmetry in Hin'.
    apply lookup_ge_None in Hin'. lia. }
  assert (length d' = length d) as Hlen.
  { destruct (decide (length d' < length d)%nat) as [Hlt|Hge].
    - exfalso. specialize (Hin (length d') Hlt). rewrite Hafter' in Hin.
      symmetry in Hin. apply lookup_ge_None in Hin. lia.
    - destruct (decide (length d < length d')%nat) as [Hlt|]; [|lia].
      exfalso. specialize (Hin' (length d) Hlt). rewrite Hafter in Hin'.
      symmetry in Hin'. apply lookup_ge_None in Hin'. lia. }
  assert (d' = d) as ->; [|done].
  apply list_eq. intros i. destruct (decide (i < length d)%nat) as [Hi|Hi].
  - by rewrite <- Hin, <- Hin' by lia.
  - rewrite !lookup_ge_None_2; [done|lia..].
Qed.

Lemma maximal_runs_unique (bs bs' : list (Z * list Z)) :
  maximal_runs bs → maximal_runs bs' →
  changes (from_blocks bs) = changes (from_blocks bs') → bs = bs'.
Proof.
  intros Hruns Hruns' HM.
  pose proof (maximal_runs_strict bs Hruns) as Hs.
  pose proof (maximal_runs_strict bs' Hruns') as Hs'.
  apply key_sorted_unique; [done..|].
  apply NoDup_Permutation.
  - eapply NoDup_fmap_1. by apply key_lt_NoDup.
  - eapply NoDup_fmap_1. by apply key_lt_NoDup.
  - intros x. split; by apply maximal_runs_elem.
Qed.

Lemma from_blocks_bytes (bs : list (Z * list Z)) :
  maximal_runs bs → map_Forall (λ _ v, is_byte v) (changes (from_blocks bs)).
Proof.
  intros Hruns k v Hk.
  apply from_blocks_lookup in Hk as (b & Hb & _ & Hv);
    [|by apply maximal_runs_functional].
  destruct Hruns as [Hne _]. rewrite Forall_forall in Hne.
  destruct (Hne b Hb) as [_ Hbytes]. rewrite Forall_forall in Hbytes.
  apply Hbytes. by eapply list_elem_of_lookup_2.
Qed.

(** X8: blocks that are already maximal runs (ascending, apart from each
    other, not empty, of bytes) are what [_blockify] gives back from the
    mapping [from_blocks] makes of them: the decomposition of a mapping
    into blocks is unique, and [_blockify] after [from_blocks] is the
    identity on it. *)
Theorem blockify_canonical (bs : list (Z * list Z)) :
  maximal_runs bs → _blockify (changes (from_blocks bs)) = Ok bs.
Proof.
  intros Hruns.
  destruct (blockify_total (changes (from_blocks bs)))
    as (bs' & Hbs' & Hch & Hruns'); [by apply from_blocks_bytes|].
  rewrite Hbs'. f_equal. by apply maximal_runs_unique.
Qed.

Lemma blockify_canonical_witness :
  maximal_runs [(10, [0xAA; 0xBB]); (13, [0xCC])]
  ∧ _blockify (changes (from_blocks [(10, [0xAA; 0xBB]); (13, [0xCC])]))
    = Ok [(10, [0xAA; 0xBB]); (13, [0xCC])].
Proof.
  assert (maximal_runs [(10, [0xAA; 0xBB]); (13, [0xCC])]) as Hruns.
  { split.
    - repeat constructor; try done; unfold is_byte; simpl; lia.
    - repeat constructor; unfold separated, block_end; simpl; lia. }
  split; [exact Hruns|]. exact (blockify_canonical _ Hruns).
Defined.

(** * Errors of the binary reader *)

Lemma from_ips_loop_raises (n : nat) (f : list Z) (ch : gmap Z Z) (e : exn) :
  (length f < n)%nat → from_ips_loop f ch = Raise e → e = IndexError.
Proof.
  revert f ch. induction n as [|n IH]; intros f ch Hn; [lia|].
  rewrite from_ips_loop_step.
  destruct (from_ips_step f ch) as [|e'|ch1 f1] eqn:Hstep; [done| |].
  - intros [= <-]. unfold from_ips_step, read in Hstep.
    repeat case_match; congruence.
  - intros Hloop. apply from_ips_step_suffix in Hstep as (k & -> & Hlen).
    apply (IH (drop k f) ch1); [lia|done].
Qed.

Lemma from_ips_raises (f : list Z) (e : exn) :
  from_ips f = Raise e →
  (e = UnicodeError ∧ utf8_valid 0 0x80 0xBF (take 5 f) = false)
  ∨ (e = PatchFormatError None ∧ take 5 f ≠ _ips_header)
  ∨ (e = IndexError ∧ take 5 f = _ips_header).
Proof.
  unfold from_ips, read. change (Z.to_nat 5) with 5%nat. cbv beta iota.
  destruct (utf8_valid 0 128 191 (take 5 f)) eqn:Hutf; simpl;
    [|intros [= <-]; by left].
  destruct (decide (take 5 f = _ips_header)) as [Hh|Hh];
    [|intros [= <-]; right; by left].
  intros Hr. right. right. split; [|done].
  destruct (from_ips_loop (drop 5 f) ∅) as [ch|e'] eqn:Hloop; [done|].
  injection Hr as <-.
  apply (from_ips_loop_raises (S (length (drop 5 f))) (drop 5 f) ∅);
    [lia|done].
Qed.

(** X9: the binary reader fails in three ways only: with a decoding error
    when the first 5 bytes are not UTF-8, with the format error when they
    are not the header, and with an index error, behind a good header,
    where the file ends in the middle of the records. *)
Theorem from_ips_errors (f : list Z) (e : exn) :
  from_ips f = Raise e →
  (e = UnicodeError ∧ utf8_valid 0 0x80 0xBF (take 5 f) = false)
  ∨ (e = PatchFormatError None ∧ take 5 f ≠ _ips_header)
  ∨ (e = IndexError ∧ take 5 f = _ips_header).
Proof. apply from_ips_raises. Qed.

Lemma from_ips_errors_witness :
  from_ips [80; 65; 84; 67; 72; 0; 0; 1; 0; 2; 7] = Raise IndexError
  ∧ take 5 [80; 65; 84; 67; 72; 0; 0; 1; 0; 2; 7] = _ips_header.
Proof.
  assert (from_ips [80; 65; 84; 67; 72; 0; 0; 1; 0; 2; 7] = Raise IndexError)
    as Hr by (vm_compute; reflexivity).
  split; [exact Hr|].
  destruct (from_ips_errors _ _ Hr) as [[H _]|[[H _]|[_ H]]];
    [discriminate H|discriminate H|exact H].
Defined.

(** X10: a file that starts with the header and has the footer nowhere
    behind it is refused with an index error, not with the format error:
    the reader runs into the end of the file while it reads a record. *)
Theorem from_ips_truncated (f : list Z) :
  take 5 f = _ips_header →
  (∀ pre post, drop 5 f ≠ pre ++ _ips_footer ++ post) →
  from_ips f = Raise IndexError.
Proof.
  intros Hh Hno. destruct (from_ips f) as [p|e] eqn:Hf.
  - exfalso. revert Hf. unfold from_ips, read.
    change (Z.to_nat 5) with 5%nat. cbv beta iota.
    destruct (negb (utf8_valid 0 128 191 (take 5 f))); [done|].
    rewrite decide_True by done. intros Hp.
    apply bind_Ok in Hp as (ch & Hloop & _).
    destruct (from_ips_loop_footer (S (length (drop 5 f))) (drop 5 f) ∅ ch)
      as (pre & post & Hf'); [lia|done|].
    by apply (Hno pre post).
  - f_equal. apply from_ips_raises in Hf as [[_ Hutf]|[[_ Hne]|[-> _]]];
      [|done|done].
    rewrite Hh in Hutf. vm_compute in Hutf. done.
Qed.

Lemma from_ips_truncated_witness :
  from_ips [80; 65; 84; 67; 72; 0; 0; 1; 0; 2; 7] = Raise IndexError.
Proof.
  apply from_ips_truncated; [reflexivity|].
  intros pre post Heq.
  assert (length pre ≤ 3)%nat as Hlen.
  { apply (f_equal length) in Heq. rewrite !length_app in Heq.
    simpl in Heq. lia. }
  destruct pre as [|a [|b [|c [|x pre]]]]; simpl in Hlen; try lia;
    vm_compute in Heq; congruence.
Defined.

(** * The size of the binary file *)

Lemma length_ips_record (b : Z * list Z) :
  length (ips_record b) = ips_record_length b.
Proof.
  unfold ips_record, ips_record_length, rle_record, literal_record.
  destruct (use_rle b.2); rewrite !length_app, !length_be_bytes; simpl; lia.
Qed.

Lemma length_ips_file (bs : list (Z * list Z)) :
  length (ips_file bs) = (8 + sum_list_with ips_record_length bs)%nat.
Proof.
  unfold ips_file. rewrite !length_app.
  change (length _ips_header) with 5%nat.
  change (length _ips_footer) with 3%nat.
  rewrite <- (sum_list_with_Permutation_proper _ _ _ (sorted_Permutation bs)).
  generalize (sorted bs). intros l.
  assert (length (concat (ips_record <$> l))
          = sum_list_with ips_record_length l) as ->; [|lia].
  induction l as [|b l IH]; [done|].
  rewrite fmap_cons. simpl. by rewrite length_app, IH, length_ips_record.
Qed.

(** X11: the binary file of a patch takes 8 bytes for the header and the
    footer, 8 bytes for every block written as a run and 5 bytes more
    than its length for every other block; a run never takes more than
    the literal record of the same block would. *)
Theorem to_ips_length (M : gmap Z Z) (bogobyte : option Z)
    (bs : list (Z * list Z)) :
  _ips_sanitize_changes (mkPatch M) bogobyte = Ok bs →
  Forall ips_fits bs →
  ∃ out, to_ips (mkPatch M) bogobyte [] = (out, Ok ())
         ∧ length out = (8 + sum_list_with ips_record_length bs)%nat
         ∧ Forall (λ b, ips_record_length b ≤ 5 + length b.2)%nat bs.
Proof.
  intros Hs Hfit. exists (ips_file bs). split_and!.
  - rewrite <- (app_nil_l (ips_file bs)). by apply to_ips_sanitized.
  - apply length_ips_file.
  - apply Forall_forall. intros b _. unfold ips_record_length.
    destruct (use_rle b.2) eqn:Hrle; [|lia].
    apply use_rle_spec in Hrle as [Hlen _]. lia.
Qed.

Lemma to_ips_length_witness :
  ∃ out, to_ips (mkPatch (list_to_map [(1, 5); (2, 5); (3, 5); (4, 5);
                                       (9, 1)])) None []
         = (out, Ok ())
         ∧ length out = 22%nat.
Proof.
  destruct (to_ips_length (list_to_map [(1, 5); (2, 5); (3, 5); (4, 5);
                                        (9, 1)]) None
                          [(1, [5; 5; 5; 5]); (9, [1])])
    as (out & Hout & Hlen & _).
  - vm_compute. reflexivity.
  - apply (bool_decide_unpack _). vm_compute. exact I.
  - exists out. split; [exact Hout|]. rewrite Hlen. vm_compute. reflexivity.
Defined.

(** * Indexes compared *)

Lemma Index_iter_step (self : Index.t) (i : Z) :
  Index_iter self i
  = match Index.getitem self i with
    | Ok v => rest ← Index_iter self (i + 1) ; Ok (v :: rest)
    | Raise IndexError => Ok []
    | Raise e => Raise e
    end.
Proof.
  rewrite Index_iter_equation_1.
  destruct (inspect (Index.getitem self i)) as [r Hr].
  etrans; [|by rewrite Hr]. by destruct r as [v|[]].
Qed.

Lemma Index_iter_items (n : nat) (self : Index.t) (i : Z) :
  (Z.to_nat (Index.count self - i) < n)%nat →
  Index_iter self i
  = Ok ((λ j, Index.offset self + j * Index.stride self)
          <$> seqZ i (Index.count self - i)).
Proof.
  revert i. induction n as [|n IH]; intros i Hn; [lia|].
  rewrite Index_iter_step. unfold Index.getitem. case_decide as Hi.
  - rewrite seqZ_nil by lia. done.
  - rewrite IH by lia. simpl.
    rewrite (seqZ_cons i) by lia. rewrite fmap_cons.
    replace (Z.succ i) with (i + 1) by lia.
    by replace (Z.pred (Index.count self - i))
      with (Index.count self - (i + 1)) by lia.
Qed.

Lemma Index_iter_0 (self : Index.t) : Index_iter self 0 = Ok (Index_items self).
Proof.
  rewrite (Index_iter_items (S (Z.to_nat (Index.count self - 0)))) by lia.
  unfold Index_items. by rewrite Z.sub_0_r.
Qed.

Lemma forallb_zip_eq (xs ys : list Z) :
  length xs = length ys →
  forallb (λ '(a, b), bool_decide (a = b)) (zip xs ys) = bool_decide (xs = ys).
Proof.
  revert ys. induction xs as [|x xs IH]; intros [|y ys] Hlen; try done.
  simpl in *. rewrite IH by lia.
  destruct (decide (x = y)) as [->|Hne].
  - rewrite bool_decide_eq_true_2 by done. simpl.
    apply bool_decide_ext. split; [by intros ->|by intros [= ->]].
  - rewrite bool_decide_eq_false_2 by done. simpl. symmetry.
    apply bool_decide_eq_false_2. by intros [= ? ?].
Qed.

Lemma Index_eq_items (a : Index.t) (other : index) (ys : list Z) :
  0 ≤ Index.count a → index_iter other = Ok ys →
  index_len other = Ok (Z.of_nat (length ys)) →
  Index_eq a other = Ok (bool_decide (Index_items a = ys)).
Proof.
  intros Ha Hys Hlen. unfold Index_eq, Index.len.
  rewrite decide_False by lia. simpl. rewrite Hlen. simpl.
  assert (length (Index_items a) = Z.to_nat (Index.count a)) as Hla
    by (unfold Index_items; by rewrite length_fmap, length_seqZ).
  case_decide as Hne.
  - f_equal. symmetry. apply bool_decide_eq_false_2. intros <-. lia.
  - rewrite Index_iter_0, Hys. simpl. f_equal.
    apply forallb_zip_eq. lia.
Qed.

Lemma Index_items_eq (a b : Index.t) :
  0 ≤ Index.count a →
  Index_items a = Index_items b
  ↔ Index.count a = Z.max 0 (Index.count b)
    ∧ (Index.count a = 0
       ∨ (Index.offset a = Index.offset b
          ∧ (Index.count a = 1 ∨ Index.stride a = Index.stride b))).
Proof.
  intros Ha. unfold Index_items. split.
  - intros Heq.
    assert (Index.count a = Z.max 0 (Index.count b)) as Hc.
    { apply (f_equal length) in Heq.
      rewrite !length_fmap, !length_seqZ in Heq. lia. }
    split; [done|].
    destruct (decide (Index.count a = 0)) as [|H0]; [by left|right].
    assert (∀ i, 0 ≤ i < Index.count a →
              Index.offset a + i * Index.stride a
              = Index.offset b + i * Index.stride b) as Hi.
    { intros i Hi.
      apply (f_equal (λ l, l !! Z.to_nat i)) in Heq.
      rewrite !list_lookup_fmap in Heq.
      rewrite !lookup_seqZ_lt in Heq by lia. simpl in Heq.
      injection Heq as Heq. by rewrite !Z2Nat.id, !Z.add_0_l in Heq by lia. }
    pose proof (Hi 0 ltac:(lia)) as H00. split; [lia|].
    destruct (decide (Index.count a = 1)) as [|H1]; [by left|right].
    pose proof (Hi 1 ltac:(lia)). lia.
  - intros [Hc [H0|[Ho Hs]]].
    + rewrite H0. rewrite H0 in Hc.
      rewrite (seqZ_nil 0 (Index.count b)) by lia. done.
    + assert (Index.count b = Index.count a ∨ Index.count a = 0) as [->|H0]
        by lia.
      * destruct Hs as [H1|Hs]; [|by rewrite Ho, Hs].
        rewrite H1. simpl. by rewrite Ho.
      * rewrite H0. rewrite H0 in Hc.
        rewrite (seqZ_nil 0 (Index.count b)) by lia. done.
Qed.

(** X12: two indexes with lengths that are not negative compare equal
    exactly when they have the same items: the same count, and then
    nothing more for no item, the same offset for one item, the same
    offset and stride for more.  Offset and stride are not compared where
    they place no item. *)
Theorem Index_eq_spec (a b : Index.t) :
  0 ≤ Index.count a → 0 ≤ Index.count b →
  Index_eq a (IndexObj b)
  = Ok (bool_decide
          (Index.count a = Index.count b
           ∧ (Index.count a = 0
              ∨ (Index.offset a = Index.offset b
                 ∧ (Index.count a = 1
                    ∨ Index.stride a = Index.stride b))))).
Proof.
  intros Ha Hb.
  rewrite (Index_eq_items a (IndexObj b) (Index_items b)); [|done|..].
  - f_equal. apply bool_decide_ext. rewrite Index_items_eq by done.
    by rewrite Z.max_r by done.
  - apply Index_iter_0.
  - simpl. unfold Index.len. rewrite decide_False by lia. f_equal.
    unfold Index_items. rewrite length_fmap, length_seqZ. lia.
Qed.

Lemma Index_eq_spec_witness :
  Index_eq (Index.mk 16 1 4) (IndexObj (Index.mk 16 1 8)) = Ok true
  ∧ Index_eq (Index.mk 16 2 4) (IndexObj (Index.mk 16 2 8)) = Ok false.
Proof.
  split.
  - rewrite (Index_eq_spec (Index.mk 16 1 4) (Index.mk 16 1 8));
      [|simpl; lia..].
    vm_compute. reflexivity.
  - rewrite (Index_eq_spec (Index.mk 16 2 4) (Index.mk 16 2 8));
      [|simpl; lia..].
    vm_compute. reflexivity.
Defined.

(** X13: an index compares equal to a list of offsets exactly when the
    list holds its items; an index with a negative count cannot be
    compared, [len] refusing it. *)
Theorem Index_eq_list (a : Index.t) (l : list Z) :
  (0 ≤ Index.count a →
   Index_eq a (OffsetList l) = Ok (bool_decide (Index_items a = l)))
  ∧ (Index.count a < 0 → ∀ other, Index_eq a other = Raise ValueError).
Proof.
  split.
  - intros Ha. by apply Index_eq_items.
  - intros Ha other. unfold Index_eq, Index.len. by rewrite decide_True.
Qed.

Lemma Index_eq_list_witness :
  Index_eq (Index.mk 16 3 4) (OffsetList [16; 20; 24]) = Ok true
  ∧ Index_eq (Index.mk 16 (-1) 4) (OffsetList []) = Raise ValueError.
Proof.
  destruct (Index_eq_list (Index.mk 16 3 4) [16; 20; 24]) as [H1 _].
  destruct (Index_eq_list (Index.mk 16 (-1) 4) []) as [_ H2].
  split.
  - rewrite H1 by (simpl; lia). vm_compute. reflexivity.
  - apply H2. simpl. lia.
Defined.

(** * Structures defined *)

Lemma foldM_check {A} (bad : A → bool) (l : list A) :
  foldM (λ (_ : ()) x, if bad x then Raise ValueError else Ok ()) () l
  = if forallb (λ x, negb (bad x)) l then Ok () else Raise ValueError.
Proof.
  induction l as [|x l IH]; [done|]. rewrite foldM_cons. simpl.
  destruct (bad x); simpl; [done|]. exact IH.
Qed.

Lemma combinations2_pairs {A} (R : relation A) (l : list A) :
  Forall (λ p, R p.1 p.2) (combinations2 l) → StronglySorted R l.
Proof.
  induction l as [|a l IH]; [constructor|]. simpl.
  rewrite Forall_app. intros [Ha Hl]. constructor; [by apply IH|].
  apply Forall_forall. intros b Hb. rewrite Forall_forall in Ha.
  apply (Ha (a, b)). apply list_elem_of_fmap. by exists b.
Qed.

Lemma dupes_distinct (a b : FieldDef) :
  (list_to_set (identifiers a) ∩ list_to_set (identifiers b) : gset string)
  = ∅ ↔ distinct_fields a b.
Proof.
  unfold distinct_fields. split.
  - intros He x Ha Hb. apply (not_elem_of_empty (C:=gset string) x).
    rewrite <- He. apply elem_of_intersection.
    by rewrite !elem_of_list_to_set.
  - intros Hd. apply set_eq. intros x.
    rewrite elem_of_intersection, !elem_of_list_to_set. split.
    + intros [Ha Hb]. destruct (Hd x Ha Hb).
    + intros Hx. destruct (not_elem_of_empty (C:=gset string) x Hx).
Qed.

(** What a definition that went through has checked. *)
Lemma define_Ok (hasattr : string → bool)
    (registry registry' : gmap string (list FieldDef)) (name : string)
    (fields : list FieldDef) :
  Structure_define hasattr registry name fields = Ok registry' →
  Forall (λ f, hasattr (fid f) = false ∧ hasattr (fname f) = false) fields
  ∧ StronglySorted distinct_fields fields
  ∧ registry !! name = None
  ∧ registry' = <[name := fields]> registry.
Proof.
  unfold Structure_define. cbv zeta. intros H.
  apply bind_Ok in H as ([] & Hattr & H).
  apply bind_Ok in H as ([] & Hdup & H).
  unfold Structure_init_subclass in H.
  case_decide as Hreg; [done|]. injection H as <-.
  split_and!; [| |by apply eq_None_not_Some|done].
  - rewrite foldM_check in Hattr.
    destruct (forallb _ _) eqn:Hall in Hattr; [|done].
    rewrite forallb_forall in Hall.
    apply Forall_forall. intros f Hf. split.
    + apply negb_true_iff, Hall, list_elem_of_In, elem_of_app. left.
      apply list_elem_of_fmap. by exists f.
    + apply negb_true_iff, Hall, list_elem_of_In, elem_of_app. right.
      apply list_elem_of_fmap. by exists f.
  - apply combinations2_pairs. clear -Hdup.
    revert Hdup. generalize (combinations2 fields). intros l.
    induction l as [|[a b] l IH]; [constructor|].
    rewrite foldM_cons. intros H. apply bind_Ok in H as ([] & Hab & H).
    constructor; [|by apply IH]. simpl.
    apply dupes_distinct, dec_stable. intros Hd.
    cbv zeta in Hab. by rewrite decide_True in Hab.
Qed.

Lemma find_unique (key : FieldDef → string) (fields : list FieldDef)
    (f : FieldDef) :
  StronglySorted distinct_fields fields → f ∈ fields →
  key f ∈ identifiers f → (∀ g, key g ∈ identifiers g) →
  List.find (λ g, bool_decide (key g = key f)) fields = Some f.
Proof.
  intros Hs Hf Hkf Hk.
  destruct (List.find _ fields) as [g|] eqn:Hfind.
  - apply find_some in Hfind as [Hg Hkey].
    apply list_elem_of_In in Hg. apply bool_decide_eq_true in Hkey.
    destruct (StronglySorted_trichotomy _ _ f g Hs Hf Hg) as [->|[Hd|Hd]];
      [done|exfalso..].
    + apply (Hd (key f)); [done|]. rewrite <- Hkey. apply Hk.
    + apply (Hd (key g)); [apply Hk|]. by rewrite Hkey.
  - exfalso. apply list_elem_of_In in Hf.
    pose proof (find_none _ _ Hfind f Hf) as Hn. simpl in Hn.
    by rewrite bool_decide_eq_true_2 in Hn.
Qed.

(** X14: in a structure that [define] accepted, every field is the one
    found by its id and the one found by its name, no id or name is an
    attribute the class has already, and an id of one field is never the
    name of another: access by attribute and access by key agree. *)
Theorem define_lookup (hasattr : string → bool)
    (registry registry' : gmap string (list FieldDef)) (name : string)
    (fields : list FieldDef) (f : FieldDef) :
  Structure_define hasattr registry name fields = Ok registry' →
  f ∈ fields →
  Structure_fbid fields (fid f) = Ok f
  ∧ Structure_fbnm fields (fname f) = Ok f
  ∧ hasattr (fid f) = false ∧ hasattr (fname f) = false
  ∧ (∀ g, g ∈ fields → fid g = fname f → g = f)
  ∧ registry' !! name = Some fields.
Proof.
  intros Hdef Hf.
  destruct (define_Ok _ _ _ _ _ Hdef) as (Hattr & Hs & _ & ->).
  rewrite Forall_forall in Hattr. destruct (Hattr f Hf) as [Hfi Hfn].
  split_and!; try done.
  - unfold Structure_fbid.
    rewrite (find_unique fid fields f Hs Hf); [done|left|intros g; left].
  - unfold Structure_fbnm.
    rewrite (find_unique fname fields f Hs Hf);
      [done|right; left|intros g; right; left].
  - intros g Hg Heq.
    destruct (StronglySorted_trichotomy _ _ g f Hs Hg Hf) as [->|[Hd|Hd]];
      [done|exfalso..].
    + apply (Hd (fid g)); [left|]. rewrite Heq. right; left.
    + apply (Hd (fname f)); [right; left|]. rewrite <- Heq. left.
  - apply lookup_insert_eq.
Qed.

Lemma define_lookup_witness :
  let hp := Field_post_init "hp" (Some "Hit Points") (mkFieldSpec (Some 2) 8) in
  let mp := Field_post_init "mp" None (mkFieldSpec (Some 1) 8) in
  Structure_define (λ s, bool_decide (s = "size"%string)) ∅ "Monster" [hp; mp]
  = Ok {[ "Monster"%string := [hp; mp] ]}
  ∧ Structure_fbid [hp; mp] "mp" = Ok mp
  ∧ Structure_fbnm [hp; mp] "mp" = Ok mp.
Proof.
  intros hp mp.
  assert (Structure_define (λ s, bool_decide (s = "size"%string)) ∅
            "Monster" [hp; mp]
          = Ok {[ "Monster"%string := [hp; mp] ]}) as Hdef
    by (vm_compute; reflexivity).
  split; [exact Hdef|].
  destruct (define_lookup _ _ _ _ _ mp Hdef) as (H1 & H2 & _);
    [right; left|].
  split; [exact H1|exact H2].
Defined.

(** X15: a name is defined once: after a definition that went through,
    every further definition under the same name raises [ValueError],
    whatever its fields; and a definition that fails, fails with
    [ValueError]. *)
Theorem define_once (hasattr : string → bool)
    (registry registry' : gmap string (list FieldDef)) (name : string)
    (fields fields' : list FieldDef) :
  Structure_define hasattr registry name fields = Ok registry' →
  Structure_define hasattr registry' name fields' = Raise ValueError.
Proof.
  intros Hdef. destruct (define_Ok _ _ _ _ _ Hdef) as (_ & _ & _ & ->).
  unfold Structure_define. cbv zeta. rewrite foldM_check.
  destruct (forallb _ _); cbn [mbind result_bind]; [|done].
  match goal with
  | |- context [foldM ?F () (combinations2 fields')] =>
      assert (∀ l, foldM F () l = Ok () ∨ foldM F () l = Raise ValueError)
        as Hcheck
  end.
  { intros l. induction l as [|[a b] l IH]; [by left|].
    rewrite foldM_cons.
    destruct (decide (_ ≠ ∅)); simpl; [by right|exact IH]. }
  destruct (Hcheck (combinations2 fields')) as [-> | ->];
    cbn [mbind result_bind]; [|done].
  unfold Structure_init_subclass. rewrite decide_True; [done|].
  rewrite lookup_insert_eq. by eexists.
Qed.

Lemma define_once_witness :
  let hp := Field_post_init "hp" None (mkFieldSpec (Some 2) 8) in
  let mp := Field_post_init "mp" None (mkFieldSpec (Some 1) 8) in
  Structure_define (λ _, false) ∅ "Monster" [hp]
  = Ok {[ "Monster"%string := [hp] ]}
  ∧ Structure_define (λ _, false) {[ "Monster"%string := [hp] ]}
      "Monster" [mp]
    = Raise ValueError.
Proof.
  intros hp mp.
  assert (Structure_define (λ _, false) ∅ "Monster" [hp]
          = Ok {[ "Monster"%string := [hp] ]}) as Hdef
    by (vm_compute; reflexivity).
  split; [exact Hdef|]. exact (define_once _ _ _ _ _ [mp] Hdef).
Defined.

(** * The size of a structure *)

Lemma Structure_size_fold (fields : list FieldSpec) (acc : Z) :
  foldM (λ acc f, match fsize f with
                  | Some s => Ok (acc + s * funit f)
                  | None => Raise TypeError
                  end) acc fields
  = if decide (Forall (λ f, is_Some (fsize f)) fields)
    then Ok (acc + foldr (λ f a, field_bits f + a) 0 fields)
    else Raise TypeError.
Proof.
  revert acc. induction fields as [|f fields IH]; intros acc.
  - destruct (decide (Forall (λ f, is_Some (fsize f)) [])) as [_|H];
      [|by destruct H].
    simpl. f_equal. lia.
  - rewrite foldM_cons. destruct (fsize f) as [s|] eqn:Hs; simpl.
    + rewrite IH. destruct (decide (Forall _ fields)) as [Hall|Hall].
      * rewrite decide_True by (constructor; [by rewrite Hs|done]).
        f_equal. unfold field_bits at 2. rewrite Hs. simpl. lia.
      * rewrite decide_False; [done|].
        intros H. by apply Forall_cons in H as [_ H].
    + rewrite decide_False; [done|].
      intros H. apply Forall_cons in H as [[x Hx] _]. congruence.
Qed.

(** X16: the size of a structure is the sum of the bits of its fields
    when every field has a size, in whatever order the fields are; when
    one field has none, asking for the size raises [TypeError]. *)
Theorem Structure_size_sum (fields : list FieldSpec) :
  Structure_size fields
  = (if decide (Forall (λ f, is_Some (fsize f)) fields)
     then Ok (foldr (λ f a, field_bits f + a) 0 fields)
     else Raise TypeError)
  ∧ ∀ fields', fields ≡ₚ fields' →
               Structure_size fields' = Structure_size fields.
Proof.
  assert (∀ l, Structure_size l
               = if decide (Forall (λ f, is_Some (fsize f)) l)
                 then Ok (foldr (λ f a, field_bits f + a) 0 l)
                 else Raise TypeError) as Hsum.
  { intros l. unfold Structure_size. rewrite Structure_size_fold.
    by destruct (decide _). }
  split; [apply Hsum|]. intros fields' Hp. rewrite !Hsum.
  destruct (decide (Forall _ fields)) as [Hall|Hall].
  - rewrite decide_True by by rewrite <- Hp. f_equal.
    clear Hall. induction Hp as [|x l l' Hp IH|x y l|l l' l'' _ IH1 _ IH2];
      simpl; lia.
  - rewrite decide_False; [done|]. by rewrite <- Hp.
Qed.

Lemma Structure_size_sum_witness :
  Structure_size [mkFieldSpec (Some 2) 8; mkFieldSpec (Some 3) 1] = Ok 19
  ∧ Structure_size [mkFieldSpec (Some 3) 1; mkFieldSpec (Some 2) 8] = Ok 19
  ∧ Structure_size [mkFieldSpec (Some 2) 8; mkFieldSpec None 8]
    = Raise TypeError.
Proof.
  destruct (Structure_size_sum [mkFieldSpec (Some 2) 8; mkFieldSpec (Some 3) 1])
    as [H1 H2].
  destruct (Structure_size_sum [mkFieldSpec (Some 2) 8; mkFieldSpec None 8])
    as [H3 _].
  split_and!.
  - rewrite H1. vm_compute. reflexivity.
  - rewrite (H2 [mkFieldSpec (Some 3) 1; mkFieldSpec (Some 2) 8])
      by apply Permutation_swap.
    rewrite H1. vm_compute. reflexivity.
  - rewrite H3. vm_compute. reflexivity.
Defined.

(** * String fields read back *)

Lemma chr_ord (c : ascii) : chr (ord c) = c.
Proof. unfold chr, ord. by rewrite N2Z.id, Ascii.ascii_N_embedding. Qed.

Lemma ord_nonneg (c : ascii) : 0 ≤ ord c.
Proof. unfold ord. lia. Qed.

Lemma ascii_encode_decode (s : string) (data : list Z) :
  ascii_encode s = Ok data →
  ascii_decode data = Ok s ∧ length data = String.length s.
Proof.
  revert data. induction s as [|c s IH]; intros data; simpl.
  - by intros [= <-].
  - case_bool_decide as Hc; [|done]. intros H.
    apply bind_Ok in H as (bs & Hbs & [= <-]).
    destruct (IH bs Hbs) as [Hdec Hlen]. simpl.
    rewrite bool_decide_eq_true_2 by (pose proof (ord_nonneg c); lia).
    rewrite Hdec. simpl. by rewrite chr_ord, Hlen.
Qed.

Lemma ascii_decode_app (a b : list Z) :
  ascii_decode (a ++ b)
  = sa ← ascii_decode a ; sb ← ascii_decode b ; Ok (sa +:+ sb).
Proof.
  induction a as [|x a IH]; simpl.
  - by destruct (ascii_decode b).
  - case_bool_decide; [|done]. rewrite IH.
    destruct (ascii_decode a) as [sa|]; simpl; [|done].
    by destruct (ascii_decode b).
Qed.

Lemma ascii_decode_drop (view : list Z) (current : string) (n : nat) :
  ascii_decode view = Ok current →
  ascii_decode (drop n view) = Ok (string_drop n current)
  ∧ length view = String.length current.
Proof.
  revert current n. induction view as [|x view IH]; intros current n; simpl.
  - intros [= <-]. by destruct n.
  - case_bool_decide as Hx; [|done]. intros H.
    apply bind_Ok in H as (s & Hs & [= <-]).
    destruct n as [|n]; simpl.
    + rewrite bool_decide_eq_true_2 by done. rewrite Hs. simpl.
      split; [done|]. f_equal. by apply (IH s 0%nat).
    + destruct (IH s n Hs) as [Hd Hl]. by rewrite Hl.
Qed.

Lemma string_drop_all (s : string) : string_drop (String.length s) s = EmptyString.
Proof. induction s as [|c s IH]; [done|]. exact IH. Qed.

Lemma string_app_empty (s : string) : s +:+ EmptyString = s.
Proof.
  induction s as [|c s IH]; [done|].
  change (String c s +:+ EmptyString) with (String c (s +:+ EmptyString)).
  by rewrite IH.
Qed.

(** X17: what an ASCII string field holds after [_set_str] has stored a
    value: it is read back as the value followed by what the old string
    had behind the value's length.  The value alone is read back when it
    fills the field. *)
Theorem set_str_read_back (view view' : list Z) (value current : string) :
  Field._get_str None view = Ok current →
  Field._set_str None view value = Ok view' →
  Field._get_str None view'
  = Ok (value +:+ string_drop (String.length value) current)
  ∧ (String.length value = length view →
     Field._get_str None view' = Ok value).
Proof.
  unfold Field._set_str, Field._get_str. simpl. intros Hget.
  rewrite Hget. simpl.
  assert (∀ r, r = Ok (value +:+ string_drop (String.length value) current) →
               String.length value = length view → r = Ok value) as Hfull.
  { intros r -> Hlen.
    destruct (ascii_decode_drop view current 0 Hget) as [_ Hl].
    by rewrite Hlen, Hl, string_drop_all, string_app_empty. }
  case_decide as Hv.
  - intros [= <-]. subst value.
    assert (ascii_decode view
            = Ok (current +:+ string_drop (String.length current) current))
      as Hr by by rewrite string_drop_all, string_app_empty.
    split; [done|]. by apply Hfull.
  - intros H. apply bind_Ok in H as (data & Henc & Hset).
    unfold view_set_bytes in Hset. case_decide as Hlen; [|done].
    injection Hset as <-.
    destruct (ascii_encode_decode value data Henc) as [Hdec Hdl].
    destruct (ascii_decode_drop view current (length data) Hget) as [Hdrop _].
    assert (ascii_decode (data ++ drop (length data) view)
            = Ok (value +:+ string_drop (String.length value) current)) as Hr.
    { rewrite ascii_decode_app, Hdec, Hdrop. simpl. by rewrite Hdl. }
    split; [done|]. by apply Hfull.
Qed.

Lemma set_str_read_back_witness :
  Field._set_str None [65; 66; 67; 68] "XY" = Ok [88; 89; 67; 68]
  ∧ Field._get_str None [88; 89; 67; 68] = Ok "XYCD"%string.
Proof.
  assert (Field._get_str None [65; 66; 67; 68] = Ok "ABCD"%string) as Hget
    by (vm_compute; reflexivity).
  assert (Field._set_str None [65; 66; 67; 68] "XY" = Ok [88; 89; 67; 68])
    as Hset by (vm_compute; reflexivity).
  split; [exact Hset|].
  destruct (set_str_read_back _ _ _ _ Hget Hset) as [Hr _].
  exact Hr.
Defined.

(** * A block the binary format cannot hold *)

Lemma io_for_prefix {T A} (pre : list A) (x : A) (post : list A)
    (body : A → io T ()) (g : A → list T) (f : list T) :
  (∀ y f', y ∈ pre → body y f' = (f' ++ g y, Ok ())) →
  io_for (pre ++ x :: post) body f
  = match body x (f ++ concat (g <$> pre)) with
    | (f', Ok _) => io_for post body f'
    | (f', Raise e) => (f', Raise e)
    end.
Proof.
  revert f. induction pre as [|y pre IH]; intros f Hbody.
  - simpl. by rewrite app_nil_r.
  - simpl. unfold mbind at 1, io_bind at 1. rewrite Hbody by left.
    rewrite IH by (intros; apply Hbody; by right).
    by rewrite <- (assoc_L (++)).
Qed.

Lemma to_ips_record_overflow (b : Z * list Z) (f : list Z) :
  ¬ ips_fits b →
  to_ips_record b f = (f ++ ips_record_partial b, Raise OverflowError).
Proof.
  destruct b as [o d]. unfold ips_fits, to_ips_record, ips_record_partial.
  simpl fst. simpl snd. intros Hfit.
  destruct (decide (0 ≤ o < 2 ^ 24)) as [Ho|Ho].
  - assert (to_bytes (Z.of_nat (length d)) 2 = Raise OverflowError) as Hn.
    { unfold to_bytes. rewrite decide_False; [done|]. simpl. lia. }
    rewrite (to_bytes_fits o 3) by (simpl; lia).
    destruct (use_rle d).
    + rewrite io_bind_lift_Ok, !io_bind_write, Hn.
      unfold mbind, io_bind, lift. by rewrite <- (assoc_L (++)).
    + rewrite io_bind_lift_Ok, !io_bind_write, Hn. done.
  - assert (to_bytes o 3 = Raise OverflowError) as Hn.
    { unfold to_bytes. rewrite decide_False; [done|]. simpl. lia. }
    rewrite Hn, app_nil_r. by destruct (use_rle d).
Qed.

(** X18: when a block does not fit the fields of a binary record, the
    binary writer raises [OverflowError] in the middle of the file: the
    header and the records of the blocks before the first such block are
    written, and of its own record the offset when that fits (with the two
    zero bytes of a run); no footer is written. *)
Theorem to_ips_overflow (M : gmap Z Z) (bogobyte : option Z)
    (bs pre post : list (Z * list Z)) (b : Z * list Z) (f : list Z) :
  _ips_sanitize_changes (mkPatch M) bogobyte = Ok bs →
  sorted bs = pre ++ b :: post →
  Forall ips_fits pre → ¬ ips_fits b →
  to_ips (mkPatch M) bogobyte f
  = (f ++ _ips_header ++ concat (ips_record <$> pre) ++ ips_record_partial b,
     Raise OverflowError).
Proof.
  intros Hs Hsorted Hpre Hb. unfold to_ips. rewrite Hs.
  rewrite io_bind_lift_Ok, io_bind_write.
  unfold mbind at 1, io_bind at 1. rewrite Hsorted.
  rewrite (io_for_prefix pre b post to_ips_record ips_record).
  - rewrite to_ips_record_overflow by done.
    by rewrite <- !(assoc_L (++)).
  - intros y f' Hy. apply to_ips_record_fits.
    rewrite Forall_forall in Hpre. by apply Hpre.
Qed.

Lemma to_ips_overflow_witness :
  to_ips (mkPatch (list_to_map [(5, 1); (0x1000000, 0)])) None []
  = ([80; 65; 84; 67; 72; 0; 0; 5; 0; 1; 1], Raise OverflowError).
Proof.
  rewrite (to_ips_overflow _ None [(5, [1]); (0x1000000, [0])]
             [(5, [1])] [] (0x1000000, [0]) []).
  - vm_compute. reflexivity.
  - vm_compute. reflexivity.
  - vm_compute. reflexivity.
  - apply (bool_decide_unpack _). vm_compute. exact I.
  - apply (bool_decide_unpack _). vm_compute. exact I.
Defined.

(** * Overlapping blocks *)

Lemma from_blocks_after (bs1 bs2 : list (Z * list Z)) (k : Z) :
  (∀ b, b ∈ bs2 → ¬ covers b k) →
  changes (from_blocks (bs1 ++ bs2)) !! k = changes (from_blocks bs1) !! k.
Proof.
  induction bs2 as [|[s d] bs2 IH] using rev_ind; intros Hno.
  - by rewrite app_nil_r.
  - rewrite (assoc_L (++)), from_blocks_snoc, set_block_lookup.
    rewrite decide_False.
    + apply IH. intros b Hb. apply Hno. apply elem_of_app. by left.
    + intros Hk. apply (Hno (s, d)); [apply elem_of_app; right; left|].
      unfold covers, block_end. simpl. lia.
Qed.

(** X19: [from_blocks] takes blocks that overlap: an offset gets its
    value from the last block, in the order of the dictionary, that
    covers it, and offsets that no block covers are not in the patch. *)
Theorem from_blocks_last_wins (bs1 bs2 : list (Z * list Z))
    (b : Z * list Z) (k : Z) :
  (covers b k → (∀ b', b' ∈ bs2 → ¬ covers b' k) →
   changes (from_blocks (bs1 ++ b :: bs2)) !! k = b.2 !! Z.to_nat (k - b.1)
   ∧ is_Some (changes (from_blocks (bs1 ++ b :: bs2)) !! k))
  ∧ ((∀ b', b' ∈ bs1 ++ b :: bs2 → ¬ covers b' k) →
     changes (from_blocks (bs1 ++ b :: bs2)) !! k = None).
Proof.
  split.
  - intros Hb Hno. destruct b as [s d].
    assert (changes (from_blocks (bs1 ++ (s, d) :: bs2)) !! k
            = d !! Z.to_nat (k - s)) as Hk.
    { rewrite (cons_middle (s, d)), (assoc_L (++)).
      rewrite from_blocks_after by done.
      rewrite from_blocks_snoc, set_block_lookup.
      rewrite decide_True; [done|].
      unfold covers, block_end in Hb. simpl in Hb. lia. }
    split; [exact Hk|]. rewrite Hk. apply lookup_lt_is_Some.
    unfold covers, block_end in Hb. simpl in Hb. lia.
  - intros Hno. apply eq_None_not_Some. intros Hk.
    apply from_blocks_is_Some in Hk as (b' & Hb' & Hc).
    by apply (Hno b').
Qed.

Lemma from_blocks_last_wins_witness :
  changes (from_blocks [(10, [1; 2; 3]); (11, [7]); (20, [9])]) !! 11 = Some 7
  ∧ changes (from_blocks [(10, [1; 2; 3]); (11, [7]); (20, [9])]) !! 15 = None.
Proof.
  destruct (from_blocks_last_wins [(10, [1; 2; 3])] [(20, [9])] (11, [7]) 11)
    as [H1 _].
  destruct (from_blocks_last_wins [(10, [1; 2; 3])] [(20, [9])] (11, [7]) 15)
    as [_ H2].
  split.
  - destruct H1 as [H1 _]; [| |exact H1].
    + unfold covers, block_end. simpl. lia.
    + intros b' Hb'. apply list_elem_of_singleton in Hb' as ->.
      unfold covers, block_end. simpl. lia.
  - apply H2. intros b' Hb'.
    repeat (apply elem_of_cons in Hb' as [->|Hb']);
      [..|by apply elem_of_nil in Hb'];
      unfold covers, block_end; simpl; lia.
Defined.

(** * The text reader: the footer and the errors *)

Lemma rstrip_head (s r : string) (c : ascii) :
  rstrip s = String c r → ∃ s', s = String c s'.
Proof.
  destruct s as [|c' s']; [done|]. simpl.
  destruct (rstrip s'); [destruct (isspace c')|]; intros [= -> _]; by eexists.
Qed.

Lemma footer_kept (foot : string) :
  rstrip foot = "EOF"%string → ipst_keep foot = true.
Proof.
  intros Hf. apply rstrip_head in Hf as [s' ->]. reflexivity.
Qed.

Lemma from_ipst_line_footer (n : Z) (foot : string) (ch : gmap Z Z) :
  rstrip foot = "EOF"%string → from_ipst_line n foot ch = Ok None.
Proof. intros Hf. unfold from_ipst_line. by rewrite Hf. Qed.

Lemma from_ipst_loop_cons (n : Z) (l : string) (f : list string)
    (ch : gmap Z Z) :
  from_ipst_loop n (l :: f) ch
  = r ← from_ipst_line n l ch ;
    match r with
    | None => Ok ch
    | Some ch' => from_ipst_loop (n + 1) f ch'
    end.
Proof. reflexivity. Qed.

Lemma from_ipst_loop_footer (ls rest : list string) (foot : string)
    (n : Z) (ch : gmap Z Z) :
  rstrip foot = "EOF"%string →
  from_ipst_loop n (ls ++ foot :: rest) ch = from_ipst_loop n ls ch.
Proof.
  intros Hf. revert n ch. induction ls as [|l ls IH]; intros n ch.
  - rewrite app_nil_l, from_ipst_loop_cons, from_ipst_line_footer by done.
    done.
  - rewrite <- app_comm_cons, !from_ipst_loop_cons.
    destruct (from_ipst_line n l ch) as [[ch'|]|e]; simpl; [|done..].
    apply IH.
Qed.

(** X20: the text reader does not need the footer: a file that ends
    without the line [EOF] is read as the same file with the footer, and
    whatever follows the footer is not read.  (The file has to have a
    line that is not a comment, the header.) *)
Theorem from_ipst_footer_optional (ls rest : list string) (foot : string) :
  rstrip foot = "EOF"%string →
  List.filter ipst_keep ls ≠ [] →
  from_ipst (ls ++ foot :: rest) = from_ipst ls.
Proof.
  intros Hf Hls. unfold from_ipst.
  rewrite List.filter_app. simpl List.filter. rewrite footer_kept by done.
  destruct (List.filter ipst_keep ls) as [|header f']; [done|].
  rewrite <- app_comm_cons. case_bool_decide; [|done].
  by rewrite from_ipst_loop_footer.
Qed.

Lemma from_ipst_footer_optional_witness :
  from_ipst ["PATCH" +:+ newline; "000005:0000:0004:7" +:+ newline;
             "EOF" +:+ newline; "junk"%string]
  = from_ipst ["PATCH" +:+ newline; "000005:0000:0004:7" +:+ newline].
Proof.
  apply (from_ipst_footer_optional
           ["PATCH" +:+ newline; "000005:0000:0004:7" +:+ newline]
           ["junk"%string] ("EOF" +:+ newline)).
  - vm_compute. reflexivity.
  - vm_compute. discriminate.
Defined.

Lemma foldM_raises {A B} (P : exn → Prop) (f : A → B → result A) (a : A)
    (l : list B) (e : exn) :
  (∀ a x e, f a x = Raise e → P e) → foldM f a l = Raise e → P e.
Proof.
  intros Hf. revert a. induction l as [|x l IH]; intros a; [done|].
  rewrite foldM_cons. destruct (f a x) as [a'|e'] eqn:Hfa; simpl.
  - apply IH.
  - intros [= <-]. by eapply Hf.
Qed.

Lemma int_raises (s : string) (base : Z) (e : exn) :
  int s base = Raise e → e = ValueError.
Proof.
  unfold int. repeat case_match; intros [=]; done.
Qed.

Lemma fromhex_cons (c : ascii) (s : string) :
  fromhex (String c s)
  = if is_ascii_space c then fromhex s
    else match digit_value 16 c, s with
         | Some hi, String c' s'' =>
             match digit_value 16 c' with
             | Some lo => bs ← fromhex s'' ; Ok ((hi * 16 + lo) :: bs)
             | None => Raise ValueError
             end
         | _, _ => Raise ValueError
         end.
Proof. reflexivity. Qed.

Lemma fromhex_raises (s : string) (e : exn) :
  fromhex s = Raise e → e = ValueError.
Proof.
  assert (∀ (n : nat) s, (String.length s < n)%nat →
            fromhex s = Raise e → e = ValueError) as Hn;
    [|by apply (Hn (S (String.length s)) s); lia].
  clear s. intros n. induction n as [|n IH]; intros s Hlen; [lia|].
  destruct s as [|c s]; [done|]. rewrite fromhex_cons.
  destruct (is_ascii_space c); [apply IH; simpl in Hlen; lia|].
  destruct (digit_value 16 c); [|by intros [= <-]].
  destruct s as [|c' s]; [by intros [= <-]|].
  destruct (digit_value 16 c'); [|by intros [= <-]].
  destruct (fromhex s) as [bs|e'] eqn:Hs; simpl; [done|].
  intros [= <-]. apply (IH s); [simpl in Hlen; lia|done].
Qed.

Lemma from_ipst_line_raises (n : Z) (line : string) (ch : gmap Z Z)
    (e : exn) :
  from_ipst_line n line ch = Raise e →
  e = ValueError ∨ e = PatchValueError (Some n)
  ∨ e = PatchFormatError (Some n).
Proof.
  unfold from_ipst_line. case_bool_decide; [done|].
  destruct (split (rstrip line)) as [|p1 [|p2 [|p3 [|p4 [|p5 ps]]]]];
    try (intros [= <-]; right; by right).
  - destruct (fromhex p3) as [bs|e'] eqn:Hhex; simpl.
    + destruct (foldM _ ch _) as [ch'|e'] eqn:Hfold; simpl; [done|].
      intros [= <-]. left.
      eapply (foldM_raises (λ e, e = ValueError)); [|exact Hfold].
      intros a [i b] e0. destruct (int p1 10) eqn:Hint; simpl; [done|].
      intros [= <-]. by eapply int_raises.
    + intros [= <-]. left. by eapply fromhex_raises.
  - destruct (int p1 16) as [o|e'] eqn:H1; simpl;
      [|intros [= <-]; left; by eapply int_raises].
    destruct (int p2 16) as [sz|e'] eqn:H2; simpl;
      [|intros [= <-]; left; by eapply int_raises].
    destruct (int p3 16) as [r|e'] eqn:H3; simpl;
      [|intros [= <-]; left; by eapply int_raises].
    destruct (int p4 16) as [v|e'] eqn:H4; simpl;
      [|intros [= <-]; left; by eapply int_raises].
    destruct (foldM _ ch _) as [ch'|e'] eqn:Hfold; simpl; [done|].
    intros [= <-]. right. left.
    eapply (foldM_raises (λ e, e = PatchValueError (Some n))); [|exact Hfold].
    intros a i e0. simpl. case_bool_decide; [|done]. by intros [= <-].
Qed.

Lemma from_ipst_loop_raises (f : list string) (n : Z) (ch : gmap Z Z)
    (e : exn) :
  from_ipst_loop n f ch = Raise e →
  e = ValueError
  ∨ ∃ k, n ≤ k < n + Z.of_nat (length f)
         ∧ (e = PatchValueError (Some k) ∨ e = PatchFormatError (Some k)).
Proof.
  revert n ch. induction f as [|l f IH]; intros n ch; [done|].
  rewrite from_ipst_loop_cons.
  destruct (from_ipst_line n l ch) as [[ch'|]|e'] eqn:Hline; simpl; [|done|].
  - intros H. apply IH in H as [->|(k & Hk & Hek)]; [by left|right].
    exists k. split; [lia|done].
  - intros [= <-]. apply from_ipst_line_raises in Hline as [->|Hline];
      [by left|right].
    exists n. split; [lia|]. done.
Qed.

(** X21: the text reader fails in these ways only: with [StopIteration],
    exactly when the file has no line but comments; with the format error
    without a line number, exactly when the first line that is no comment
    is not the header; with [ValueError] from a number or from the
    hexadecimal bytes; with the value error or the format error of a
    line, whose number is then between 2 and the number of lines of the
    file. *)
Theorem from_ipst_errors (f : list string) :
  (from_ipst f = Raise StopIteration ↔ List.filter ipst_keep f = [])
  ∧ (from_ipst f = Raise (PatchFormatError None)
     ↔ ∃ header f', List.filter ipst_keep f = header :: f'
                    ∧ rstrip header ≠ "PATCH"%string)
  ∧ ∀ e, from_ipst f = Raise e →
      e = StopIteration ∨ e = PatchFormatError None ∨ e = ValueError
      ∨ ∃ k, 2 ≤ k ≤ Z.of_nat (length f)
             ∧ (e = PatchValueError (Some k) ∨ e = PatchFormatError (Some k)).
Proof.
  unfold from_ipst.
  pose proof (filter_length ipst_keep f) as Hlen.
  destruct (List.filter ipst_keep f) as [|header f'] eqn:Hf.
  - split_and!.
    + done.
    + split; [done|]. by intros (h & f' & ? & _).
    + intros e [= <-]. by left.
  - case_bool_decide as Hh.
    + assert (∀ e, from_ipst_loop 2 f' ∅ ≫= (λ ch, Ok (mkPatch ch)) = Raise e →
                e = ValueError
                ∨ ∃ k, 2 ≤ k ≤ Z.of_nat (length f)
                       ∧ (e = PatchValueError (Some k)
                          ∨ e = PatchFormatError (Some k))) as Hloop.
      { intros e.
        destruct (from_ipst_loop 2 f' ∅) as [ch|e'] eqn:Hl; simpl; [done|].
        intros [= <-].
        apply from_ipst_loop_raises in Hl as [->|(k & Hk & Hek)];
          [by left|right].
        exists k. split; [|done]. simpl in Hlen. lia. }
      split_and!.
      * split; [|done]. intros He.
        apply Hloop in He as [He|(k & _ & [He|He])]; discriminate He.
      * split.
        -- intros He.
           apply Hloop in He as [He|(k & _ & [He|He])]; discriminate He.
        -- intros (h & f'' & [= <- <-] & Hne). done.
      * intros e He. right. right. by apply Hloop.
    + split_and!.
      * split; [|done]. intros [=].
      * split; [|done]. intros _. by exists header, f'.
      * intros e [= <-]. right. by left.
Qed.

Lemma from_ipst_errors_witness :
  from_ipst ["# only a comment"%string] = Raise StopIteration
  ∧ from_ipst ["PATCH" +:+ newline;
               String "028" "10:0000:0001:100" +:+ newline]
    = Raise ValueError.
Proof.
  split.
  - apply (from_ipst_errors ["# only a comment"%string]). reflexivity.
  - vm_compute. reflexivity.
Defined.

(** * Literal lines and their offsets *)

Lemma digit_value_10 (d : Z) :
  0 ≤ d < 16 →
  digit_value 10 (hex_digit d) = if decide (d < 10) then Some d else None.
Proof.
  intros Hd.
  assert (d = 0 ∨ d = 1 ∨ d = 2 ∨ d = 3 ∨ d = 4 ∨ d = 5 ∨ d = 6 ∨ d = 7
          ∨ d = 8 ∨ d = 9 ∨ d = 10 ∨ d = 11 ∨ d = 12 ∨ d = 13 ∨ d = 14
          ∨ d = 15) as Hcases by lia.
  destruct_or!; subst d; vm_compute; done.
Qed.

Lemma parse_digits_cons (base : Z) (b : bool) (a : Z) (c : ascii)
    (s : string) :
  bool_decide (c = "_"%char) = false →
  parse_digits base b a (String c s)
  = match digit_value base c with
    | Some d => parse_digits base true (a * base + d) s
    | None => None
    end.
Proof. intros Hc. simpl. by rewrite Hc. Qed.

(** The digits [hex_digits] writes, read in base 10: refused when a letter
    is among them, and otherwise a number that is not above the one
    written, and below it from 10 on. *)
Lemma parse_decimal_hex_digits (fuel : nat) (n : Z) (rest : string) :
  0 ≤ n < 16 ^ Z.of_nat (S fuel) →
  (∀ a b, parse_digits 10 b a (hex_digits (S fuel) n rest) = None)
  ∨ ∃ k v, 0 ≤ k ∧ 0 ≤ v ≤ n ∧ (10 ≤ n → v < n)
      ∧ ∀ a b, parse_digits 10 b a (hex_digits (S fuel) n rest)
               = parse_digits 10 true (a * 10 ^ k + v) rest.
Proof.
  revert n rest. induction fuel as [|fuel IH]; intros n rest Hn.
  - assert (n / 16 = 0) as Hq by (apply Z.div_small; simpl in Hn; lia).
    assert (n mod 16 = n) as Hr by (apply Z.mod_small; simpl in Hn; lia).
    assert (hex_digits 1 n rest = String (hex_digit n) rest) as ->.
    { simpl. by rewrite bool_decide_eq_true_2, Hr by done. }
    destruct (hex_digit_value n) as (_ & Hu & _); [simpl in Hn; lia|].
    destruct (decide (n < 10)) as [Hlt|Hge].
    + right. exists 1, n. split_and!; [lia..|]. intros a b.
      rewrite parse_digits_cons, digit_value_10 by (done || simpl in Hn; lia).
      rewrite decide_True by done. by rewrite Z.pow_1_r.
    + left. intros a b.
      rewrite parse_digits_cons, digit_value_10 by (done || simpl in Hn; lia).
      by rewrite decide_False.
  - pose proof (Z.div_mod n 16 ltac:(lia)) as Hdm.
    pose proof (Z.mod_pos_bound n 16 ltac:(lia)) as Hmod.
    destruct (hex_digit_value (n mod 16) Hmod) as (_ & Hu & _).
    change (hex_digits (S (S fuel)) n rest)
      with (let acc' := String (hex_digit (n mod 16)) rest in
            if bool_decide (n / 16 = 0) then acc'
            else hex_digits (S fuel) (n / 16) acc').
    cbv zeta. destruct (decide (n / 16 = 0)) as [Hq|Hq];
      [rewrite bool_decide_eq_true_2 by done
      |rewrite bool_decide_eq_false_2 by done].
    + assert (n mod 16 = n) as Hr by lia. rewrite Hr in *.
      destruct (decide (n < 10)) as [Hlt|Hge].
      * right. exists 1, n. split_and!; [lia..|]. intros a b.
        rewrite parse_digits_cons, digit_value_10 by done.
        rewrite decide_True by done. by rewrite Z.pow_1_r.
      * left. intros a b.
        rewrite parse_digits_cons, digit_value_10 by done.
        by rewrite decide_False.
    + assert (0 < n / 16).
      { pose proof (Z.div_pos n 16 ltac:(lia) ltac:(lia)). lia. }
      destruct (IH (n / 16) (String (hex_digit (n mod 16)) rest))
        as [Hnone|(k & v & Hk & Hv & _ & Hp)].
      { split; [lia|]. apply Z.div_lt_upper_bound; [lia|].
        rewrite Nat2Z.inj_succ, Z.pow_succ_r in Hn by lia. lia. }
      * by left.
      * destruct (decide (n mod 16 < 10)) as [Hlt|Hge].
        -- right. exists (Z.succ k), (v * 10 + n mod 16).
           split_and!; [lia|lia|lia|lia|]. intros a b. rewrite Hp.
           rewrite parse_digits_cons, digit_value_10 by done.
           rewrite decide_True by done. f_equal.
           rewrite Z.pow_succ_r by done. lia.
        -- left. intros a b. rewrite Hp.
           rewrite parse_digits_cons, digit_value_10 by done.
           by rewrite decide_False.
Qed.

Lemma parse_decimal_zeros (k : nat) (s : string) (b : bool) :
  parse_digits 10 b 0 (zeros (S k) +:+ s) = parse_digits 10 true 0 s.
Proof.
  revert b. induction k as [|k IH]; intros b; [done|].
  change (zeros (S (S k)) +:+ s) with (String "0" (zeros (S k) +:+ s)).
  change (parse_digits 10 b 0 (String "0" ?t))
    with (parse_digits 10 true 0 t). apply IH.
Qed.

Lemma skip_prefix_10 (s : string) : skip_prefix 10 s = s.
Proof.
  destruct s as [|c [|x s]]; [done|..];
    by destruct c as [[] [] [] [] [] [] [] []].
Qed.

Lemma int_decimal_hex (s : string) :
  string_forall is_hex_char s = true →
  int s 10 = match parse_digits 10 false 0 s with
             | Some n => Ok n
             | None => Raise ValueError
             end.
Proof.
  intros Hs.
  assert (string_forall is_line_char s = true) as Hl.
  { revert Hs. apply string_forall_impl. intros c Hc.
    unfold is_line_char, is_field_char. by rewrite Hc. }
  destruct (strip_id s Hl) as [Hls Hrs].
  unfold int. rewrite Hls, Hrs.
  destruct s as [|c s]; [done|].
  assert (c ≠ "-"%char ∧ c ≠ "+"%char) as [Hm Hpl].
  { simpl in Hs. apply andb_true_iff in Hs as [Hc _]. clear -Hc.
    split; intros ->; vm_compute in Hc; done. }
  assert (match String c s with
          | String "-" s' => (-1, s')
          | String "+" s' => (1, s')
          | _ => (1, String c s)
          end = (1, String c s)) as ->.
  { clear -Hm Hpl. by destruct c as [[] [] [] [] [] [] [] []]. }
  rewrite skip_prefix_10.
  destruct (parse_digits 10 false 0 (String c s)); [f_equal; lia|done].
Qed.

(** The six digits of an offset from 10 on are never read back as the
    offset by [int(offset)]. *)
Lemma int_decimal_offset (o : Z) :
  10 ≤ o →
  int (format_X 6 o) 10 = Raise ValueError
  ∨ ∃ o', 0 ≤ o' < o ∧ int (format_X 6 o) 10 = Ok o'.
Proof.
  intros Ho. unfold format_X. rewrite bool_decide_eq_false_2 by lia.
  replace (Z.abs o) with o by lia.
  set (fuel := Z.to_nat (Z.log2 o)).
  set (digits := hex_digits (S fuel) o EmptyString).
  set (k := (6 - String.length digits)%nat).
  assert (string_forall is_hex_char (zeros k +:+ digits) = true) as Hchars.
  { rewrite string_forall_app, hex_chars_zeros. simpl.
    apply hex_chars_digits; [lia|done]. }
  rewrite (int_decimal_hex _ Hchars).
  assert (0 ≤ o < 16 ^ Z.of_nat (S fuel)) as Hfuel
    by (split; [lia|apply log2_fuel; lia]).
  destruct (parse_decimal_hex_digits fuel o EmptyString Hfuel)
    as [Hnone|(j & v & Hj & Hv & Hlt & Hp)].
  - left. destruct k as [|k].
    + change (zeros 0 +:+ digits) with digits. unfold digits.
      by rewrite Hnone.
    + rewrite parse_decimal_zeros. unfold digits. by rewrite Hnone.
  - right. exists v. split; [lia|]. destruct k as [|k].
    + change (zeros 0 +:+ digits) with digits. unfold digits.
      rewrite Hp. simpl. f_equal; lia.
    + rewrite parse_decimal_zeros. unfold digits. rewrite Hp. simpl.
      f_equal; lia.
Qed.

(** X22: the line of a literal block whose offset is 10 or more is never
    read back at its offset: the reader either raises [ValueError] (a
    letter among the hexadecimal digits) or places the bytes at a smaller
    offset, the decimal reading of the digits. *)
Theorem ipst_literal_misread (ln o : Z) (d : list Z) (ch : gmap Z Z) :
  10 ≤ o → use_rle d = false → Forall is_byte d → d ≠ [] →
  from_ipst_line ln (ipst_line (o, d) +:+ newline) ch = Raise ValueError
  ∨ ∃ o', 0 ≤ o' < o
          ∧ from_ipst_line ln (ipst_line (o, d) +:+ newline) ch
            = Ok (Some (set_block ch o' d)).
Proof.
  intros Ho Hrle Hbytes Hd. rewrite ipst_literal_line_read by done.
  destruct (int_decimal_offset o Ho) as [-> | (o' & Ho' & ->)];
    [by left|right]. by exists o'.
Qed.

Lemma ipst_literal_misread_witness :
  from_ipst_line 2 (ipst_line (0x1F, [1; 2]) +:+ newline) ∅
  = Raise ValueError
  ∧ from_ipst_line 2 (ipst_line (0x20, [1; 2]) +:+ newline) ∅
    = Ok (Some (set_block ∅ 20 [1; 2])).
Proof.
  assert (Forall is_byte [1; 2]) as Hb
    by (apply (bool_decide_unpack _); vm_compute; exact I).
  split.
  - destruct (ipst_literal_misread 2 0x1F [1; 2] ∅) as [H|(o' & _ & H)];
      [lia|reflexivity|exact Hb|done|exact H|].
    vm_compute in H. discriminate H.
  - vm_compute. reflexivity.
Defined.

(** * Tables over an arithmetic index *)

(** X23: in a table over an arithmetic index, with no size of its own and
    an element type that is no registered structure, the elements tile
    the view: the sub-view of element [i] runs from its own start to the
    start of element [i + 1]. *)
Theorem Table_elements_tile {View : Type}
    (view_slice : View → Z → Z → result View)
    (registry : gmap string (list FieldSpec))
    (t : @Table.t View) (ix : Index.t) (i : Z) :
  Table.index_ t = IndexObj ix → no_size t →
  registry !! Table.typename t = None → i < Index.count ix →
  Table._subview view_slice registry t i
  = view_slice (Table.view t)
      ((Index.offset ix + i * Index.stride ix) * Table.units t)
      ((Index.offset ix + (i + 1) * Index.stride ix) * Table.units t).
Proof.
  intros Hix Hno Hreg Hi. unfold Table._subview.
  rewrite (isz_bits_no_size registry t Hno), Hreg, Hix. simpl.
  unfold Index.getitem. rewrite decide_False by lia. simpl.
  f_equal. lia.
Qed.

Lemma Table_elements_tile_witness :
  let t := Table.mk [1; 2; 3; 4; 5; 6; 7; 8] "uint"
             (IndexObj (Index.mk 2 3 2)) None 1 in
  let slice (v : list Z) (a b : Z) :=
    Ok (take (Z.to_nat (b - a)) (drop (Z.to_nat a) v)) in
  Table._subview slice ∅ t 0 = Ok [3; 4]
  ∧ Table._subview slice ∅ t 1 = Ok [5; 6].
Proof.
  intros t slice. split.
  - rewrite (Table_elements_tile slice ∅ t (Index.mk 2 3 2) 0);
      [reflexivity|reflexivity|by left|reflexivity|simpl; lia].
  - rewrite (Table_elements_tile slice ∅ t (Index.mk 2 3 2) 1);
      [reflexivity|reflexivity|by left|reflexivity|simpl; lia].
Defined.
